(** * RoboShen voice client: session controller, audio pipeline, tool calls

    A shallow embedding of the [useRoboShen] hook (the session controller of
    the voice client) and of its error classifier, followed by the properties
    of the written specification that can be stated over it.

    Conventions of the embedding.
    - JavaScript strings are [string]s (byte sequences, UTF-8 for the Persian
      copy); [toLowerCase] acts on the ASCII letters only.
    - JavaScript numbers that carry playback time are binary64 values
      ([double]): an operation computes the exact result and rounds it once.
    - A [useRef] cell is a field of [Refs]; a [useState] cell is a field of
      [UiState] holding the latest value handed to its setter.  A callback
      made by [useCallback] does not read the cell: it reads the value that
      the render which made it captured, an argument of the callback here.
    - Browser and SDK objects (audio contexts, nodes, media streams, buffer
      sources, timers, the promise returned by [live.connect]) live in
      finite maps indexed by handles, so that an object still has a state
      after the last reference to it was dropped.
    - Code that can raise runs in the monad [Js]: a computation takes the
      world and returns either a value or the thrown value, together with
      the world as the effects performed so far left it.
    - An inbound message is one in which the members that the hook
      dereferences without a test are present: a tool call carries its list
      of function calls, and a function call its arguments.
    - Whatever the outer world decides (the reply of a remote call, a clock
      reading, the value of [Date.now()]) is an explicit argument.
    - Console output is not modelled. *)

From Stdlib Require Import ZArith Lia Floats.
From stdpp Require Import gmap strings list pretty.

Open Scope string_scope.

(** ** Strings *)

Definition lower_ascii (c : Ascii.ascii) : Ascii.ascii :=
  let n := Ascii.nat_of_ascii c in
  if (65 <=? n)%nat && (n <=? 90)%nat then Ascii.ascii_of_nat (n + 32) else c.

(** [String.prototype.toLowerCase], on ASCII letters. *)
Fixpoint toLowerCase (s : string) : string :=
  match s with
  | EmptyString => EmptyString
  | String c s' => String (lower_ascii c) (toLowerCase s')
  end.

(** [s.includes(sub)]: [sub] occurs in [s] as a contiguous substring. *)
Fixpoint includes (sub s : string) : bool :=
  String.prefix sub s ||
  match s with
  | EmptyString => false
  | String _ s' => includes sub s'
  end.

(** Strict equality [===] on strings. *)
Definition str_eqb (a b : string) : bool := bool_decide (a = b).

(** JavaScript truthiness of a string: the empty string is falsy. *)
Definition truthy (s : string) : bool := negb (str_eqb s "").

Definition dquote : string := String (Ascii.ascii_of_nat 34) "".
Definition backticks3 : string :=
  let b := Ascii.ascii_of_nat 96 in String b (String b (String b "")).

(** ** Numbers: binary64

    A JavaScript number is an IEEE 754 binary64 value.  Every finite double
    is an integer multiple of 2^-1074, so a finite double is kept as that
    integer; the two infinities and NaN are values of their own.  The two
    zeros are not told apart.  An operation computes the exact result and
    rounds it once, to 53 significant bits, ties to even. *)

Section Numbers.
Local Open Scope Z_scope.

Inductive double :=
| Finite (units : Z)
| PosInf
| NegInf
| NaN.

(** Rounding of a non-negative number of units to 53 significant bits. *)
Definition roundN (k : Z) : Z :=
  let s := (Z.log2 k - 52)%Z in
  if s <=? 0 then k
  else
    let q := k / 2 ^ s in
    let r := k mod 2 ^ s in
    let half := 2 ^ (s - 1) in
    (if (r <? half) || ((r =? half) && Z.even q) then q else q + 1) * 2 ^ s.

Definition round53 (k : Z) : Z :=
  if k <? 0 then - roundN (- k) else roundN k.

(** 2^1024, in units of 2^-1074: a rounded result of this size or more
    overflows. *)
Definition overflow : Z := 2 ^ 2098.

Definition rounded (k : Z) : double :=
  let r := round53 k in
  if overflow <=? r then PosInf
  else if r <=? - overflow then NegInf
  else Finite r.

(** The double [m * 2^e], for [-1074 <= e]. *)
Definition dyadic (m e : Z) : double := rounded (m * 2 ^ (e + 1074)).

Definition dneg (a : double) : double :=
  match a with
  | Finite k => Finite (- k)
  | PosInf => NegInf
  | NegInf => PosInf
  | NaN => NaN
  end.

(** [a + b] *)
Definition dadd (a b : double) : double :=
  match a, b with
  | NaN, _ | _, NaN => NaN
  | PosInf, NegInf | NegInf, PosInf => NaN
  | PosInf, _ | _, PosInf => PosInf
  | NegInf, _ | _, NegInf => NegInf
  | Finite x, Finite y => rounded (x + y)
  end.

(** [a - b] *)
Definition dsub (a b : double) : double := dadd a (dneg b).

(** [a <= b]; [false] when either is NaN. *)
Definition dle (a b : double) : bool :=
  match a, b with
  | NaN, _ | _, NaN => false
  | NegInf, _ => true
  | _, PosInf => true
  | PosInf, _ => false
  | _, NegInf => false
  | Finite x, Finite y => x <=? y
  end.

(** [a >= b] *)
Definition dge (a b : double) : bool := dle b a.

(** [Math.max(a, b)] *)
Definition dmax (a b : double) : double :=
  match a, b with
  | NaN, _ | _, NaN => NaN
  | _, _ => if dle a b then b else a
  end.

Definition dzero : double := Finite 0.

(** A non-negative number: a double that is neither NaN nor negative. *)
Definition nonneg (a : double) : Prop :=
  match a with
  | Finite k => 0 <= k /\ roundN k = k /\ k < overflow
  | PosInf => True
  | NegInf | NaN => False
  end.

End Numbers.

(** *** The binary64 arithmetic of the machine

    The operations above are compared below with those of the primitive
    floats, which are the binary64 numbers of the processor, on every pair
    of these samples. *)
Definition ofSF (f : SpecFloat.spec_float) : double :=
  match f with
  | SpecFloat.S754_zero _ => Finite 0
  | SpecFloat.S754_infinity false => PosInf
  | SpecFloat.S754_infinity true => NegInf
  | SpecFloat.S754_nan => NaN
  | SpecFloat.S754_finite s m e =>
      Finite ((if s then -1 else 1) * Z.pos m * 2 ^ (e + 1074))%Z
  end.

Definition ofFloat (f : float) : double := ofSF (Prim2SF f).

(** 0, 0.1, 0.2, 0.30000000000000004, 0.4, 0.05, 0.5, 0.6, 1, 2^53 + 2, the
    largest double, the smallest positive one, -0.1, -0.30000000000000004,
    the infinities and NaN. *)
Definition samples : list float :=
  [0x0p+0; 0x1.999999999999ap-4; 0x1.999999999999ap-3; 0x1.3333333333334p-2;
   0x1.999999999999ap-2; 0x1.999999999999ap-5; 0x1p-1; 0x1.3333333333333p-1;
   0x1p+0; 0x1.0000000000001p+53; 0x1.fffffffffffffp+1023;
   0x0.0000000000001p-1022; -0x1.999999999999ap-4; -0x1.3333333333334p-2;
   infinity; neg_infinity; nan]%float.

Definition sameDouble (a b : double) : bool :=
  match a, b with
  | Finite x, Finite y => (x =? y)%Z
  | PosInf, PosInf | NegInf, NegInf | NaN, NaN => true
  | _, _ => false
  end.

(** [Math.max] on the machine's numbers. *)
Definition mathMax (a b : float) : float :=
  if PrimFloat.is_nan a || PrimFloat.is_nan b then nan
  else if PrimFloat.leb a b then b else a.

Definition agree (f : float -> float -> float) (g : double -> double -> double) : bool :=
  forallb (fun a =>
    forallb (fun b => sameDouble (g (ofFloat a) (ofFloat b)) (ofFloat (f a b))) samples)
    samples.

Definition agreeTest (f : float -> float -> bool) (g : double -> double -> bool) : bool :=
  forallb (fun a =>
    forallb (fun b => Bool.eqb (g (ofFloat a) (ofFloat b)) (f a b)) samples)
    samples.

(** The literals of the hook: [0.1] is the double nearest to one tenth,
    0x1.999999999999ap-4. *)
Definition oneTenth : double := dyadic 7205759403792794 (-56).

(** ** Data model ([types.ts]) *)

Inductive SessionState := IDLE | CONNECTING | CONNECTED | ERROR.
Inductive Role := USER | MODEL.
Inductive ContentType := TEXT | CODE | IMAGE.

#[global] Instance SessionState_eq_dec : EqDecision SessionState.
Proof. solve_decision. Defined.
#[global] Instance Role_eq_dec : EqDecision Role.
Proof. solve_decision. Defined.
#[global] Instance ContentType_eq_dec : EqDecision ContentType.
Proof. solve_decision. Defined.

(** Modelled from the spec: [types.ts] is not among the sources, so the string
    values of the [Role] enum are not known; the spec names the roles User and
    Model, and the template literal of [addMessageToHistory] prints this tag. *)
Definition Role_tag (r : Role) : string :=
  match r with USER => "user" | MODEL => "model" end.

Record Message := {
  msg_id : string;
  msg_role : Role;
  msg_text : string;
  msg_type : ContentType
}.

Record AppError := {
  title : string;
  message : string;
  steps : list string
}.

(** A thrown value ([e : unknown] in a catch clause): an [Error] object with
    its [name] and [message], or any other value. *)
Inductive Thrown :=
| ErrorObj (name msg : string)
| NonError (shown : string).

(** ** Error classifier: [mapErrorToAppError] *)

Module ErrorClassifier.

Definition unknownTitle : string := "یک خطای ناشناخته رخ داد".
Definition unknownMessage : string :=
  "متاسفانه مشکلی پیش آمده. لطفاً دوباره تلاش کنید.".

Definition permissionError : AppError := {|
  title := "دسترسی به میکروفون لازم است";
  message := "برای شروع گفتگو، RoboShen نیاز به اجازه‌ی شما برای استفاده از میکروفون دارد.";
  steps := [
    "در پنجره‌ی باز شده روی " ++ dquote ++ "Allow" ++ dquote ++ " کلیک کنید.";
    "اگر پنجره را بسته‌اید، صفحه را رفرش کنید.";
    "در تنظیمات مرورگر خود، دسترسی به میکروفون را برای این سایت فعال کنید."
  ]
|}.

Definition connectionError : AppError := {|
  title := "خطا در ارتباط با سرور";
  message := "ارتباط با سرویس هوش مصنوعی برقرار نشد. این مشکل می‌تواند به دلایل زیر باشد:";
  steps := [
    "اتصال اینترنت خود را بررسی کنید.";
    "ممکن است سرویس به طور موقت در دسترس نباشد.";
    "کلید API استفاده شده در کد ممکن است نامعتبر یا منقضی شده باشد."
  ]
|}.

Definition deviceError : AppError := {|
  title := "میکروفون پیدا نشد";
  message := "هیچ دستگاه ورودی صوتی (میکروفون) بر روی سیستم شما شناسایی نشد.";
  steps := [
    "اطمینان حاصل کنید که میکروفون به درستی به دستگاه شما متصل است.";
    "اگر از میکروفون خارجی استفاده می‌کنید، آن را جدا کرده و دوباره وصل کنید.";
    "درایورهای صوتی خود را بررسی و به‌روزرسانی کنید."
  ]
|}.

Definition unknownError (m : string) : AppError :=
  {| title := unknownTitle; message := m; steps := [] |}.

(** The three signature tests, as the conditions of the [if] chain. *)
Definition permissionSignature (name msg : string) : bool :=
  includes "permission" (toLowerCase msg) || str_eqb name "NotAllowedError".

Definition connectionSignature (msg : string) : bool :=
  let m := toLowerCase msg in
  includes "api key" m || includes "400" m || includes "403" m
  || includes "network" m || includes "cors" m.

Definition deviceSignature (name msg : string) : bool :=
  includes "device" (toLowerCase msg) || str_eqb name "NotFoundError".

Definition mapErrorToAppError (e : Thrown) : AppError :=
  match e with
  | ErrorObj name msg =>
      if permissionSignature name msg then permissionError
      else if connectionSignature msg then connectionError
      else if deviceSignature name msg then deviceError
      else unknownError msg
  | NonError _ => unknownError unknownMessage
  end.

End ErrorClassifier.

(** ** Browser and SDK objects *)

(** Objects are named by handles, handed out in increasing order. *)
Abbreviation Handle := positive.

Inductive AudioContextState := suspended | running | closed.
Inductive TrackState := live | ended.

#[global] Instance AudioContextState_eq_dec : EqDecision AudioContextState.
Proof. solve_decision. Defined.
#[global] Instance TrackState_eq_dec : EqDecision TrackState.
Proof. solve_decision. Defined.

(** A decoded PCM buffer.  The hook reads one property of it,
    [AudioBuffer.duration], its length in seconds. *)
Record AudioBuffer := { duration : double }.

(** An [AudioBufferSourceNode]: its buffer, the time handed to [start] (if it
    was started), whether [stop] was called, and the node it feeds. *)
Record BufferSource := {
  src_buffer : option AudioBuffer;
  src_startTime : option double;
  src_stopped : bool;
  src_output : option Handle
}.

(** One call [source.start(when)], as the audio hardware sees it: the source,
    the time it was given and the buffer it plays. *)
Record Started := {
  st_source : Handle;
  st_when : double;
  st_buffer : option AudioBuffer
}.

Definition st_duration (e : Started) : double :=
  from_option duration dzero (st_buffer e).

(** What the client sends over the session. *)
Inductive Outbound :=
| ToolResponse (id name result : string)
| RealtimeInput (media : string).

(** The promise returned by [live.connect].  The only reactions ever attached
    to it are the [then] callbacks that send one message over the resolved
    session, so a reaction is recorded as the message it will send. *)
Inductive PromiseState :=
| Pending (reactions : list Outbound)
| Fulfilled
| Rejected.

(** ** The world: hook state, reference cells, browser objects *)

Record UiState := {
  sessionState : SessionState;
  history : list Message;
  error : option AppError;
  isThinking : bool;
  isSpeaking : bool
}.

Record Refs := {
  sessionPromiseRef : option Handle;
  streamRef : option Handle;
  inputAudioContextRef : option Handle;
  outputAudioContextRef : option Handle;
  outputGainNodeRef : option Handle;
  scriptProcessorRef : option Handle;
  nextStartTimeRef : double;
  audioSourcesRef : list Handle;
  aiRef : bool;
  speakingCheckIntervalRef : option Handle;
  isClosedRef : bool;
  sessionStateRef : SessionState
}.

Record Browser := {
  contexts : gmap Handle AudioContextState;
  streams : gmap Handle (list TrackState);
  nodes : gmap Handle (list Handle);
  sources : gmap Handle BufferSource;
  timers : gset Handle;
  promises : gmap Handle PromiseState;
  outbox : list Outbound;
  playback : list Started;
  toolCallSignals : nat;
  nextHandle : Handle
}.

Record World := { ui : UiState; refs : Refs; dom : Browser }.

Definition initialUi : UiState :=
  {| sessionState := IDLE; history := []; error := None;
     isThinking := false; isSpeaking := false |}.

Definition initialRefs : Refs :=
  {| sessionPromiseRef := None; streamRef := None;
     inputAudioContextRef := None; outputAudioContextRef := None;
     outputGainNodeRef := None; scriptProcessorRef := None;
     nextStartTimeRef := dzero; audioSourcesRef := []; aiRef := false;
     speakingCheckIntervalRef := None; isClosedRef := false;
     sessionStateRef := IDLE |}.

Definition initialBrowser : Browser :=
  {| contexts := ∅; streams := ∅; nodes := ∅; sources := ∅; timers := ∅;
     promises := ∅; outbox := []; playback := []; toolCallSignals := 0; nextHandle := 1%positive |}.

Definition initial : World :=
  {| ui := initialUi; refs := initialRefs; dom := initialBrowser |}.

(** *** Field updates *)

Definition with_sessionState v (u : UiState) : UiState :=
  {| sessionState := v; history := history u; error := error u;
     isThinking := isThinking u; isSpeaking := isSpeaking u |}.
Definition with_history v (u : UiState) : UiState :=
  {| sessionState := sessionState u; history := v; error := error u;
     isThinking := isThinking u; isSpeaking := isSpeaking u |}.
Definition with_error v (u : UiState) : UiState :=
  {| sessionState := sessionState u; history := history u; error := v;
     isThinking := isThinking u; isSpeaking := isSpeaking u |}.
Definition with_isThinking v (u : UiState) : UiState :=
  {| sessionState := sessionState u; history := history u; error := error u;
     isThinking := v; isSpeaking := isSpeaking u |}.
Definition with_isSpeaking v (u : UiState) : UiState :=
  {| sessionState := sessionState u; history := history u; error := error u;
     isThinking := isThinking u; isSpeaking := v |}.

Definition with_sessionPromiseRef v (r : Refs) : Refs :=
  {| sessionPromiseRef := v; streamRef := streamRef r;
     inputAudioContextRef := inputAudioContextRef r;
     outputAudioContextRef := outputAudioContextRef r;
     outputGainNodeRef := outputGainNodeRef r;
     scriptProcessorRef := scriptProcessorRef r;
     nextStartTimeRef := nextStartTimeRef r;
     audioSourcesRef := audioSourcesRef r; aiRef := aiRef r;
     speakingCheckIntervalRef := speakingCheckIntervalRef r;
     isClosedRef := isClosedRef r; sessionStateRef := sessionStateRef r |}.
Definition with_streamRef v (r : Refs) : Refs :=
  {| sessionPromiseRef := sessionPromiseRef r; streamRef := v;
     inputAudioContextRef := inputAudioContextRef r;
     outputAudioContextRef := outputAudioContextRef r;
     outputGainNodeRef := outputGainNodeRef r;
     scriptProcessorRef := scriptProcessorRef r;
     nextStartTimeRef := nextStartTimeRef r;
     audioSourcesRef := audioSourcesRef r; aiRef := aiRef r;
     speakingCheckIntervalRef := speakingCheckIntervalRef r;
     isClosedRef := isClosedRef r; sessionStateRef := sessionStateRef r |}.
Definition with_inputAudioContextRef v (r : Refs) : Refs :=
  {| sessionPromiseRef := sessionPromiseRef r; streamRef := streamRef r;
     inputAudioContextRef := v;
     outputAudioContextRef := outputAudioContextRef r;
     outputGainNodeRef := outputGainNodeRef r;
     scriptProcessorRef := scriptProcessorRef r;
     nextStartTimeRef := nextStartTimeRef r;
     audioSourcesRef := audioSourcesRef r; aiRef := aiRef r;
     speakingCheckIntervalRef := speakingCheckIntervalRef r;
     isClosedRef := isClosedRef r; sessionStateRef := sessionStateRef r |}.
Definition with_outputAudioContextRef v (r : Refs) : Refs :=
  {| sessionPromiseRef := sessionPromiseRef r; streamRef := streamRef r;
     inputAudioContextRef := inputAudioContextRef r;
     outputAudioContextRef := v;
     outputGainNodeRef := outputGainNodeRef r;
     scriptProcessorRef := scriptProcessorRef r;
     nextStartTimeRef := nextStartTimeRef r;
     audioSourcesRef := audioSourcesRef r; aiRef := aiRef r;
     speakingCheckIntervalRef := speakingCheckIntervalRef r;
     isClosedRef := isClosedRef r; sessionStateRef := sessionStateRef r |}.
Definition with_outputGainNodeRef v (r : Refs) : Refs :=
  {| sessionPromiseRef := sessionPromiseRef r; streamRef := streamRef r;
     inputAudioContextRef := inputAudioContextRef r;
     outputAudioContextRef := outputAudioContextRef r;
     outputGainNodeRef := v;
     scriptProcessorRef := scriptProcessorRef r;
     nextStartTimeRef := nextStartTimeRef r;
     audioSourcesRef := audioSourcesRef r; aiRef := aiRef r;
     speakingCheckIntervalRef := speakingCheckIntervalRef r;
     isClosedRef := isClosedRef r; sessionStateRef := sessionStateRef r |}.
Definition with_scriptProcessorRef v (r : Refs) : Refs :=
  {| sessionPromiseRef := sessionPromiseRef r; streamRef := streamRef r;
     inputAudioContextRef := inputAudioContextRef r;
     outputAudioContextRef := outputAudioContextRef r;
     outputGainNodeRef := outputGainNodeRef r;
     scriptProcessorRef := v;
     nextStartTimeRef := nextStartTimeRef r;
     audioSourcesRef := audioSourcesRef r; aiRef := aiRef r;
     speakingCheckIntervalRef := speakingCheckIntervalRef r;
     isClosedRef := isClosedRef r; sessionStateRef := sessionStateRef r |}.
Definition with_nextStartTimeRef v (r : Refs) : Refs :=
  {| sessionPromiseRef := sessionPromiseRef r; streamRef := streamRef r;
     inputAudioContextRef := inputAudioContextRef r;
     outputAudioContextRef := outputAudioContextRef r;
     outputGainNodeRef := outputGainNodeRef r;
     scriptProcessorRef := scriptProcessorRef r;
     nextStartTimeRef := v;
     audioSourcesRef := audioSourcesRef r; aiRef := aiRef r;
     speakingCheckIntervalRef := speakingCheckIntervalRef r;
     isClosedRef := isClosedRef r; sessionStateRef := sessionStateRef r |}.
Definition with_audioSourcesRef v (r : Refs) : Refs :=
  {| sessionPromiseRef := sessionPromiseRef r; streamRef := streamRef r;
     inputAudioContextRef := inputAudioContextRef r;
     outputAudioContextRef := outputAudioContextRef r;
     outputGainNodeRef := outputGainNodeRef r;
     scriptProcessorRef := scriptProcessorRef r;
     nextStartTimeRef := nextStartTimeRef r;
     audioSourcesRef := v; aiRef := aiRef r;
     speakingCheckIntervalRef := speakingCheckIntervalRef r;
     isClosedRef := isClosedRef r; sessionStateRef := sessionStateRef r |}.
Definition with_aiRef v (r : Refs) : Refs :=
  {| sessionPromiseRef := sessionPromiseRef r; streamRef := streamRef r;
     inputAudioContextRef := inputAudioContextRef r;
     outputAudioContextRef := outputAudioContextRef r;
     outputGainNodeRef := outputGainNodeRef r;
     scriptProcessorRef := scriptProcessorRef r;
     nextStartTimeRef := nextStartTimeRef r;
     audioSourcesRef := audioSourcesRef r; aiRef := v;
     speakingCheckIntervalRef := speakingCheckIntervalRef r;
     isClosedRef := isClosedRef r; sessionStateRef := sessionStateRef r |}.
Definition with_speakingCheckIntervalRef v (r : Refs) : Refs :=
  {| sessionPromiseRef := sessionPromiseRef r; streamRef := streamRef r;
     inputAudioContextRef := inputAudioContextRef r;
     outputAudioContextRef := outputAudioContextRef r;
     outputGainNodeRef := outputGainNodeRef r;
     scriptProcessorRef := scriptProcessorRef r;
     nextStartTimeRef := nextStartTimeRef r;
     audioSourcesRef := audioSourcesRef r; aiRef := aiRef r;
     speakingCheckIntervalRef := v;
     isClosedRef := isClosedRef r; sessionStateRef := sessionStateRef r |}.
Definition with_isClosedRef v (r : Refs) : Refs :=
  {| sessionPromiseRef := sessionPromiseRef r; streamRef := streamRef r;
     inputAudioContextRef := inputAudioContextRef r;
     outputAudioContextRef := outputAudioContextRef r;
     outputGainNodeRef := outputGainNodeRef r;
     scriptProcessorRef := scriptProcessorRef r;
     nextStartTimeRef := nextStartTimeRef r;
     audioSourcesRef := audioSourcesRef r; aiRef := aiRef r;
     speakingCheckIntervalRef := speakingCheckIntervalRef r;
     isClosedRef := v; sessionStateRef := sessionStateRef r |}.
Definition with_sessionStateRef v (r : Refs) : Refs :=
  {| sessionPromiseRef := sessionPromiseRef r; streamRef := streamRef r;
     inputAudioContextRef := inputAudioContextRef r;
     outputAudioContextRef := outputAudioContextRef r;
     outputGainNodeRef := outputGainNodeRef r;
     scriptProcessorRef := scriptProcessorRef r;
     nextStartTimeRef := nextStartTimeRef r;
     audioSourcesRef := audioSourcesRef r; aiRef := aiRef r;
     speakingCheckIntervalRef := speakingCheckIntervalRef r;
     isClosedRef := isClosedRef r; sessionStateRef := v |}.

Definition with_contexts v (b : Browser) : Browser :=
  {| contexts := v; streams := streams b; nodes := nodes b; sources := sources b;
     timers := timers b; promises := promises b; outbox := outbox b;
     playback := playback b; toolCallSignals := toolCallSignals b; nextHandle := nextHandle b |}.
Definition with_streams v (b : Browser) : Browser :=
  {| contexts := contexts b; streams := v; nodes := nodes b; sources := sources b;
     timers := timers b; promises := promises b; outbox := outbox b;
     playback := playback b; toolCallSignals := toolCallSignals b; nextHandle := nextHandle b |}.
Definition with_nodes v (b : Browser) : Browser :=
  {| contexts := contexts b; streams := streams b; nodes := v; sources := sources b;
     timers := timers b; promises := promises b; outbox := outbox b;
     playback := playback b; toolCallSignals := toolCallSignals b; nextHandle := nextHandle b |}.
Definition with_sources v (b : Browser) : Browser :=
  {| contexts := contexts b; streams := streams b; nodes := nodes b; sources := v;
     timers := timers b; promises := promises b; outbox := outbox b;
     playback := playback b; toolCallSignals := toolCallSignals b; nextHandle := nextHandle b |}.
Definition with_timers v (b : Browser) : Browser :=
  {| contexts := contexts b; streams := streams b; nodes := nodes b; sources := sources b;
     timers := v; promises := promises b; outbox := outbox b;
     playback := playback b; toolCallSignals := toolCallSignals b; nextHandle := nextHandle b |}.
Definition with_promises v (b : Browser) : Browser :=
  {| contexts := contexts b; streams := streams b; nodes := nodes b; sources := sources b;
     timers := timers b; promises := v; outbox := outbox b;
     playback := playback b; toolCallSignals := toolCallSignals b; nextHandle := nextHandle b |}.
Definition with_outbox v (b : Browser) : Browser :=
  {| contexts := contexts b; streams := streams b; nodes := nodes b; sources := sources b;
     timers := timers b; promises := promises b; outbox := v;
     playback := playback b; toolCallSignals := toolCallSignals b; nextHandle := nextHandle b |}.
Definition with_playback v (b : Browser) : Browser :=
  {| contexts := contexts b; streams := streams b; nodes := nodes b; sources := sources b;
     timers := timers b; promises := promises b; outbox := outbox b;
     playback := v; toolCallSignals := toolCallSignals b; nextHandle := nextHandle b |}.
Definition with_toolCallSignals v (b : Browser) : Browser :=
  {| contexts := contexts b; streams := streams b; nodes := nodes b; sources := sources b;
     timers := timers b; promises := promises b; outbox := outbox b;
     playback := playback b; toolCallSignals := v; nextHandle := nextHandle b |}.
Definition with_nextHandle v (b : Browser) : Browser :=
  {| contexts := contexts b; streams := streams b; nodes := nodes b; sources := sources b;
     timers := timers b; promises := promises b; outbox := outbox b;
     playback := playback b; toolCallSignals := toolCallSignals b; nextHandle := v |}.

Definition onUi (f : UiState -> UiState) (w : World) : World :=
  {| ui := f (ui w); refs := refs w; dom := dom w |}.
Definition onRefs (f : Refs -> Refs) (w : World) : World :=
  {| ui := ui w; refs := f (refs w); dom := dom w |}.
Definition onDom (f : Browser -> Browser) (w : World) : World :=
  {| ui := ui w; refs := refs w; dom := f (dom w) |}.

(** ** The monad of effectful, possibly throwing code *)

Inductive Result (A : Type) :=
| Ok (a : A)
| Throw (e : Thrown).
Arguments Ok {A} a.
Arguments Throw {A} e.

Definition Js (A : Type) : Type := World -> Result A * World.

Definition ret {A} (a : A) : Js A := fun w => (Ok a, w).
Definition throw {A} (e : Thrown) : Js A := fun w => (Throw e, w).

Definition bind {A B} (m : Js A) (k : A -> Js B) : Js B :=
  fun w =>
    match m w with
    | (Ok a, w') => k a w'
    | (Throw e, w') => (Throw e, w')
    end.

Declare Scope js_scope.
Delimit Scope js_scope with js.
Notation "x <- m ;; k" := (bind m (fun x => k))
  (at level 100, m at next level, right associativity) : js_scope.
Notation "m ;; k" := (bind m (fun _ => k))
  (at level 100, right associativity) : js_scope.
Open Scope js_scope.

(** [try { body } catch (e) { handler e }] *)
Definition tryCatch {A} (body : Js A) (handler : Thrown -> Js A) : Js A :=
  fun w =>
    match body w with
    | (Ok a, w') => (Ok a, w')
    | (Throw e, w') => handler e w'
    end.

(** [try { body } finally { final }]: [final] always runs; the completion of
    [body] stands unless [final] throws itself. *)
Definition tryFinally {A} (body : Js A) (final : Js unit) : Js A :=
  fun w =>
    match body w with
    | (r, w') =>
        match final w' with
        | (Ok _, w'') => (r, w'')
        | (Throw e, w'') => (Throw e, w'')
        end
    end.

Definition read {A} (f : World -> A) : Js A := fun w => (Ok (f w), w).
Definition update (f : World -> World) : Js unit := fun w => (Ok tt, f w).

Definition whenSome {A} (o : option A) (f : A -> Js unit) : Js unit :=
  match o with Some a => f a | None => ret tt end.

Definition when (b : bool) (m : Js unit) : Js unit := if b then m else ret tt.

(** [for (const x of l) body x], and [forEach]. *)
Fixpoint forEach {A} (l : list A) (body : A -> Js unit) : Js unit :=
  match l with
  | [] => ret tt
  | x :: l' => body x ;; forEach l' body
  end.

(** The world a computation leaves behind, and its completion. *)
Definition exec {A} (m : Js A) (w : World) : World := snd (m w).
Definition completion {A} (m : Js A) (w : World) : Result A := fst (m w).

(** The outcome of something awaited or constructed outside the hook. *)
Inductive Awaited (A : Type) :=
| Resolved (a : A)
| Rejected_with (e : Thrown).
Arguments Resolved {A} a.
Arguments Rejected_with {A} e.

Definition await {A} (r : Awaited A) : Js A :=
  match r with
  | Resolved a => ret a
  | Rejected_with e => throw e
  end.

(** ** Primitive operations on the world *)

Definition typeError (what : string) : Thrown := ErrorObj "TypeError" what.
Definition invalidStateError (what : string) : Thrown := ErrorObj "InvalidStateError" what.

Definition alloc : Js Handle :=
  fun w => (Ok (nextHandle (dom w)),
            onDom (with_nextHandle (Pos.succ (nextHandle (dom w)))) w).

(** *** The [useState] setters *)

Definition setSessionState (v : SessionState) : Js unit := update (onUi (with_sessionState v)).
Definition setError (v : option AppError) : Js unit := update (onUi (with_error v)).
Definition setIsThinking (v : bool) : Js unit := update (onUi (with_isThinking v)).
Definition setIsSpeaking (v : bool) : Js unit := update (onUi (with_isSpeaking v)).
Definition setHistory (f : list Message -> list Message) : Js unit :=
  update (onUi (fun u => with_history (f (history u)) u)).

Definition setRef (f : Refs -> Refs) : Js unit := update (onRefs f).

(** *** Audio contexts *)

Definition contextState (h : Handle) (w : World) : AudioContextState :=
  default closed (contexts (dom w) !! h).

Definition setContextState (h : Handle) (s : AudioContextState) : Js unit :=
  update (onDom (fun b => with_contexts (<[h := s]> (contexts b)) b)).

(** [new AudioContext({ sampleRate })]: fails, or yields a context in its
    initial state. *)
Definition newAudioContext (r : Awaited AudioContextState) : Js Handle :=
  s <- await r ;;
  h <- alloc ;;
  setContextState h s ;;
  ret h.

(** [ctx.close().catch(console.error)]: a rejection is swallowed. *)
Definition closeContext (h : Handle) : Js unit := setContextState h closed.

Definition resumeContext (h : Handle) (r : Awaited unit) : Js unit :=
  await r ;;
  setContextState h running.

(** *** Audio nodes and their outgoing connections *)

Definition outputsOf (h : Handle) (w : World) : list Handle :=
  default [] (nodes (dom w) !! h).

Definition setOutputs (h : Handle) (l : list Handle) : Js unit :=
  update (onDom (fun b => with_nodes (<[h := l]> (nodes b)) b)).

Definition createNode : Js Handle :=
  h <- alloc ;;
  setOutputs h [] ;;
  ret h.

Definition connect (h dest : Handle) : Js unit :=
  outs <- read (outputsOf h) ;;
  setOutputs h (outs ++ [dest]).

Definition disconnect (h : Handle) : Js unit := setOutputs h [].

(** *** Media streams *)

Definition tracksOf (h : Handle) (w : World) : list TrackState :=
  default [] (streams (dom w) !! h).

(** [navigator.mediaDevices.getUserMedia({ audio: true })] *)
Definition getUserMedia (r : Awaited (list TrackState)) : Js Handle :=
  tracks <- await r ;;
  h <- alloc ;;
  update (onDom (fun b => with_streams (<[h := tracks]> (streams b)) b)) ;;
  ret h.

(** [stream.getTracks().forEach(track => track.stop())] *)
Definition stopTracks (h : Handle) : Js unit :=
  update (onDom (fun b => with_streams (alter (fmap (fun _ => ended)) h (streams b)) b)).

(** [ctx.createMediaStreamSource(stream)] raises when the stream carries no
    audio track. *)
Definition createMediaStreamSource (stream : Handle) : Js Handle :=
  tracks <- read (tracksOf stream) ;;
  match tracks with
  | [] => throw (invalidStateError "MediaStream has no audio track")
  | _ :: _ => createNode
  end.

(** *** Buffer sources *)

Definition setSource (h : Handle) (s : BufferSource) : Js unit :=
  update (onDom (fun b => with_sources (<[h := s]> (sources b)) b)).

Definition createBufferSource : Js Handle :=
  h <- alloc ;;
  setSource h {| src_buffer := None; src_startTime := None;
                 src_stopped := false; src_output := None |} ;;
  ret h.

Definition withSource (h : Handle) (f : BufferSource -> Js unit) : Js unit :=
  o <- read (fun w => sources (dom w) !! h) ;;
  match o with
  | Some s => f s
  | None => throw (typeError "not a buffer source")
  end.

Definition sourceSetBuffer (h : Handle) (buf : AudioBuffer) : Js unit :=
  withSource h (fun s =>
    setSource h {| src_buffer := Some buf; src_startTime := src_startTime s;
                   src_stopped := src_stopped s; src_output := src_output s |}).

Definition sourceConnect (h dest : Handle) : Js unit :=
  withSource h (fun s =>
    setSource h {| src_buffer := src_buffer s; src_startTime := src_startTime s;
                   src_stopped := src_stopped s; src_output := Some dest |}).

(** [source.start(when)]: a source can be started once. *)
Definition sourceStart (h : Handle) (t : double) : Js unit :=
  withSource h (fun s =>
    match src_startTime s with
    | Some _ => throw (invalidStateError "cannot call start more than once")
    | None =>
        setSource h {| src_buffer := src_buffer s; src_startTime := Some t;
                       src_stopped := src_stopped s; src_output := src_output s |} ;;
        update (onDom (fun b =>
          with_playback (playback b ++ [{| st_source := h; st_when := t;
                                           st_buffer := src_buffer s |}]) b))
    end).

(** [source.stop()]: raises on a source that was never started. *)
Definition sourceStop (h : Handle) : Js unit :=
  withSource h (fun s =>
    match src_startTime s with
    | None => throw (invalidStateError "cannot call stop without calling start first")
    | Some _ =>
        setSource h {| src_buffer := src_buffer s; src_startTime := src_startTime s;
                       src_stopped := true; src_output := src_output s |}
    end).

(** *** Timers *)

Definition setInterval : Js Handle :=
  h <- alloc ;;
  update (onDom (fun b => with_timers ({[h]} ∪ timers b) b)) ;;
  ret h.

Definition clearInterval (h : Handle) : Js unit :=
  update (onDom (fun b => with_timers (timers b ∖ {[h]}) b)).

(** *** The session promise *)

Definition send (m : Outbound) : Js unit :=
  update (onDom (fun b => with_outbox (outbox b ++ [m]) b)).

Definition setPromise (p : Handle) (s : PromiseState) : Js unit :=
  update (onDom (fun b => with_promises (<[p := s]> (promises b)) b)).

(** [ai.live.connect(...)]: the promise is pending when it is returned. *)
Definition connectLive : Js Handle :=
  p <- alloc ;;
  setPromise p (Pending []) ;;
  ret p.

(** [promise.then(session => session.send...(m))]: on a pending promise the
    callback is kept until the promise settles; on a fulfilled promise it
    runs; on a rejected one it never runs. *)
Definition promiseThen (p : Handle) (m : Outbound) : Js unit :=
  o <- read (fun w => promises (dom w) !! p) ;;
  match o with
  | Some (Pending q) => setPromise p (Pending (q ++ [m]))
  | Some Fulfilled => send m
  | Some Rejected => ret tt
  | None => ret tt
  end.

(** [sessionPromiseRef.current?.then(session => session.send...(m))] *)
Definition sendViaSession (m : Outbound) : Js unit :=
  p <- read (fun w => sessionPromiseRef (refs w)) ;;
  whenSome p (fun h => promiseThen h m).

(** The promise of [live.connect] settles: the callbacks kept on it run in
    the order in which they were attached. *)
Definition sessionResolved (p : Handle) : Js unit :=
  o <- read (fun w => promises (dom w) !! p) ;;
  match o with
  | Some (Pending q) => setPromise p Fulfilled ;; forEach q send
  | _ => ret tt
  end.

Definition sessionRejected (p : Handle) : Js unit :=
  o <- read (fun w => promises (dom w) !! p) ;;
  match o with
  | Some (Pending q) => setPromise p Rejected
  | _ => ret tt
  end.

(** ** The hook [useRoboShen] *)

Definition INPUT_SAMPLE_RATE : positive := 16000.
Definition OUTPUT_SAMPLE_RATE : positive := 24000.
Definition SCRIPT_PROCESSOR_BUFFER_SIZE : positive := 4096.

Definition clearError : Js unit := setError None.

(** The effect [useEffect(() => { sessionStateRef.current = sessionState },
    [sessionState])]: it runs after a render, not when the setter is called. *)
Definition syncSessionStateRef : Js unit :=
  s <- read (fun w => sessionState (ui w)) ;;
  setRef (with_sessionStateRef s).

Definition cleanup : Js unit :=
  sp <- read (fun w => scriptProcessorRef (refs w)) ;;
  whenSome sp (fun h =>
    disconnect h ;;
    setRef (with_scriptProcessorRef None)) ;;
  g <- read (fun w => outputGainNodeRef (refs w)) ;;
  whenSome g (fun h =>
    disconnect h ;;
    setRef (with_outputGainNodeRef None)) ;;
  ic <- read (fun w => inputAudioContextRef (refs w)) ;;
  whenSome ic (fun h =>
    s <- read (contextState h) ;;
    when (negb (bool_decide (s = closed))) (closeContext h)) ;;
  setRef (with_inputAudioContextRef None) ;;
  oc <- read (fun w => outputAudioContextRef (refs w)) ;;
  whenSome oc (fun h =>
    s <- read (contextState h) ;;
    when (negb (bool_decide (s = closed))) (closeContext h)) ;;
  setRef (with_outputAudioContextRef None) ;;
  st <- read (fun w => streamRef (refs w)) ;;
  whenSome st (fun h =>
    stopTracks h ;;
    setRef (with_streamRef None)) ;;
  live_sources <- read (fun w => audioSourcesRef (refs w)) ;;
  forEach live_sources sourceStop ;;
  setRef (with_audioSourcesRef []) ;;
  setRef (with_nextStartTimeRef dzero) ;;
  t <- read (fun w => speakingCheckIntervalRef (refs w)) ;;
  whenSome t (fun h =>
    clearInterval h ;;
    setRef (with_speakingCheckIntervalRef None)) ;;
  setIsSpeaking false ;;
  setRef (with_sessionPromiseRef None).

(** [addMessageToHistory(text, role, type)]; [now] is the value of
    [Date.now()] when it runs. *)
Definition messageId (role : Role) (now : Z) : string :=
  Role_tag role ++ "-" ++ pretty now.

Definition addMessageToHistory (text : string) (role : Role) (type : ContentType)
    (now : Z) : Js unit :=
  setHistory (fun prev =>
    {| msg_id := messageId role now; msg_role := role;
       msg_text := text; msg_type := type |} :: prev).

(** [response.text] is a string or [undefined]. *)
Definition handleProModelResponse (text : option string) (now : Z) : Js unit :=
  match text with
  | Some t =>
      when (truthy t)
        (addMessageToHistory t MODEL (if includes backticks3 t then CODE else TEXT) now)
  | None => ret tt
  end.

(** [response.generatedImages], each image given by its [imageBytes]
    (a string or [undefined]). *)
Definition handleImageModelResponse (generatedImages : list (option string))
    (now : Z) : Js unit :=
  match generatedImages with
  | [] => throw (typeError "generatedImages[0] is undefined")
  | base64Image :: _ =>
      match base64Image with
      | Some b =>
          when (truthy b)
            (addMessageToHistory ("data:image/jpeg;base64," ++ b) MODEL IMAGE now)
      | None => ret tt
      end
  end.

(** A function call whose [args] are present; [fc_prompt] is
    [fc.args.prompt]. *)
Record FunctionCall := { fc_id : string; fc_name : string; fc_prompt : string }.

(** What the outer world answers while one invocation is handled: the clock
    when the request entry is written, the replies of the two remote
    operations, and the clock when the reply (or the failure) is handled. *)
Record CallEnv := {
  now_request : Z;
  content_reply : Awaited (option string);
  images_reply : Awaited (list (option string));
  now_settled : Z
}.

Definition contentRequestPrefix : string := "درخواست محتوا: ".
Definition imageRequestPrefix : string := "درخواست تصویر: ".
Definition apology : string := "متاسفانه در اجرای درخواست مشکلی پیش آمد.".
Definition failureResult : string := "Sorry, I couldn't do that.".

(** [await aiRef.current!.models.generate...(...)] *)
Definition callModel {A} (reply : Awaited A) : Js A :=
  client <- read (fun w => aiRef (refs w)) ;;
  if client : bool then await reply
  else throw (typeError "aiRef.current is null").

(** The body of the loop over [message.toolCall.functionCalls]. *)
Definition invoke (fc : FunctionCall) (env : CallEnv) : Js unit :=
  tryFinally
    (tryCatch
       (toolResponseResult <-
          (if str_eqb (fc_name fc) "generateContent" then
             addMessageToHistory (contentRequestPrefix ++ fc_prompt fc) USER TEXT
               (now_request env) ;;
             response <- callModel (content_reply env) ;;
             handleProModelResponse response (now_settled env) ;;
             ret "Content generated successfully."
           else if str_eqb (fc_name fc) "generateImage" then
             addMessageToHistory (imageRequestPrefix ++ fc_prompt fc) USER TEXT
               (now_request env) ;;
             response <- callModel (images_reply env) ;;
             handleImageModelResponse response (now_settled env) ;;
             ret "Image generated successfully."
           else ret failureResult) ;;
        sendViaSession (ToolResponse (fc_id fc) (fc_name fc) toolResponseResult))
       (fun e => addMessageToHistory apology MODEL TEXT (now_settled env)))
    (setIsThinking false).

Definition onToolCall : Js unit :=
  update (onDom (fun b => with_toolCallSignals (S (toolCallSignals b)) b)).

(** [if (message.toolCall) { ... }] *)
Definition handleToolCall (calls : list (FunctionCall * CallEnv)) : Js unit :=
  onToolCall ;;
  setIsThinking true ;;
  forEach calls (fun c => invoke (fst c) (snd c)).

(** [Set.prototype.add] and [delete] on the set of live sources, kept in
    insertion order. *)
Definition setAdd (h : Handle) (l : list Handle) : list Handle :=
  if bool_decide (h ∈ l) then l else l ++ [h].
Definition setDelete (h : Handle) (l : list Handle) : list Handle :=
  filter (fun x => x ≠ h) l.

(** The part of [handleMessage] after [await decodeAudioData(...)]. *)
Definition scheduleChunk (audioBuffer : AudioBuffer) (currentTime : double) : Js unit :=
  oc <- read (fun w => outputAudioContextRef (refs w)) ;;
  match oc with
  | None => throw (typeError "outputAudioContextRef.current is null")
  | Some _ =>
      source <- createBufferSource ;;
      sourceSetBuffer source audioBuffer ;;
      og <- read (fun w => outputGainNodeRef (refs w)) ;;
      match og with
      | None => throw (typeError "connect: destination is null")
      | Some gain =>
          sourceConnect source gain ;;
          next <- read (fun w => nextStartTimeRef (refs w)) ;;
          let startTime := dmax next currentTime in
          sourceStart source startTime ;;
          setRef (with_nextStartTimeRef (dadd startTime (duration audioBuffer))) ;;
          setRef (fun r => with_audioSourcesRef (setAdd source (audioSourcesRef r)) r) ;;
          t <- read (fun w => speakingCheckIntervalRef (refs w)) ;;
          whenSome t clearInterval ;;
          t' <- setInterval ;;
          setRef (with_speakingCheckIntervalRef (Some t'))
      end
  end.

(** [source.onended] *)
Definition onended (source : Handle) : Js unit :=
  setRef (fun r => with_audioSourcesRef (setDelete source (audioSourcesRef r)) r).

(** The callback of the 100 ms speaking check. *)
Definition speakingCheck (currentTime : double) : Js unit :=
  oc <- read (fun w => outputAudioContextRef (refs w)) ;;
  next <- read (fun w => nextStartTimeRef (refs w)) ;;
  when (bool_decide (is_Some oc) && dge currentTime (dsub next oneTenth))
    (setIsSpeaking false ;;
     t <- read (fun w => speakingCheckIntervalRef (refs w)) ;;
     whenSome t (fun h =>
       clearInterval h ;;
       setRef (with_speakingCheckIntervalRef None))).

(** An inbound [LiveServerMessage] with what the outer world answers while it
    is handled: each function call comes with its [CallEnv]; [decoded] is the
    result of [decodeAudioData] and [currentTime] the reading of the output
    context's clock when the chunk is scheduled. *)
Record LiveServerMessage := {
  toolCall : option (list (FunctionCall * CallEnv));
  base64Audio : option string;
  decoded : Awaited AudioBuffer;
  currentTime : double
}.

Definition playAudio (m : LiveServerMessage) : Js unit :=
  oc <- read (fun w => outputAudioContextRef (refs w)) ;;
  og <- read (fun w => outputGainNodeRef (refs w)) ;;
  match base64Audio m with
  | Some a =>
      when (truthy a && bool_decide (is_Some oc) && bool_decide (is_Some og))
        (setIsSpeaking true ;;
         audioBuffer <- await (decoded m) ;;
         scheduleChunk audioBuffer (currentTime m))
  | None => ret tt
  end.

Definition handleMessage (m : LiveServerMessage) : Js unit :=
  whenSome (toolCall m) handleToolCall ;;
  playAudio m.

(** What the outer world answers during [startSession]. *)
Record StartEnv := {
  genai_ctor : Awaited unit;
  input_ctor : Awaited AudioContextState;
  output_ctor : Awaited AudioContextState;
  input_resume : Awaited unit;
  output_resume : Awaited unit;
  user_media : Awaited (list TrackState)
}.

Definition connectionLost : AppError := {|
  title := "ارتباط قطع شد";
  message := "ارتباط با سرور هوش مصنوعی به طور ناگهانی قطع شد.";
  steps := [
    "اتصال اینترنت خود را بررسی کنید.";
    "برای ادامه، روی دکمه " ++ dquote ++ "تلاش مجدد" ++ dquote ++ " کلیک کنید."
  ]
|}.

(** [callbacks.onaudioprocess], with the chunk [createBlob] produced *)
Definition onaudioprocess (pcmBlob : string) : Js unit :=
  sendViaSession (RealtimeInput pcmBlob).

Definition onopen : Js unit :=
  isClosed <- read (fun w => isClosedRef (refs w)) ;;
  if isClosed : bool then ret tt
  else
    ic <- read (fun w => inputAudioContextRef (refs w)) ;;
    st <- read (fun w => streamRef (refs w)) ;;
    match ic, st with
    | Some ctx, Some stream =>
        s <- read (contextState ctx) ;;
        if bool_decide (s = closed) then ret tt
        else
          setSessionState CONNECTED ;;
          source <- createMediaStreamSource stream ;;
          processor <- createNode ;;
          setRef (with_scriptProcessorRef (Some processor)) ;;
          connect source processor ;;
          connect processor ctx
    | _, _ => ret tt
    end.

Definition onerror : Js unit :=
  setError (Some connectionLost) ;;
  setSessionState ERROR.

Definition onclose : Js unit :=
  setRef (with_isClosedRef true) ;;
  s <- read (fun w => sessionStateRef (refs w)) ;;
  when (negb (bool_decide (s = ERROR))) (setSessionState IDLE) ;;
  cleanup.

(** The statements of [startSession] that acquire resources (the [try] block). *)
Definition acquire (env : StartEnv) : Js unit :=
  await (genai_ctor env) ;;
  setRef (with_aiRef true) ;;
  ic <- newAudioContext (input_ctor env) ;;
  setRef (with_inputAudioContextRef (Some ic)) ;;
  oc <- newAudioContext (output_ctor env) ;;
  setRef (with_outputAudioContextRef (Some oc)) ;;
  gain <- createNode ;;
  setRef (with_outputGainNodeRef (Some gain)) ;;
  connect gain oc ;;
  si <- read (contextState ic) ;;
  when (bool_decide (si = suspended)) (resumeContext ic (input_resume env)) ;;
  so <- read (contextState oc) ;;
  when (bool_decide (so = suspended)) (resumeContext oc (output_resume env)) ;;
  stream <- getUserMedia (user_media env) ;;
  setRef (with_streamRef (Some stream)) ;;
  p <- connectLive ;;
  setRef (with_sessionPromiseRef (Some p)).

(** The statements of [startSession] between the guard and the [try]. *)
Definition beginAttempt : Js unit :=
  setError None ;;
  setSessionState CONNECTING ;;
  setRef (with_isClosedRef false).

(** [startSession] is made by [useCallback] with [sessionState] among its
    dependencies: its guard tests [seen], the value of [sessionState] in the
    render that made the callback, whatever the setter was handed since. *)
Definition startSession (seen : SessionState) (env : StartEnv) : Js unit :=
  if bool_decide (seen = CONNECTING) || bool_decide (seen = CONNECTED) then ret tt
  else
    beginAttempt ;;
    tryCatch (acquire env)
      (fun e =>
         setError (Some (ErrorClassifier.mapErrorToAppError e)) ;;
         setSessionState ERROR ;;
         cleanup).

(** ** Events: everything that can run between two renders *)

Inductive Event :=
| StartSession (seen : SessionState) (env : StartEnv)
| ClearError
| Render
| Open
| MessageIn (m : LiveServerMessage)
| ErrorIn
| CloseIn
| AudioProcess (pcmBlob : string)
| SessionResolved (p : Handle)
| SessionRejected (p : Handle)
| SpeakingCheck (currentTime : double)
| SourceEnded (source : Handle).

Definition handler (ev : Event) : Js unit :=
  match ev with
  | StartSession seen env => startSession seen env
  | ClearError => clearError
  | Render => syncSessionStateRef
  | Open => onopen
  | MessageIn m => handleMessage m
  | ErrorIn => onerror
  | CloseIn => onclose
  | AudioProcess b => onaudioprocess b
  | SessionResolved p => sessionResolved p
  | SessionRejected p => sessionRejected p
  | SpeakingCheck t => speakingCheck t
  | SourceEnded h => onended h
  end.

(** An event runs to completion; a value thrown out of a callback is lost
    and the world stays as the callback left it. *)
Definition dispatch (w : World) (ev : Event) : World := exec (handler ev) w.

Definition run (evs : list Event) (w : World) : World := foldl dispatch w evs.

Definition reachable (w : World) : Prop := exists evs, w = run evs initial.

(** ** Vocabulary of the statements *)

(** A computation [m] respects a relation [R] between the world before and
    the world after when every run of it, normal or abrupt, is in [R]. *)
Definition respects (R : World -> World -> Prop) {A} (m : Js A) : Prop :=
  forall w, R w (exec m w).

(** A computation that completes normally from every world. *)
Definition neverThrows {A} (m : Js A) : Prop :=
  forall w, exists a, completion m w = Ok a.

(** The frames used below, each a preorder on worlds. *)
Definition sameUi (w w' : World) : Prop := ui w' = ui w.

Definition sameVerdict (w w' : World) : Prop :=
  sessionState (ui w') = sessionState (ui w) /\ error (ui w') = error (ui w).

(** [P] is kept: the relation of a computation that never breaks [P]. *)
Definition inv (P : World -> Prop) (w w' : World) : Prop := P w -> P w'.

(** [P] holds after every run of [m], normal or abrupt. *)
Definition settles (P : World -> Prop) {A} (m : Js A) : Prop :=
  forall w, P (exec m w).

Definition closedMarked (w : World) : Prop := isClosedRef (refs w) = true.
Definition inputGone (w : World) : Prop := inputAudioContextRef (refs w) = None.

(** The open callback has nothing to wire: the channel is marked closed, or
    the input context or the microphone stream is gone, or the input context
    is closed. *)
Definition stale (w : World) : Prop :=
  isClosedRef (refs w) = true \/
  inputAudioContextRef (refs w) = None \/
  streamRef (refs w) = None \/
  (exists h, inputAudioContextRef (refs w) = Some h /\ contextState h w = closed).

(** Every source in the live set exists and was started: what [cleanup]
    relies on when it calls [stop] on each of them. *)
Definition startedIn (m : gmap Handle BufferSource) (h : Handle) : Prop :=
  exists s, m !! h = Some s /\ is_Some (src_startTime s).

Definition started (w : World) (h : Handle) : Prop := startedIn (sources (dom w)) h.

Definition liveStarted (w : World) : Prop :=
  Forall (started w) (audioSourcesRef (refs w)).

(** Handles are handed out in increasing order; the live set only holds
    handles that were handed out. *)
Definition liveBelow (w : World) : Prop :=
  Forall (fun h => (h < nextHandle (dom w))%positive) (audioSourcesRef (refs w)).

Definition wellFormed (w : World) : Prop := liveStarted w /\ liveBelow w.

(** *** The effect of [cleanup], in closed form *)

Definition markStopped (s : BufferSource) : BufferSource :=
  {| src_buffer := src_buffer s; src_startTime := src_startTime s;
     src_stopped := true; src_output := src_output s |}.

Definition stopOne (m : gmap Handle BufferSource) (h : Handle) : gmap Handle BufferSource :=
  match m !! h with
  | Some s => <[h := markStopped s]> m
  | None => m
  end.

Definition stopAll (l : list Handle) (m : gmap Handle BufferSource) : gmap Handle BufferSource :=
  foldl stopOne m l.

Definition releaseHeld (o : option Handle) (ns : gmap Handle (list Handle)) :
    gmap Handle (list Handle) :=
  match o with Some h => <[h := []]> ns | None => ns end.

Definition closeHeld (o : option Handle) (cs : gmap Handle AudioContextState) :
    gmap Handle AudioContextState :=
  match o with
  | Some h =>
      if bool_decide (default closed (cs !! h) = closed) then cs else <[h := closed]> cs
  | None => cs
  end.

Definition stopHeld (o : option Handle) (ss : gmap Handle (list TrackState)) :
    gmap Handle (list TrackState) :=
  match o with Some h => alter (fmap (fun _ => ended)) h ss | None => ss end.

Definition cancelHeld (o : option Handle) (ts : gset Handle) : gset Handle :=
  match o with Some h => ts ∖ {[h]} | None => ts end.

Definition cleaned (w : World) : World :=
  {| ui := with_isSpeaking false (ui w);
     refs :=
       {| sessionPromiseRef := None; streamRef := None;
          inputAudioContextRef := None; outputAudioContextRef := None;
          outputGainNodeRef := None; scriptProcessorRef := None;
          nextStartTimeRef := dzero; audioSourcesRef := [];
          aiRef := aiRef (refs w);
          speakingCheckIntervalRef := None;
          isClosedRef := isClosedRef (refs w);
          sessionStateRef := sessionStateRef (refs w) |};
     dom :=
       {| contexts :=
            closeHeld (outputAudioContextRef (refs w))
              (closeHeld (inputAudioContextRef (refs w)) (contexts (dom w)));
          streams := stopHeld (streamRef (refs w)) (streams (dom w));
          nodes :=
            releaseHeld (outputGainNodeRef (refs w))
              (releaseHeld (scriptProcessorRef (refs w)) (nodes (dom w)));
          sources := stopAll (audioSourcesRef (refs w)) (sources (dom w));
          timers := cancelHeld (speakingCheckIntervalRef (refs w)) (timers (dom w));
          promises := promises (dom w);
          outbox := outbox (dom w);
          playback := playback (dom w);
          toolCallSignals := toolCallSignals (dom w);
          nextHandle := nextHandle (dom w) |} |}.

(** What a completed [cleanup] leaves behind, in terms of the world [w]
    before it and the world [w'] after it. *)
Definition tornDown (w w' : World) : Prop :=
  audioSourcesRef (refs w') = [] /\
  (forall h, h ∈ audioSourcesRef (refs w) ->
     exists s, sources (dom w') !! h = Some s /\ src_stopped s = true) /\
  (forall h, inputAudioContextRef (refs w) = Some h -> contextState h w' = closed) /\
  (forall h, outputAudioContextRef (refs w) = Some h -> contextState h w' = closed) /\
  inputAudioContextRef (refs w') = None /\
  outputAudioContextRef (refs w') = None /\
  (forall h, streamRef (refs w) = Some h ->
     Forall (eq ended) (tracksOf h w') /\
     length (tracksOf h w') = length (tracksOf h w)) /\
  streamRef (refs w') = None /\
  (forall h, speakingCheckIntervalRef (refs w) = Some h -> h ∉ timers (dom w')) /\
  speakingCheckIntervalRef (refs w') = None /\
  (forall h, scriptProcessorRef (refs w) = Some h \/ outputGainNodeRef (refs w) = Some h ->
     outputsOf h w' = []) /\
  scriptProcessorRef (refs w') = None /\
  outputGainNodeRef (refs w') = None /\
  nextStartTimeRef (refs w') = dzero /\
  isSpeaking (ui w') = false /\
  sessionPromiseRef (refs w') = None.

(** *** Playback *)

(** The output context and the gain node are held: an audio payload will be
    scheduled. *)
Definition outputReady (w : World) : Prop :=
  exists ctx gain,
    outputAudioContextRef (refs w) = Some ctx /\ outputGainNodeRef (refs w) = Some gain.

(** [m] carries an audio payload that decodes to [b]. *)
Definition isChunk (m : LiveServerMessage) (b : AudioBuffer) : Prop :=
  (exists a, base64Audio m = Some a /\ truthy a = true) /\ decoded m = Resolved b.

(** The call [e] of [start] is the one made for the chunk [m] with buffer
    [b]: it plays [b] and begins no earlier than the clock read for [m]. *)
Definition scheduledFor (mb : LiveServerMessage * AudioBuffer) (e : Started) : Prop :=
  st_buffer e = Some (snd mb) /\ dle (currentTime (fst mb)) (st_when e) = true.

(** Consecutive calls of [start]: each begins no earlier than the sum, as
    the code computes it, of the previous start time and duration. *)
Definition gapless (l : list Started) : Prop :=
  forall i a b, l !! i = Some a -> l !! S i = Some b ->
    dle (dadd (st_when a) (st_duration a)) (st_when b) = true.

(** The same with the sum of the real numbers: finite start times and
    durations in units of 2^-1074, added without rounding. *)
Definition gaplessExact (l : list Started) : Prop :=
  forall i a b, l !! i = Some a -> l !! S i = Some b ->
    forall s d s', st_when a = Finite s -> st_duration a = Finite d ->
      st_when b = Finite s' -> (s + d <= s')%Z.

Definition cursor (w : World) : double := nextStartTimeRef (refs w).

(** The cursor, a non-negative number, stays one and does not decrease. *)
Definition cursorGrows (w w' : World) : Prop :=
  nonneg (cursor w) -> nonneg (cursor w') /\ dle (cursor w) (cursor w') = true.

(** A chunk whose clock reading and duration are non-negative numbers, as
    [AudioContext.currentTime] and [AudioBuffer.duration] are. *)
Definition wellTimed (m : LiveServerMessage) : Prop :=
  nonneg (currentTime m) /\
  forall b, decoded m = Resolved b -> nonneg (duration b).

Definition timed (ev : Event) : Prop :=
  match ev with
  | MessageIn m => wellTimed m
  | _ => True
  end.

(** Events that may run [cleanup], which resets the cursor. *)
Definition mayCleanup (ev : Event) : bool :=
  match ev with
  | StartSession _ _ | CloseIn => true
  | _ => false
  end.

(** The tool-call half of [handleMessage] leaves the reference cells and the
    playback log alone. *)
Definition sameAudio (w w' : World) : Prop :=
  refs w' = refs w /\ playback (dom w') = playback (dom w).

(** *** Tool calls *)

(** The value of [isThinking] each time the loop over the function calls
    enters its body, from the world [w] in which the loop starts. *)
Fixpoint thinkingAtEntry (calls : list (FunctionCall * CallEnv)) (w : World) : list bool :=
  match calls with
  | [] => []
  | c :: calls' =>
      isThinking (ui w) :: thinkingAtEntry calls' (exec (invoke (fst c) (snd c)) w)
  end.

Definition notThinking (w : World) : Prop := isThinking (ui w) = false.

(** The tool responses among the messages sent. *)
Definition isToolResponse (m : Outbound) : bool :=
  match m with ToolResponse _ _ _ => true | RealtimeInput _ => false end.

Definition toolResponses (w : World) : list Outbound :=
  filter (fun m => isToolResponse m = true) (outbox (dom w)).

(** ** Further vocabulary *)

(** The two declared tool names. *)
Definition knownTool (fc : FunctionCall) : bool :=
  str_eqb (fc_name fc) "generateContent" || str_eqb (fc_name fc) "generateImage".

(** The result text an invocation reports when its [try] block runs to the
    end. *)
Definition resultText (fc : FunctionCall) : string :=
  if str_eqb (fc_name fc) "generateContent" then "Content generated successfully."
  else if str_eqb (fc_name fc) "generateImage" then "Image generated successfully."
  else failureResult.

(** The request entry written for an invocation with a declared name. *)
Definition requestEntry (fc : FunctionCall) (env : CallEnv) : Message :=
  {| msg_id := messageId USER (now_request env); msg_role := USER;
     msg_text := (if str_eqb (fc_name fc) "generateContent"
                  then contentRequestPrefix else imageRequestPrefix) ++ fc_prompt fc;
     msg_type := TEXT |}.

Definition apologyEntry (env : CallEnv) : Message :=
  {| msg_id := messageId MODEL (now_settled env); msg_role := MODEL;
     msg_text := apology; msg_type := TEXT |}.

(** The ways an invocation with a declared name fails: the client object is
    missing, the awaited call rejects, or [generateImages] resolves with no
    image at all. *)
Definition invocationFails (fc : FunctionCall) (env : CallEnv) (w : World) : Prop :=
  (knownTool fc = true /\ aiRef (refs w) = false) \/
  (fc_name fc = "generateContent" /\ exists e, content_reply env = Rejected_with e) \/
  (fc_name fc = "generateImage" /\
   ((exists e, images_reply env = Rejected_with e) \/ images_reply env = Resolved [])).

(** The reply of a declared tool arrives but carries nothing to show:
    [response.text] is [undefined] or empty, or the first image has no
    [imageBytes]. *)
Definition emptyReply (fc : FunctionCall) (env : CallEnv) : Prop :=
  (fc_name fc = "generateContent" /\
   (content_reply env = Resolved None \/ content_reply env = Resolved (Some ""))) \/
  (fc_name fc = "generateImage" /\
   exists rest, images_reply env = Resolved (None :: rest) \/
                images_reply env = Resolved (Some "" :: rest)).

(** The entries of the history written on behalf of the user. *)
Definition requests (w : World) : list Message :=
  filter (fun m => msg_role m = USER) (history (ui w)).

(** The history only grows at its head. *)
Definition historyGrows (w w' : World) : Prop :=
  exists new, history (ui w') = (new ++ history (ui w))%list.

(** The mirror of the session state is left alone. *)
Definition sameMirror (w w' : World) : Prop :=
  sessionStateRef (refs w') = sessionStateRef (refs w).

(** Every running interval timer is the one the hook holds. *)
Definition timersHeld (w : World) : Prop :=
  forall t, t ∈ timers (dom w) -> speakingCheckIntervalRef (refs w) = Some t.

Definition outputGone (w : World) : Prop := outputAudioContextRef (refs w) = None.

(** What the invariants of a reachable world amount to: the live sources
    have been started and every running timer is held. *)
Definition orderly (w : World) : Prop := wellFormed w /\ timersHeld w.

(** The callbacks that hand nothing to a promise: a start (its [try] block
    holds every statement that can fail, [live.connect] returns the promise
    without waiting for it), the error and close callbacks of the channel,
    the speaking check, [onended], the render effect and [clearError]. *)
Definition selfContained (ev : Event) : bool :=
  match ev with
  | StartSession _ _ | ClearError | Render | ErrorIn | CloseIn
  | SpeakingCheck _ | SourceEnded _ => true
  | _ => false
  end.

(** Everything a session attempt needs is held in [w]: the client, two
    distinct audio contexts, neither suspended, the gain node connected to
    the output context, the microphone stream with the given tracks, and the
    pending promise of the channel. *)
Definition sessionHeld (tracks : list TrackState) (w : World) : Prop :=
  exists ic oc gain stream p,
    aiRef (refs w) = true /\
    inputAudioContextRef (refs w) = Some ic /\
    outputAudioContextRef (refs w) = Some oc /\
    outputGainNodeRef (refs w) = Some gain /\
    streamRef (refs w) = Some stream /\
    sessionPromiseRef (refs w) = Some p /\
    ic <> oc /\
    contextState ic w <> suspended /\ contextState oc w <> suspended /\
    outputsOf gain w = [oc] /\
    tracksOf stream w = tracks /\
    promises (dom w) !! p = Some (Pending []).

(** The history is left alone. *)
Definition sameHistory (w w' : World) : Prop := history (ui w') = history (ui w).

(** Events that bring function calls: messages with a [toolCall]. *)
Definition carriesToolCall (ev : Event) : bool :=
  match ev with
  | MessageIn m => match toolCall m with Some _ => true | None => false end
  | _ => false
  end.

(** The playback log and the cursor are left alone. *)
Definition samePlayback (w w' : World) : Prop :=
  playback (dom w') = playback (dom w) /\ cursor w' = cursor w.

(** ** The first version of the hook ([hooks/useGeminiLive.ts])

    The first version has the same cells as the current one, fewer of them,
    and shows an error as a plain text.  It is embedded over the same world:
    its code runs in [Js], lifted to a state that adds the cell of the error
    text.  The cells the first version does not have (the gain node, the
    speaking flag and its timer, the closed mark, the mirror of the state,
    the structured error) are never read or written by it. *)
Module Legacy.

Record LegacyWorld := {
  hook : World;
  errorText : option string
}.

Definition initialLegacy : LegacyWorld := {| hook := initial; errorText := None |}.

Definition LJs (A : Type) : Type := LegacyWorld -> Result A * LegacyWorld.

Definition lift {A} (m : Js A) : LJs A :=
  fun lw =>
    match m (hook lw) with
    | (r, w') => (r, {| hook := w'; errorText := errorText lw |})
    end.

Definition andThen {A B} (m : LJs A) (k : A -> LJs B) : LJs B :=
  fun lw =>
    match m lw with
    | (Ok a, lw') => k a lw'
    | (Throw e, lw') => (Throw e, lw')
    end.

Definition catching {A} (body : LJs A) (handler : Thrown -> LJs A) : LJs A :=
  fun lw =>
    match body lw with
    | (Ok a, lw') => (Ok a, lw')
    | (Throw e, lw') => handler e lw'
    end.

Definition after {A} (m : LJs A) (lw : LegacyWorld) : LegacyWorld := snd (m lw).
Definition outcome {A} (m : LJs A) (lw : LegacyWorld) : Result A := fst (m lw).

Definition setError (text : string) : LJs unit :=
  fun lw => (Ok tt, {| hook := hook lw; errorText := Some text |}).

Definition microphoneText : string := "میکروفون پیدا نشد. لطفا دسترسی بدهید.".
Definition connectionText : string := "خطا در اتصال. دوباره تلاش کنید.".

(** [cleanup]: the nodes, contexts and tracks are released, the references
    to them are kept. *)
Definition cleanup : Js unit :=
  sp <- read (fun w => scriptProcessorRef (refs w)) ;;
  whenSome sp disconnect ;;
  ic <- read (fun w => inputAudioContextRef (refs w)) ;;
  whenSome ic closeContext ;;
  oc <- read (fun w => outputAudioContextRef (refs w)) ;;
  whenSome oc closeContext ;;
  st <- read (fun w => streamRef (refs w)) ;;
  whenSome st stopTracks ;;
  live_sources <- read (fun w => audioSourcesRef (refs w)) ;;
  forEach live_sources sourceStop ;;
  setRef (with_audioSourcesRef []) ;;
  setRef (with_nextStartTimeRef dzero).

(** The [try] block of [startSession]. *)
Definition acquire (env : StartEnv) : Js unit :=
  await (genai_ctor env) ;;
  setRef (with_aiRef true) ;;
  stream <- getUserMedia (user_media env) ;;
  setRef (with_streamRef (Some stream)) ;;
  ic <- newAudioContext (input_ctor env) ;;
  setRef (with_inputAudioContextRef (Some ic)) ;;
  oc <- newAudioContext (output_ctor env) ;;
  setRef (with_outputAudioContextRef (Some oc)) ;;
  si <- read (contextState ic) ;;
  when (bool_decide (si = suspended)) (resumeContext ic (input_resume env)) ;;
  so <- read (contextState oc) ;;
  when (bool_decide (so = suspended)) (resumeContext oc (output_resume env)) ;;
  p <- connectLive ;;
  setRef (with_sessionPromiseRef (Some p)).

Declare Scope legacy_scope.
Notation "x <- m ;; k" := (andThen m (fun x => k))
  (at level 100, m at next level, right associativity) : legacy_scope.
Notation "m ;; k" := (andThen m (fun _ => k))
  (at level 100, right associativity) : legacy_scope.
Local Open Scope legacy_scope.

(** As in the current version, the guard tests [seen], the state captured
    by the render that made the callback. *)
Definition startSession (seen : SessionState) (env : StartEnv) : LJs unit :=
  if bool_decide (seen <> IDLE) then lift (ret tt)
  else
    lift (setSessionState CONNECTING) ;;
    catching (lift (acquire env))
      (fun _ =>
         setError microphoneText ;;
         lift (setSessionState ERROR)).

Definition onerror : LJs unit :=
  setError connectionText ;;
  lift (setSessionState ERROR) ;;
  lift cleanup.

Definition onclose : LJs unit :=
  lift (setSessionState IDLE) ;;
  lift cleanup.

(** The effect of [cleanup] in closed form. *)
Definition closeNow (o : option Handle) (cs : gmap Handle AudioContextState) :
    gmap Handle AudioContextState :=
  match o with Some h => <[h := closed]> cs | None => cs end.

Definition cleaned (w : World) : World :=
  {| ui := ui w;
     refs := with_nextStartTimeRef dzero (with_audioSourcesRef [] (refs w));
     dom :=
       {| contexts :=
            closeNow (outputAudioContextRef (refs w))
              (closeNow (inputAudioContextRef (refs w)) (contexts (dom w)));
          streams := stopHeld (streamRef (refs w)) (streams (dom w));
          nodes := releaseHeld (scriptProcessorRef (refs w)) (nodes (dom w));
          sources := stopAll (audioSourcesRef (refs w)) (sources (dom w));
          timers := timers (dom w);
          promises := promises (dom w);
          outbox := outbox (dom w);
          playback := playback (dom w);
          toolCallSignals := toolCallSignals (dom w);
          nextHandle := nextHandle (dom w) |} |}.

(** An error of the channel directly followed by its close. *)
Definition errorThenClose : LJs unit :=
  onerror ;;
  onclose.

End Legacy.

(** ** The application around the hook *)

(** A render of [App] is committed.  The effect of the hook copies the
    state into the mirror; then the effect of [App] calls [startSession]:
    it depends on [startSession], which is a new function at every render,
    since [handleMessage] depends on [onToolCall] and [App] passes a new
    [onToolCall] each time.  The function called is the one this render
    made: it captured the state this render shows. *)
Definition appCommit (env : StartEnv) (w : World) : list Event :=
  [Render; StartSession (sessionState (ui w)) env].

(** [n] renders committed in a row, each finding the outer world [env]. *)
Fixpoint afterCommits (n : nat) (env : StartEnv) (w : World) : World :=
  match n with
  | O => w
  | S n' => afterCommits n' env (run (appCommit env w) w)
  end.

(** ** Concrete inputs used by the examples and counterexamples below *)

(** A browser in which everything succeeds: the contexts start suspended (no
    user gesture yet) and one microphone track is granted. *)
Definition okEnv : StartEnv := {|
  genai_ctor := Resolved tt;
  input_ctor := Resolved suspended;
  output_ctor := Resolved suspended;
  input_resume := Resolved tt;
  output_resume := Resolved tt;
  user_media := Resolved [live]
|}.

(** The promise returned by [live.connect] in the first attempt of a run that
    starts from [initial] under [okEnv]. *)
Definition firstPromise : Handle := 5%positive.

(** A session attempt under way: resources held, channel not yet open. *)
Definition connecting : World := run [StartSession IDLE okEnv; Render] initial.

(** The channel opened and capture is wired, but the promise of
    [live.connect] has not resolved yet. *)
Definition opened : World := run [Open; Render] connecting.

(** An established session. *)
Definition connected : World := run [SessionResolved firstPromise] opened.

(** A missing-device fault whose message also mentions the network. *)
Definition deviceFault : Thrown :=
  ErrorObj "NotFoundError" "Requested device not found (network audio interface)".

(** The doubles [0.05] (0x1.999999999999ap-5) and [0.5]. *)
Definition oneTwentieth : double := dyadic 7205759403792794 (-57).
Definition oneHalf : double := dyadic 1 (-1).

(** A tenth of a second of decoded audio (2400 frames at 24 kHz), arriving
    when the output clock reads [t]. *)
Definition tenth : AudioBuffer := {| duration := oneTenth |}.

Definition chunkAt (t : double) : LiveServerMessage :=
  {| toolCall := None; base64Audio := Some "UklGRg==";
     decoded := Resolved tenth; currentTime := t |}.

(** Three chunks are playing in an established session. *)
Definition playing : World :=
  run [MessageIn (chunkAt dzero); MessageIn (chunkAt oneTwentieth); MessageIn (chunkAt oneHalf)]
      connected.

(** A burst of five chunks of a tenth of a second, all handled while the
    clock reads 0. *)
Definition burst : list LiveServerMessage := repeat (chunkAt dzero) 5.

(** The same world as one run from the initial one. *)
Definition playingRun : list Event :=
  [StartSession IDLE okEnv; Render; Open; Render; SessionResolved firstPromise;
   MessageIn (chunkAt dzero); MessageIn (chunkAt oneTwentieth); MessageIn (chunkAt oneHalf)].

(** The remote operation behind [generateContent] fails (service
    unavailable); the one behind [generateImage] would return one image. *)
Definition failingEnv : CallEnv := {|
  now_request := 1700000000000;
  content_reply := Rejected_with (ErrorObj "ServerError" "503 Service Unavailable");
  images_reply := Resolved [Some "aGVsbG8="];
  now_settled := 1700000000250
|}.

(** Both remote operations answer. *)
Definition answeringEnv : CallEnv := {|
  now_request := 1700000001000;
  content_reply := Resolved (Some "42");
  images_reply := Resolved [Some "aGVsbG8="];
  now_settled := 1700000001900
|}.

Definition contentCall (id : string) : FunctionCall :=
  {| fc_id := id; fc_name := "generateContent"; fc_prompt := "why is the sky blue" |}.
Definition imageCall (id : string) : FunctionCall :=
  {| fc_id := id; fc_name := "generateImage"; fc_prompt := "a cat" |}.
Definition unknownCall (id : string) : FunctionCall :=
  {| fc_id := id; fc_name := "openPodBayDoors"; fc_prompt := "" |}.

(** A tool-call event without audio. *)
Definition toolCallEvent (calls : list (FunctionCall * CallEnv)) : LiveServerMessage :=
  {| toolCall := Some calls; base64Audio := None;
     decoded := Resolved tenth; currentTime := dzero |}.

(** ** Further concrete inputs *)

(** The image service answers, with an empty list of images. *)
Definition noImageEnv : CallEnv := {|
  now_request := 1700000002000;
  content_reply := Resolved (Some "unused");
  images_reply := Resolved [];
  now_settled := 1700000002400
|}.

(** The content service answers with no text. *)
Definition silentEnv : CallEnv := {|
  now_request := 1700000003000;
  content_reply := Resolved None;
  images_reply := Resolved [None];
  now_settled := 1700000003100
|}.

(** The microphone is missing: [getUserMedia] rejects. *)
Definition noMicrophone : StartEnv := {|
  genai_ctor := Resolved tt;
  input_ctor := Resolved running;
  output_ctor := Resolved suspended;
  input_resume := Resolved tt;
  output_resume := Resolved tt;
  user_media := Rejected_with deviceFault
|}.

(** The run that leads to [connected], spelled out from the initial world. *)
Definition connectedRun : list Event :=
  [StartSession IDLE okEnv; Render; Open; Render; SessionResolved firstPromise].

(** An audio payload that [decodeAudioData] rejects. *)
Definition badChunk : LiveServerMessage :=
  {| toolCall := None; base64Audio := Some "UklGRg==";
     decoded := Rejected_with (ErrorObj "EncodingError" "Unable to decode audio data");
     currentTime := dzero |}.

(** Three chunks with other events between them. *)
Definition interleaved : list Event :=
  [MessageIn (chunkAt dzero); SpeakingCheck oneTwentieth; AudioProcess "AAAA";
   MessageIn (chunkAt oneTwentieth); ErrorIn; MessageIn (chunkAt oneHalf)].

(** The microphone is granted, but the input context cannot be created. *)
Definition noContext : StartEnv := {|
  genai_ctor := Resolved tt;
  input_ctor := Rejected_with (ErrorObj "NotSupportedError" "sample rate not supported");
  output_ctor := Resolved suspended;
  input_resume := Resolved tt;
  output_resume := Resolved tt;
  user_media := Resolved [live]
|}.

(** The first version of the hook after a successful start. *)
Definition legacyLive : Legacy.LegacyWorld :=
  Legacy.after (Legacy.startSession IDLE okEnv) Legacy.initialLegacy.

(** The client cannot be constructed: no API key. *)
Definition noApiKey : StartEnv := {|
  genai_ctor := Rejected_with (ErrorObj "Error" "An API Key must be set when running in a browser");
  input_ctor := Resolved suspended;
  output_ctor := Resolved suspended;
  input_resume := Resolved tt;
  output_resume := Resolved tt;
  user_media := Resolved [live]
|}.

(** * Properties *)

(** ** Error classification *)

Module ErrorClassifierProps.
Import ErrorClassifier.

Example classify_permission :
  mapErrorToAppError (ErrorObj "NotAllowedError" "Permission denied") = permissionError.
Proof. reflexivity. Qed.

Example classify_connection :
  mapErrorToAppError (ErrorObj "Error" "Failed to fetch: Network error") = connectionError.
Proof. reflexivity. Qed.

Example classify_device :
  mapErrorToAppError (ErrorObj "NotFoundError" "Requested device not found") = deviceError.
Proof. reflexivity. Qed.

Example classify_unknown :
  mapErrorToAppError (ErrorObj "Error" "boom") = unknownError "boom".
Proof. reflexivity. Qed.

Lemma titles_distinct :
  NoDup [title permissionError; title connectionError; title deviceError; unknownTitle].
Proof. apply (bool_decide_unpack _). vm_compute. exact I. Qed.

(** C5, as the code has it.  [mapErrorToAppError] sends every fault to exactly
    one of four errors with pairwise distinct titles.  For an [Error] object
    the precedence is: permission signature first, then the
    network/auth/protocol-rejection signature, then the missing-device
    signature, then unknown.  The permission error carries three remediation
    steps; an unrecognized [Error] keeps its own message under the generic
    title with no steps; a thrown value that is not an [Error] gets the
    generic title, the generic message and no steps. *)
Theorem mapErrorToAppError_precedence :
  (forall name msg,
     (permissionSignature name msg = true ->
      mapErrorToAppError (ErrorObj name msg) = permissionError) /\
     (permissionSignature name msg = false ->
      connectionSignature msg = true ->
      mapErrorToAppError (ErrorObj name msg) = connectionError) /\
     (permissionSignature name msg = false ->
      connectionSignature msg = false ->
      deviceSignature name msg = true ->
      mapErrorToAppError (ErrorObj name msg) = deviceError) /\
     (permissionSignature name msg = false ->
      connectionSignature msg = false ->
      deviceSignature name msg = false ->
      mapErrorToAppError (ErrorObj name msg) = unknownError msg)) /\
  (forall v, mapErrorToAppError (NonError v) = unknownError unknownMessage) /\
  length (steps permissionError) = 3 /\
  (forall m, title (unknownError m) = unknownTitle /\
             message (unknownError m) = m /\
             steps (unknownError m) = []) /\
  NoDup [title permissionError; title connectionError; title deviceError; unknownTitle].
Proof.
  split; [|split; [|split; [|split]]].
  - intros name msg. unfold mapErrorToAppError.
    repeat split; intros; repeat match goal with H : _ = _ |- _ => rewrite H end;
      reflexivity.
  - reflexivity.
  - reflexivity.
  - intros m. repeat split.
  - exact titles_distinct.
Qed.

(** A missing-device fault with no other signature reaches the third test. *)
Lemma mapErrorToAppError_precedence_witness :
  mapErrorToAppError (ErrorObj "NotFoundError" "Requested device not found") = deviceError.
Proof.
  refine (proj1 (proj2 (proj2 (proj1 mapErrorToAppError_precedence
            "NotFoundError" "Requested device not found"))) _ _ _);
    vm_compute; reflexivity.
Defined.

(** C5, as the specification words it, fails: a fault that carries the
    missing-device signature and no permission signature is classified as a
    server connection error as soon as its message also matches a connection
    signature. *)
Lemma device_fault_is_connection_error :
  permissionSignature "NotFoundError" "Requested device not found (network audio interface)" = false /\
  deviceSignature "NotFoundError" "Requested device not found (network audio interface)" = true /\
  mapErrorToAppError deviceFault = connectionError /\
  mapErrorToAppError deviceFault <> deviceError.
Proof.
  repeat split; try reflexivity.
  vm_compute. discriminate.
Qed.

End ErrorClassifierProps.

(** ** The monad *)

Lemma bind_Ok {A B} (m : Js A) (k : A -> Js B) w a w' :
  m w = (Ok a, w') -> bind m k w = k a w'.
Proof. intros H. unfold bind. now rewrite H. Qed.

Lemma bind_Throw {A B} (m : Js A) (k : A -> Js B) w e w' :
  m w = (Throw e, w') -> bind m k w = (Throw e, w').
Proof. intros H. unfold bind. now rewrite H. Qed.

Lemma exec_bind_Ok {A B} (m : Js A) (k : A -> Js B) w a :
  completion m w = Ok a -> exec (bind m k) w = exec (k a) (exec m w).
Proof.
  unfold completion, exec, bind. destruct (m w) as [[a'|e] w']; cbn; congruence.
Qed.

Section Respects.
Context (R : World -> World -> Prop) `{!PreOrder R}.

Lemma respects_ret {A} (a : A) : respects R (ret a).
Proof. intros w. apply reflexivity. Qed.

Lemma respects_throw {A} e : respects R (@throw A e).
Proof. intros w. apply reflexivity. Qed.

Lemma respects_read {A} (f : World -> A) : respects R (read f).
Proof. intros w. apply reflexivity. Qed.

Lemma respects_await {A} (r : Awaited A) : respects R (await r).
Proof. destruct r; [apply respects_ret | apply respects_throw]. Qed.

Lemma respects_update f : (forall w, R w (f w)) -> respects R (update f).
Proof. intros H w. apply H. Qed.

Lemma respects_bind {A B} (m : Js A) (k : A -> Js B) :
  respects R m -> (forall a, respects R (k a)) -> respects R (bind m k).
Proof.
  intros Hm Hk w. specialize (Hm w). unfold exec, bind in *.
  destruct (m w) as [[a|e] w']; cbn in *; [|exact Hm].
  etransitivity; [exact Hm | apply Hk].
Qed.

Lemma respects_tryCatch {A} (m : Js A) (h : Thrown -> Js A) :
  respects R m -> (forall e, respects R (h e)) -> respects R (tryCatch m h).
Proof.
  intros Hm Hh w. specialize (Hm w). unfold exec, tryCatch in *.
  destruct (m w) as [[a|e] w']; cbn in *; [exact Hm|].
  etransitivity; [exact Hm | apply Hh].
Qed.

Lemma respects_tryFinally {A} (m : Js A) (f : Js unit) :
  respects R m -> respects R f -> respects R (tryFinally m f).
Proof.
  intros Hm Hf w. specialize (Hm w). unfold exec, tryFinally in *.
  destruct (m w) as [r w']; cbn in *.
  specialize (Hf w'). unfold exec in Hf.
  destruct (f w') as [[[]|e] w'']; cbn in *;
    (etransitivity; [exact Hm | exact Hf]).
Qed.

Lemma respects_whenSome {A} (o : option A) (f : A -> Js unit) :
  (forall a, respects R (f a)) -> respects R (whenSome o f).
Proof. intros H. destruct o; [apply H | apply respects_ret]. Qed.

Lemma respects_when (b : bool) (m : Js unit) :
  respects R m -> respects R (when b m).
Proof. intros H. destruct b; [exact H | apply respects_ret]. Qed.

Lemma respects_forEach {A} (l : list A) (f : A -> Js unit) :
  (forall a, respects R (f a)) -> respects R (forEach l f).
Proof.
  intros H. induction l as [|x l IH]; cbn [forEach].
  - apply respects_ret.
  - apply respects_bind; [apply H | intros _; exact IH].
Qed.

End Respects.

(** Decomposes a [respects] goal along the structure of the program; what is
    left are the primitive updates. *)
Ltac respects_split :=
  repeat first
    [ apply respects_ret; solve [typeclasses eauto]
    | apply respects_throw; solve [typeclasses eauto]
    | apply respects_read; solve [typeclasses eauto]
    | apply respects_await; solve [typeclasses eauto]
    | apply respects_bind; [typeclasses eauto | | intros ?]
    | apply respects_tryCatch; [typeclasses eauto | | intros ?]
    | apply respects_tryFinally; [typeclasses eauto | | ]
    | apply respects_whenSome; [typeclasses eauto | intros ?]
    | apply respects_when; [typeclasses eauto | ]
    | apply respects_forEach; [typeclasses eauto | intros ?]
    | match goal with
      | |- respects _ (match ?x with _ => _ end) => destruct x
      end ].

#[global] Instance sameUi_preorder : PreOrder sameUi.
Proof. split; unfold sameUi; [intros w; reflexivity | intros a b c; congruence]. Qed.

#[global] Instance sameVerdict_preorder : PreOrder sameVerdict.
Proof.
  split; unfold sameVerdict; [intros w; split; reflexivity|].
  intros a b c [] []; split; congruence.
Qed.

#[global] Instance inv_preorder P : PreOrder (inv P).
Proof. split; unfold inv; [intros w; exact id | intros a b c; auto]. Qed.

(** *** Computations that never throw *)

Lemma neverThrows_ret {A} (a : A) : neverThrows (ret a).
Proof. intros w. now exists a. Qed.

Lemma neverThrows_read {A} (f : World -> A) : neverThrows (read f).
Proof. intros w. now exists (f w). Qed.

Lemma neverThrows_update f : neverThrows (update f).
Proof. intros w. now exists tt. Qed.

Lemma neverThrows_bind {A B} (m : Js A) (k : A -> Js B) :
  neverThrows m -> (forall a, neverThrows (k a)) -> neverThrows (bind m k).
Proof.
  intros Hm Hk w. destruct (Hm w) as [a Ha]. unfold completion, bind in *.
  destruct (m w) as [[a'|e] w']; cbn in Ha; [|discriminate].
  apply Hk.
Qed.

Lemma neverThrows_whenSome {A} (o : option A) (f : A -> Js unit) :
  (forall a, neverThrows (f a)) -> neverThrows (whenSome o f).
Proof. intros H. destruct o; [apply H | apply neverThrows_ret]. Qed.

Lemma neverThrows_when (b : bool) (m : Js unit) :
  neverThrows m -> neverThrows (when b m).
Proof. intros H. destruct b; [exact H | apply neverThrows_ret]. Qed.

Lemma neverThrows_alloc : neverThrows alloc.
Proof. intros w. now eexists. Qed.

(** *** Establishing a property part-way through a sequence *)

Lemma settles_update P f : (forall w, P (f w)) -> settles P (update f).
Proof. intros H w. apply H. Qed.

Lemma settles_here {A B} P (m : Js A) (k : A -> Js B) :
  settles P m -> (forall a, respects (inv P) (k a)) -> settles P (bind m k).
Proof.
  intros Hm Hk w. specialize (Hm w). unfold exec, bind in *.
  destruct (m w) as [[a|e] w']; cbn in *; [|exact Hm].
  now apply Hk.
Qed.

Lemma settles_later {A B} P (m : Js A) (k : A -> Js B) :
  neverThrows m -> (forall a, settles P (k a)) -> settles P (bind m k).
Proof.
  intros Hm Hk w. destruct (Hm w) as [a Ha]. unfold completion, exec, bind in *.
  destruct (m w) as [[a'|e] w']; cbn in Ha; [|discriminate].
  apply Hk.
Qed.

Create HintDb js discriminated.
#[global] Hint Unfold
  setSessionState setError setIsThinking setIsSpeaking setHistory setRef
  setContextState newAudioContext closeContext resumeContext
  setOutputs createNode connect disconnect
  getUserMedia stopTracks createMediaStreamSource
  setSource createBufferSource withSource sourceSetBuffer sourceConnect
  sourceStart sourceStop setInterval clearInterval
  send setPromise connectLive promiseThen sendViaSession
  sessionResolved sessionRejected
  clearError syncSessionStateRef cleanup addMessageToHistory
  handleProModelResponse handleImageModelResponse callModel invoke
  onToolCall handleToolCall scheduleChunk onended speakingCheck playAudio
  handleMessage onaudioprocess onopen onerror onclose acquire beginAttempt
  startSession handler : js.

(** Splits a [respects] goal down to its primitive updates and closes each
    with [leaf]. *)
Ltac respects_with leaf :=
  repeat first
    [ progress respects_split
    | progress autounfold with js
    | apply respects_update; intros ?; solve [leaf]
    | match goal with
      | |- respects _ alloc => intros ?; unfold exec, alloc; cbn; solve [leaf]
      | |- respects _ (if ?b then _ else _) => destruct b
      | |- respects _ (let _ := _ in _) => cbv zeta
      end ].

Ltac frame_leaf :=
  first [ reflexivity | split; reflexivity | intros ?; assumption
        | cbn; first [ reflexivity | split; reflexivity | intros ?; assumption ] ].

(** *** What [cleanup] leaves alone *)

Lemma cleanup_sameVerdict : respects sameVerdict cleanup.
Proof. respects_with frame_leaf. Qed.

Lemma cleanup_keeps_closedMarked : respects (inv closedMarked) cleanup.
Proof. respects_with frame_leaf. Qed.

Ltac neverThrows_go :=
  repeat first
    [ apply neverThrows_ret | apply neverThrows_read | apply neverThrows_update
    | apply neverThrows_alloc
    | apply neverThrows_bind; [ | intros ?]
    | apply neverThrows_whenSome; intros ?
    | apply neverThrows_when
    | progress autounfold with js
    | match goal with
      | |- neverThrows (if ?b then _ else _) => destruct b
      end ].

(** Whatever happens later in [cleanup], the reference to the input context
    has been dropped by then. *)
Lemma cleanup_settles_inputGone : settles inputGone cleanup.
Proof.
  unfold cleanup.
  do 5 (apply settles_later; [solve [neverThrows_go] | intros ?]).
  apply settles_later; [solve [neverThrows_go] | intros _].
  apply settles_here.
  - apply settles_update. reflexivity.
  - intros _. respects_with frame_leaf.
Qed.

Lemma acquire_sameUi env : respects sameUi (acquire env).
Proof. respects_with frame_leaf. Qed.

(** ** History entries *)

Lemma addMessageToHistory_history text role type now w :
  history (ui (exec (addMessageToHistory text role type now) w)) =
  {| msg_id := Role_tag role ++ "-" ++ pretty now; msg_role := role;
     msg_text := text; msg_type := type |} :: history (ui w).
Proof. reflexivity. Qed.

(** C10.  The id of a history entry is the role tag, a hyphen and the
    millisecond clock; two entries of the same role appended at the same
    clock value get the same id, whatever their texts. *)
Theorem history_ids_collide : forall role now text1 type1 text2 type2 w,
  exists m1 m2,
    history (ui (exec (addMessageToHistory text1 role type1 now ;;
                       addMessageToHistory text2 role type2 now) w)) =
      m2 :: m1 :: history (ui w) /\
    msg_text m1 = text1 /\ msg_text m2 = text2 /\
    msg_id m1 = Role_tag role ++ "-" ++ pretty now /\
    msg_id m2 = msg_id m1.
Proof.
  intros. eexists _, _. repeat split.
Qed.

(** Two requests of one tool-call event, written within the same
    millisecond, share the id ["user-1700000000000"]. *)
Example history_ids_collide_in_a_batch :
  let env := {| now_request := 1700000000000; content_reply := Resolved None;
                images_reply := Resolved []; now_settled := 1700000000000 |} in
  let call i := ({| fc_id := i; fc_name := "generateContent"; fc_prompt := "x" |}, env) in
  map msg_id (history (ui (exec (handleToolCall [call "1"; call "2"]) connected))) =
  ["user-1700000000000"; "user-1700000000000"].
Proof. vm_compute. reflexivity. Qed.

(** ** Starting a session *)

Lemma beginAttempt_effect w :
  beginAttempt w =
  (Ok tt, onRefs (with_isClosedRef false)
            (onUi (with_sessionState CONNECTING) (onUi (with_error None) w))).
Proof. reflexivity. Qed.

(** What the guard does, in terms of the state [seen] that the callback
    captured.  Under the guard ([CONNECTING] or [CONNECTED]) [startSession]
    returns at once and the world is unchanged: no context, stream, node or
    promise is created and no state is set.  Otherwise, whatever the state
    is by now, the held error is cleared and the state becomes [CONNECTING]
    before anything is acquired; the attempt then ends in [CONNECTING] with
    no error when the acquisition succeeds, and in [ERROR] with the
    classified fault when it throws. *)
Lemma startSession_tests_captured_state : forall seen env w,
  (seen = CONNECTING \/ seen = CONNECTED ->
   startSession seen env w = (Ok tt, w)) /\
  (seen = IDLE \/ seen = ERROR ->
   startSession seen env w =
     tryCatch (acquire env)
       (fun e => setError (Some (ErrorClassifier.mapErrorToAppError e)) ;;
                 setSessionState ERROR ;; cleanup)
       (exec beginAttempt w) /\
   error (ui (exec beginAttempt w)) = None /\
   sessionState (ui (exec beginAttempt w)) = CONNECTING /\
   dom (exec beginAttempt w) = dom w /\
   (completion (acquire env) (exec beginAttempt w) = Ok tt ->
    sessionState (ui (exec (startSession seen env) w)) = CONNECTING /\
    error (ui (exec (startSession seen env) w)) = None) /\
   (forall e, completion (acquire env) (exec beginAttempt w) = Throw e ->
    sessionState (ui (exec (startSession seen env) w)) = ERROR /\
    error (ui (exec (startSession seen env) w)) =
      Some (ErrorClassifier.mapErrorToAppError e))).
Proof.
  intros seen env w. split.
  - intros H. unfold startSession.
    destruct H as [-> | ->]; reflexivity.
  - intros H.
    assert (Hstart : startSession seen env w =
      tryCatch (acquire env)
        (fun e => setError (Some (ErrorClassifier.mapErrorToAppError e)) ;;
                  setSessionState ERROR ;; cleanup) (exec beginAttempt w)).
    { unfold startSession. destruct H as [-> | ->]; reflexivity. }
    split; [exact Hstart|].
    do 3 (split; [reflexivity|]).
    pose proof (acquire_sameUi env (exec beginAttempt w)) as Hui.
    unfold sameUi in Hui.
    change (exec (startSession seen env) w) with (snd (startSession seen env w)).
    rewrite Hstart. unfold tryCatch, completion.
    change (exec (acquire env) (exec beginAttempt w))
      with (snd (acquire env (exec beginAttempt w))) in Hui.
    destruct (acquire env (exec beginAttempt w)) as [[[]|e'] w']; cbn in Hui.
    + split; [intros _ | intros e He; discriminate].
      cbn. now rewrite Hui.
    + split; [intros He; discriminate | intros e He].
      injection He as ->.
      apply (cleanup_sameVerdict
               (onUi (with_sessionState ERROR)
                  (onUi (with_error (Some (ErrorClassifier.mapErrorToAppError e))) w'))).
Qed.

(** A call through the callback of a render that shows the attempt in
    flight changes nothing. *)
Example startSession_refused_in_flight :
  startSession CONNECTING okEnv connecting = (Ok tt, connecting).
Proof.
  apply (proj1 (startSession_tests_captured_state CONNECTING okEnv connecting)).
  left. reflexivity.
Qed.

(** C4.  The guard tests the state the callback captured, not the state of
    the session.  The callback of the first render (state [IDLE]) called
    twice, with no render between the calls: the first call sets the state
    to [CONNECTING] and acquires two audio contexts, the microphone and the
    promise of the channel; the second call finds the state [CONNECTING]
    and is not turned away: it acquires two more contexts, a second stream
    and a second promise, while the first ones stay open and unreferenced.
    The callback of a render that shows [CONNECTING] is turned away in the
    same world. *)
Theorem start_through_a_stale_callback_is_not_refused :
  let first := dispatch initial (StartSession IDLE okEnv) in
  let second := dispatch first (StartSession IDLE okEnv) in
  sessionState (ui first) = CONNECTING /\
  (size (contexts (dom first)) = 2 /\ size (streams (dom first)) = 1 /\
   size (promises (dom first)) = 1) /\
  (size (contexts (dom second)) = 4 /\ size (streams (dom second)) = 2 /\
   size (promises (dom second)) = 2) /\
  map snd (map_to_list (contexts (dom second))) = [running; running; running; running] /\
  map snd (map_to_list (promises (dom second))) = [Pending []; Pending []] /\
  sessionPromiseRef (refs first) = Some firstPromise /\
  sessionPromiseRef (refs second) <> Some firstPromise /\
  sessionState (ui second) = CONNECTING /\
  dispatch first (StartSession CONNECTING okEnv) = first.
Proof. vm_compute. repeat split; intros [=]. Qed.

(** A callback kept by a timer, as [handleRetry] of [App.tsx] keeps the
    [startSession] of the render in which the button was pressed for 100 ms.
    A first start failed for want of a microphone and the render shows
    [ERROR]; the error is cleared, and the callback of the next render
    begins an attempt.  When the kept callback is called, it still sees
    [ERROR] and begins a second attempt beside the first. *)
Example retry_timer_starts_a_second_attempt :
  let failed := run [StartSession IDLE noMicrophone; Render] initial in
  let retried := run [ClearError; Render; StartSession ERROR okEnv] failed in
  let fired := dispatch retried (StartSession ERROR okEnv) in
  sessionState (ui failed) = ERROR /\
  sessionState (ui retried) = CONNECTING /\
  size (promises (dom retried)) = 1 /\
  size (promises (dom fired)) = 2 /\
  size (streams (dom retried)) = 1 /\
  size (streams (dom fired)) = 2.
Proof. vm_compute. repeat split. Qed.

(** A start from [IDLE] acquires two contexts, a gain node, the microphone
    and the promise of the channel; a microphone refusal ends in [ERROR]. *)
Example startSession_acquires :
  sessionState (ui (exec (startSession IDLE okEnv) initial)) = CONNECTING /\
  sessionPromiseRef (refs (exec (startSession IDLE okEnv) initial)) = Some firstPromise /\
  promises (dom (exec (startSession IDLE okEnv) initial)) !! firstPromise = Some (Pending []).
Proof. vm_compute. repeat split. Qed.

Example startSession_refused :
  let env := {| genai_ctor := Resolved tt; input_ctor := Resolved running;
                output_ctor := Resolved running; input_resume := Resolved tt;
                output_resume := Resolved tt;
                user_media := Rejected_with (ErrorObj "NotAllowedError" "Permission denied") |} in
  sessionState (ui (exec (startSession IDLE env) initial)) = ERROR /\
  error (ui (exec (startSession IDLE env) initial)) = Some ErrorClassifier.permissionError /\
  inputAudioContextRef (refs (exec (startSession IDLE env) initial)) = None.
Proof. vm_compute. repeat split. Qed.

(** ** Closing the channel *)

Lemma onclose_unfold w :
  onclose w =
  cleanup (onUi (fun u => if bool_decide (sessionStateRef (refs w) = ERROR)
                          then u else with_sessionState IDLE u)
             (onRefs (with_isClosedRef true) w)).
Proof.
  unfold onclose, bind, setRef, update, read, when. cbn.
  destruct (bool_decide (sessionStateRef (refs w) = ERROR)); cbn; [|reflexivity].
  now destruct w as [[] ? ?].
Qed.

(** What [onclose] does.  It tests the mirror [sessionStateRef], not the
    state itself: when the mirror holds [ERROR] the state is left as it is,
    when it holds anything else the state becomes [IDLE]; the held error is
    never cleared; the channel is marked closed and [cleanup] runs in both
    cases. *)
Theorem onclose_tests_the_mirror : forall w,
  (sessionStateRef (refs w) = ERROR ->
   sessionState (ui (exec onclose w)) = sessionState (ui w)) /\
  (sessionStateRef (refs w) <> ERROR ->
   sessionState (ui (exec onclose w)) = IDLE) /\
  error (ui (exec onclose w)) = error (ui w) /\
  (exists w', onclose w = cleanup w' /\ isClosedRef (refs w') = true /\
              dom w' = dom w) /\
  (isClosedRef (refs (exec onclose w)) = true).
Proof.
  intros w.
  pose proof (cleanup_sameVerdict
    (onUi (fun u => if bool_decide (sessionStateRef (refs w) = ERROR)
                    then u else with_sessionState IDLE u)
       (onRefs (with_isClosedRef true) w))) as [Hs He].
  pose proof (cleanup_keeps_closedMarked
    (onUi (fun u => if bool_decide (sessionStateRef (refs w) = ERROR)
                    then u else with_sessionState IDLE u)
       (onRefs (with_isClosedRef true) w))) as Hc.
  unfold exec in *. rewrite onclose_unfold.
  repeat apply conj.
  - intros H. rewrite Hs. cbn. now rewrite bool_decide_eq_true_2.
  - intros H. rewrite Hs. cbn. now rewrite bool_decide_eq_false_2.
  - rewrite He. cbn. now destruct (bool_decide _).
  - eexists. split; [reflexivity|]. split; reflexivity.
  - apply Hc. reflexivity.
Qed.

(** With the mirror in step with the state, a close while in [ERROR] keeps
    both the state and the error. *)
Example close_after_render_keeps_error :
  sessionState (ui (run [ErrorIn; Render; CloseIn] connected)) = ERROR /\
  error (ui (run [ErrorIn; Render; CloseIn] connected)) = Some connectionLost.
Proof. vm_compute. repeat split. Qed.

(** C9, on the code.  The guard of [onclose] is meant to keep the state
    [ERROR] when the channel closes after an error, and it does when a render
    has brought the mirror up to date in between (see above).  But [onerror]
    sets the state to [ERROR] through the setter only; the mirror is brought
    up to date by the effect that runs after the next render.  A close
    delivered right after the error, before that render, reads the old value
    [CONNECTED] from the mirror and sets the state to [IDLE]: the state does
    not remain [ERROR], while the error stays held. *)
Lemma close_right_after_error_goes_idle :
  sessionState (ui (run [ErrorIn] connected)) = ERROR /\
  error (ui (run [ErrorIn] connected)) = Some connectionLost /\
  sessionStateRef (refs (run [ErrorIn] connected)) = CONNECTED /\
  sessionState (ui (exec onclose (run [ErrorIn] connected))) = IDLE /\
  error (ui (exec onclose (run [ErrorIn] connected))) = Some connectionLost.
Proof. vm_compute. repeat split. Qed.

(** ** The open callback after teardown *)

Lemma onopen_stale w : stale w -> onopen w = (Ok tt, w).
Proof.
  intros H. unfold onopen, bind, read.
  destruct (isClosedRef (refs w)) eqn:Hc; [reflexivity|].
  destruct H as [H | [H | [H | (h & Hh & Hs)]]].
  - congruence.
  - now rewrite H.
  - rewrite H. now destruct (inputAudioContextRef (refs w)).
  - rewrite Hh. destruct (streamRef (refs w)); [|reflexivity].
    rewrite Hs. reflexivity.
Qed.

(** C6.  When the open callback finds the channel marked closed, or the
    input context or the microphone stream gone (or the input context
    closed), it returns normally and leaves the whole world as it was: no
    node is created or connected, [scriptProcessorRef] and the session state
    are untouched.  That is the situation after every run of [cleanup] and
    after every close callback. *)
Theorem onopen_after_teardown :
  (forall w, stale w -> onopen w = (Ok tt, w)) /\
  (forall w, stale (exec cleanup w)) /\
  (forall w, stale (exec onclose w)) /\
  (forall w, onopen (exec cleanup w) = (Ok tt, exec cleanup w)) /\
  (forall w, onopen (exec onclose w) = (Ok tt, exec onclose w)).
Proof.
  assert (H1 : forall w, stale (exec cleanup w)).
  { intros w. right. left. apply cleanup_settles_inputGone. }
  assert (H2 : forall w, stale (exec onclose w)).
  { intros w. unfold exec. rewrite onclose_unfold. apply H1. }
  repeat apply conj; auto using onopen_stale.
Qed.

(** A session is started, the channel closes before it opened, and the open
    callback arrives late: nothing happens. *)
Lemma onopen_after_teardown_witness :
  onopen (run [CloseIn] connecting) = (Ok tt, run [CloseIn] connecting).
Proof.
  apply (proj1 onopen_after_teardown).
  left. reflexivity.
Defined.

(** In a live attempt the same callback does wire capture. *)
Example onopen_wires_capture :
  sessionState (ui (exec onopen connecting)) = CONNECTED /\
  scriptProcessorRef (refs connecting) = None /\
  scriptProcessorRef (refs (exec onopen connecting)) = Some 7%positive /\
  nodes (dom (exec onopen connecting)) !! 6%positive = Some [7%positive].
Proof. vm_compute. repeat split. Qed.


(** ** Symbolic execution

    [js_cbv] unfolds the monad, the record updates and the primitives, and
    leaves alone the operations on finite maps and sets, on numbers and on
    strings, and the loops. *)
Ltac js_cbv :=
  cbv beta iota zeta delta
    [ bind ret throw read update tryCatch tryFinally when whenSome await
      exec completion fst snd negb andb orb
      onUi onRefs onDom ui refs dom
      sessionState history error isThinking isSpeaking
      sessionPromiseRef streamRef inputAudioContextRef outputAudioContextRef
      outputGainNodeRef scriptProcessorRef nextStartTimeRef audioSourcesRef
      aiRef speakingCheckIntervalRef isClosedRef sessionStateRef
      contexts streams nodes sources timers promises outbox playback
      toolCallSignals nextHandle
      with_sessionState with_history with_error with_isThinking with_isSpeaking
      with_sessionPromiseRef with_streamRef with_inputAudioContextRef
      with_outputAudioContextRef with_outputGainNodeRef with_scriptProcessorRef
      with_nextStartTimeRef with_audioSourcesRef with_aiRef
      with_speakingCheckIntervalRef with_isClosedRef with_sessionStateRef
      with_contexts with_streams with_nodes with_sources with_timers
      with_promises with_outbox with_playback with_toolCallSignals with_nextHandle
      alloc setSessionState setError setIsThinking setIsSpeaking setHistory setRef
      contextState setContextState newAudioContext closeContext resumeContext
      outputsOf setOutputs createNode connect disconnect
      tracksOf getUserMedia stopTracks createMediaStreamSource
      setSource createBufferSource withSource sourceSetBuffer sourceConnect
      sourceStart sourceStop setInterval clearInterval
      send setPromise connectLive promiseThen sendViaSession
      sessionResolved sessionRejected
      clearError syncSessionStateRef cleanup addMessageToHistory
      handleProModelResponse handleImageModelResponse callModel invoke
      onToolCall handleToolCall scheduleChunk onended speakingCheck playAudio
      handleMessage onaudioprocess onopen onerror onclose acquire beginAttempt
      startSession handler dispatch
      cleaned closeHeld releaseHeld stopHeld cancelHeld
      st_source st_when st_buffer
      src_buffer src_startTime src_stopped src_output ].

(** ** Cleanup *)

Lemma sourceStop_started h w s :
  sources (dom w) !! h = Some s -> is_Some (src_startTime s) ->
  sourceStop h w =
  (Ok tt, onDom (fun b => with_sources (stopOne (sources b) h) b) w).
Proof.
  intros Hs [t Ht]. unfold sourceStop, withSource, bind, read. cbv beta.

  rewrite Hs, Ht. unfold setSource, update, onDom, stopOne. cbn.
  rewrite Hs. unfold markStopped. now rewrite Ht.
Qed.

Lemma stopOne_started m h h' s :
  m !! h' = Some s -> is_Some (src_startTime s) ->
  exists s', stopOne m h !! h' = Some s' /\ is_Some (src_startTime s').
Proof.
  intros Hs Ht. unfold stopOne. destruct (m !! h) as [s0|] eqn:Hh; [|eauto].
  destruct (decide (h = h')) as [->|Hne].
  - rewrite lookup_insert_eq. eexists. split; [reflexivity|].
    cbn. congruence.
  - rewrite lookup_insert_ne by done. eauto.
Qed.

Lemma forEach_sourceStop l : forall w,
  Forall (started w) l ->
  forEach l sourceStop w =
  (Ok tt, onDom (fun b => with_sources (stopAll l (sources b)) b) w).
Proof.
  induction l as [|h l IH]; intros w Hl.
  - cbn. now destruct w as [? ? []].
  - inversion Hl as [|? ? (s & Hs & Ht) Hl']; subst.
    cbn [forEach]. erewrite bind_Ok by (eapply sourceStop_started; eauto).
    rewrite IH.
    + now destruct w as [? ? []].
    + eapply Forall_impl; [exact Hl'|].
      intros h' (s' & Hs' & Ht'). unfold started, startedIn. cbn.
      eapply stopOne_started; eauto.
Qed.

(** Under [liveStarted], [cleanup] completes normally and its effect is
    [cleaned]. *)
Lemma cleanup_closed_form w :
  liveStarted w -> cleanup w = (Ok tt, cleaned w).
Proof.
  intros Hlive. unfold liveStarted in Hlive.
  destruct w as [u r d].
  destruct r as [sp st ic oc og spr nx srcs ai tm cl ssr].
  destruct d as [cs ss ns so ts ps ob pb tc nh].
  cbn in Hlive.
  destruct spr as [h1|], og as [h2|], ic as [h3|], oc as [h4|], st as [h5|], tm as [h6|].
  all: repeat (js_cbv;
         match goal with
         | |- context [bool_decide ?P] => destruct (bool_decide P) eqn:?
         end).
  all: js_cbv.
  all: rewrite forEach_sourceStop by exact Hlive.
  all: js_cbv.
  all: reflexivity.
Qed.

(** *** Reachable worlds are well formed *)

Lemma liveStarted_insert w h s :
  is_Some (src_startTime s) -> liveStarted w ->
  liveStarted (onDom (fun b => with_sources (<[h := s]> (sources b)) b) w).
Proof.
  intros Hs Hl. unfold liveStarted in *. cbn.
  eapply Forall_impl; [exact Hl|].
  intros h' (s' & Hs' & Ht'). unfold started, startedIn. cbn.
  destruct (decide (h = h')) as [->|Hne].
  - rewrite lookup_insert_eq. eauto.
  - rewrite lookup_insert_ne by done. eauto.
Qed.

Lemma Forall_startedIn_fresh m nh x srcs :
  Forall (fun h => (h < nh)%positive) srcs ->
  Forall (startedIn m) srcs -> Forall (startedIn (<[nh := x]> m)) srcs.
Proof.
  intros Hb Hl. induction Hl as [|h l Hh Hl IH]; [constructor|].
  inversion Hb; subst. constructor; [|now apply IH].
  destruct Hh as (s & Hs & Ht). exists s. split; [|exact Ht].
  rewrite lookup_insert_ne by lia. exact Hs.
Qed.

Lemma Forall_setAdd (P : Handle -> Prop) h l :
  P h -> Forall P l -> Forall P (setAdd h l).
Proof.
  intros Hh Hl. unfold setAdd. case_bool_decide; [exact Hl|].
  apply Forall_app. split; [exact Hl | now constructor].
Qed.

Lemma wellFormed_insert w h s :
  is_Some (src_startTime s) -> wellFormed w ->
  wellFormed (onDom (fun b => with_sources (<[h := s]> (sources b)) b) w).
Proof.
  intros Hs [Hl Hb]. split; [now apply liveStarted_insert | exact Hb].
Qed.

Lemma wellFormed_alloc w :
  wellFormed w ->
  wellFormed (onDom (with_nextHandle (Pos.succ (nextHandle (dom w)))) w).
Proof.
  intros [Hl Hb]. split; [exact Hl|].
  unfold liveBelow in *. cbn.
  eapply Forall_impl; [exact Hb|]. cbn. intros h Hh. lia.
Qed.

Lemma wellFormed_delete w h :
  wellFormed w ->
  wellFormed (onRefs (fun r => with_audioSourcesRef (setDelete h (audioSourcesRef r)) r) w).
Proof.
  intros [Hl Hb]. unfold wellFormed, liveStarted, liveBelow, setDelete in *. cbn.
  split; apply Forall_forall; intros x Hx%list_elem_of_filter;
    destruct Hx as [_ Hx].
  - rewrite Forall_forall in Hl. now apply Hl.
  - rewrite Forall_forall in Hb. now apply Hb.
Qed.

Lemma wellFormed_clear w :
  wellFormed w -> wellFormed (onRefs (with_audioSourcesRef []) w).
Proof. intros _. split; constructor. Qed.

Ltac wf_leaf :=
  unfold inv; intros ?;
  first
    [ assumption
    | apply wellFormed_alloc; assumption
    | apply wellFormed_delete; assumption
    | apply wellFormed_clear; assumption
    | apply wellFormed_insert; [cbn; eauto | assumption] ].

(** Scheduling a chunk: the new source is created, started and only then
    put into the live set. *)
Lemma scheduleChunk_wellFormed audioBuffer t :
  respects (inv wellFormed) (scheduleChunk audioBuffer t).
Proof.
  intros w [Hl Hb].
  destruct w as [u r d].
  destruct r as [sp st ic oc og spr nx srcs ai tm cl ssr].
  destruct d as [cs ss ns so ts ps ob pb tc nh].
  unfold liveStarted, liveBelow in *. cbn in Hl, Hb.
  destruct oc as [h1|], og as [h2|], tm as [h3|].
  all: js_cbv; rewrite ?lookup_insert_eq; js_cbv; rewrite ?lookup_insert_eq; js_cbv;
       rewrite ?lookup_insert_eq; js_cbv.
  all: split; unfold liveStarted, liveBelow, started;
       cbn [refs dom audioSourcesRef sources nextHandle].
  all: try assumption.
  all: try (apply Forall_setAdd; [|repeat apply Forall_startedIn_fresh; assumption]).
  all: try (repeat apply Forall_startedIn_fresh; assumption).
  all: try (eexists; split; [apply lookup_insert_eq | cbn; eauto]).
  all: try (apply Forall_setAdd; [lia|]).
  all: try (eapply Forall_impl; [exact Hb | cbn; intros; lia]).
Qed.

Lemma onended_wellFormed h : respects (inv wellFormed) (onended h).
Proof. intros w H. exact (wellFormed_delete w h H). Qed.

Create HintDb js_frames discriminated.
Create HintDb js_outer discriminated.
#[global] Hint Unfold
  setSessionState setError setIsThinking setIsSpeaking setHistory setRef
  setContextState newAudioContext closeContext resumeContext
  setOutputs createNode connect disconnect
  getUserMedia stopTracks createMediaStreamSource
  setInterval clearInterval
  send setPromise connectLive promiseThen sendViaSession
  sessionResolved sessionRejected
  clearError syncSessionStateRef addMessageToHistory
  handleProModelResponse handleImageModelResponse callModel invoke
  onToolCall handleToolCall speakingCheck playAudio
  handleMessage onaudioprocess onopen onerror onclose acquire beginAttempt
  startSession handler : js_outer.

(** Like [respects_with], with the lemmas of [js_frames] tried before a
    definition is unfolded. *)
Ltac respects_using leaf :=
  repeat first
    [ solve [auto 1 with js_frames nocore]
    | apply respects_ret; solve [typeclasses eauto]
    | apply respects_throw; solve [typeclasses eauto]
    | apply respects_read; solve [typeclasses eauto]
    | apply respects_await; solve [typeclasses eauto]
    | apply respects_bind; [typeclasses eauto | | intros ?]
    | apply respects_tryCatch; [typeclasses eauto | | intros ?]
    | apply respects_tryFinally; [typeclasses eauto | | ]
    | apply respects_whenSome; [typeclasses eauto | intros ?]
    | apply respects_when; [typeclasses eauto | ]
    | apply respects_forEach; [typeclasses eauto | intros ?]
    | apply respects_update; intros ?; solve [leaf]
    | match goal with
      | |- respects _ (match ?x with _ => _ end) => destruct x
      | |- respects _ alloc => intros ?; unfold exec, alloc; cbn; solve [leaf]
      | |- respects _ (if ?b then _ else _) => destruct b
      | |- respects _ (let _ := _ in _) => cbv zeta
      end
    | progress autounfold with js_outer ].

Lemma cleanup_wellFormed : respects (inv wellFormed) cleanup.
Proof. respects_with wf_leaf. Qed.

#[global] Hint Resolve scheduleChunk_wellFormed onended_wellFormed cleanup_wellFormed
  : js_frames.

Lemma handler_wellFormed ev : respects (inv wellFormed) (handler ev).
Proof. destruct ev; respects_using wf_leaf. Qed.

Lemma initial_wellFormed : wellFormed initial.
Proof. split; constructor. Qed.

Lemma run_wellFormed evs : forall w, wellFormed w -> wellFormed (run evs w).
Proof.
  induction evs as [|ev evs IH]; intros w Hw; [exact Hw|].
  cbn. apply IH. now apply handler_wellFormed.
Qed.

Lemma reachable_wellFormed w : reachable w -> wellFormed w.
Proof. intros [evs ->]. apply run_wellFormed, initial_wellFormed. Qed.

(** *** What [cleaned] guarantees *)

Lemma stopOne_stops m h :
  startedIn m h -> exists s, stopOne m h !! h = Some s /\ src_stopped s = true.
Proof.
  intros (s & Hs & _). unfold stopOne. rewrite Hs, lookup_insert_eq. eauto.
Qed.

Lemma stopOne_keeps_stopped m h h' s :
  m !! h' = Some s -> src_stopped s = true ->
  exists s', stopOne m h !! h' = Some s' /\ src_stopped s' = true.
Proof.
  intros Hs Ht. unfold stopOne. destruct (m !! h) as [s0|] eqn:Hh; [|eauto].
  destruct (decide (h = h')) as [->|Hne].
  - rewrite lookup_insert_eq. eauto.
  - rewrite lookup_insert_ne by done. eauto.
Qed.

Lemma stopAll_keeps_stopped l : forall m h s,
  m !! h = Some s -> src_stopped s = true ->
  exists s', stopAll l m !! h = Some s' /\ src_stopped s' = true.
Proof.
  induction l as [|h0 l IH]; intros m h s Hs Ht; [eauto|].
  destruct (stopOne_keeps_stopped m h0 h s Hs Ht) as (s' & Hs' & Ht').
  cbn. eapply IH; eauto.
Qed.

Lemma stopAll_stops l : forall m h,
  Forall (startedIn m) l -> h ∈ l ->
  exists s, stopAll l m !! h = Some s /\ src_stopped s = true.
Proof.
  induction l as [|h0 l IH]; intros m h Hl Hin; [inversion Hin|].
  inversion Hl as [|? ? Hh0 Hl']; subst. cbn.
  destruct (decide (h = h0)) as [->|Hne].
  - destruct (stopOne_stops m h0 Hh0) as (s & Hs & Ht).
    eapply stopAll_keeps_stopped; eauto.
  - apply IH.
    + eapply Forall_impl; [exact Hl'|].
      intros h' (s' & Hs' & Ht'). eapply stopOne_started; eauto.
    + apply elem_of_cons in Hin. destruct Hin; [congruence | assumption].
Qed.

Lemma closeHeld_closes h cs :
  default closed (closeHeld (Some h) cs !! h) = closed.
Proof.
  unfold closeHeld.
  destruct (bool_decide _) eqn:Hc; [now apply bool_decide_eq_true in Hc|].
  now rewrite lookup_insert_eq.
Qed.

Lemma closeHeld_keeps_closed o h cs :
  default closed (cs !! h) = closed ->
  default closed (closeHeld o cs !! h) = closed.
Proof.
  intros Hc. destruct o as [h'|]; [|exact Hc]. unfold closeHeld.
  destruct (bool_decide _); [exact Hc|].
  destruct (decide (h' = h)) as [->|Hne].
  - now rewrite lookup_insert_eq.
  - now rewrite lookup_insert_ne.
Qed.

Lemma cleaned_tornDown w : liveStarted w -> tornDown w (cleaned w).
Proof.
  intros Hlive. unfold tornDown, cleaned, contextState, tracksOf, outputsOf.
  cbn [ui refs dom audioSourcesRef sources contexts streams timers nodes
       inputAudioContextRef outputAudioContextRef streamRef
       speakingCheckIntervalRef scriptProcessorRef outputGainNodeRef
       nextStartTimeRef isSpeaking sessionPromiseRef with_isSpeaking].
  repeat apply conj; try reflexivity.
  - intros h Hh. now apply stopAll_stops.
  - intros h ->. apply closeHeld_keeps_closed, closeHeld_closes.
  - intros h ->. apply closeHeld_closes.
  - intros h ->. unfold stopHeld. rewrite lookup_alter_eq.
    destruct (streams (dom w) !! h) as [tracks|]; cbn; [|split; [constructor|reflexivity]].
    split; [|apply length_fmap].
    apply Forall_fmap, Forall_true. reflexivity.
  - intros h ->. unfold cancelHeld. intros Hin.
    apply elem_of_difference in Hin as [_ Hn]. apply Hn. now apply elem_of_singleton.
  - intros h [-> | ->]; unfold releaseHeld.
    + destruct (outputGainNodeRef (refs w)) as [g|].
      * destruct (decide (g = h)) as [->|Hne];
          [now rewrite lookup_insert_eq
          | now rewrite lookup_insert_ne, lookup_insert_eq].
      * now rewrite lookup_insert_eq.
    + now rewrite lookup_insert_eq.
Qed.

Lemma cleaned_liveStarted w : liveStarted (cleaned w).
Proof. constructor. Qed.

(** Nothing is left for a second [cleanup] to do. *)
Lemma cleaned_cleaned w : cleaned (cleaned w) = cleaned w.
Proof. reflexivity. Qed.

(** C7.  In every world the hook can reach, [cleanup] completes normally;
    a second [cleanup] right after it completes normally too and changes
    nothing; and after it the live-source set is empty with every source
    that was in it stopped, both audio contexts that were held are closed,
    every track of the held microphone stream is ended, the speaking-check
    timer is cancelled, the nodes are disconnected, every reference is
    dropped and the playback cursor is 0. *)
Theorem cleanup_idempotent : forall evs,
  completion cleanup (run evs initial) = Ok tt /\
  completion cleanup (exec cleanup (run evs initial)) = Ok tt /\
  exec cleanup (exec cleanup (run evs initial)) = exec cleanup (run evs initial) /\
  tornDown (run evs initial) (exec cleanup (run evs initial)).
Proof.
  intros evs.
  assert (Hwf : wellFormed (run evs initial))
    by apply run_wellFormed, initial_wellFormed.
  destruct Hwf as [Hlive _].
  unfold completion, exec.
  rewrite (cleanup_closed_form _ Hlive). cbn [fst snd].
  rewrite (cleanup_closed_form _ (cleaned_liveStarted _)). cbn [fst snd].
  split; [reflexivity|]. split; [reflexivity|]. split; [reflexivity|].
  now apply cleaned_tornDown.
Qed.

(** The run that leads to [playing], spelled out from the initial world. *)
Lemma cleanup_idempotent_witness :
  completion cleanup (run playingRun initial) = Ok tt /\
  completion cleanup (exec cleanup (run playingRun initial)) = Ok tt /\
  exec cleanup (exec cleanup (run playingRun initial)) =
    exec cleanup (run playingRun initial) /\
  tornDown (run playingRun initial) (exec cleanup (run playingRun initial)).
Proof. exact (cleanup_idempotent playingRun). Defined.

(** Three chunks are playing when the channel closes: all three are stopped,
    and a second cleanup finds nothing to do. *)
Example cleanup_stops_live_sources :
  audioSourcesRef (refs playing) = [8; 10; 12]%positive /\
  cleanup playing = (Ok tt, cleaned playing) /\
  audioSourcesRef (refs (cleaned playing)) = [] /\
  (src_stopped <$> sources (dom (cleaned playing)) !! 10%positive) = Some true /\
  contexts (dom (cleaned playing)) !! 1%positive = Some closed /\
  contexts (dom (cleaned playing)) !! 2%positive = Some closed /\
  streams (dom (cleaned playing)) !! 4%positive = Some [ended] /\
  timers (dom (cleaned playing)) = ∅.
Proof. vm_compute. repeat split. Qed.

(** Outside the reachable worlds the guard matters: [stop] on a source that
    was never started raises, and [cleanup] with it. *)
Example cleanup_needs_started_sources :
  let w := onRefs (with_audioSourcesRef [1%positive])
             (exec createBufferSource initial) in
  completion cleanup w =
  Throw (invalidStateError "cannot call stop without calling start first").
Proof. vm_compute. reflexivity. Qed.

(** ** Playback scheduling *)

(** *** Facts of binary64 arithmetic *)

Section NumberFacts.
Local Open Scope Z_scope.


Lemma pow2_pos n : 0 < 2 ^ n \/ n < 0.
Proof. destruct (Z_lt_le_dec n 0); [now right | left; now apply Z.pow_pos_nonneg]. Qed.

Lemma roundN_small k : k < 2 ^ 53 -> roundN k = k.
Proof.
  intros H. unfold roundN.
  destruct (Z_le_gt_dec k 0) as [Hk|Hk].
  - assert (Z.log2 k = 0) by now apply Z.log2_nonpos.
    rewrite H0. reflexivity.
  - assert (Z.log2 k < 53) by (apply Z.log2_lt_pow2; lia).
    destruct (Z.leb_spec (Z.log2 k - 52) 0); [reflexivity | lia].
Qed.

(** The shape of a rounded number: a mantissa between 2^52 and 2^53 at the
    exponent of the argument. *)
Lemma roundN_shape k :
  2 ^ 53 <= k ->
  0 < Z.log2 k - 52 /\
  exists m, roundN k = m * 2 ^ (Z.log2 k - 52) /\ 2 ^ 52 <= m <= 2 ^ 53 /\
            k / 2 ^ (Z.log2 k - 52) <= m <= k / 2 ^ (Z.log2 k - 52) + 1 /\
            2 ^ 52 <= k / 2 ^ (Z.log2 k - 52) < 2 ^ 53.
Proof.
  intros Hk. set (s := Z.log2 k - 52).
  assert (Hpos : 0 < k) by (pose proof (Z.pow_pos_nonneg 2 53); lia).
  assert (Hl : 53 <= Z.log2 k) by (apply Z.log2_le_pow2; lia).
  assert (Hs : 0 < s) by (unfold s; lia).
  split; [exact Hs|].
  pose proof (Z.log2_spec k Hpos) as [Hlo Hhi].
  assert (H2s : 0 < 2 ^ s) by (apply Z.pow_pos_nonneg; lia).
  assert (Hsplit : 2 ^ Z.log2 k = 2 ^ 52 * 2 ^ s).
  { rewrite <- Z.pow_add_r by lia. f_equal. unfold s. lia. }
  assert (Hsplit' : 2 ^ Z.succ (Z.log2 k) = 2 ^ 53 * 2 ^ s).
  { rewrite <- Z.pow_add_r by lia. f_equal. unfold s. lia. }
  assert (Hq : 2 ^ 52 <= k / 2 ^ s < 2 ^ 53).
  { split.
    - apply Z.div_le_lower_bound; [exact H2s|]. rewrite Z.mul_comm. lia.
    - apply Z.div_lt_upper_bound; [exact H2s|]. rewrite Z.mul_comm. lia. }
  unfold roundN. fold s.
  destruct (Z.leb_spec s 0); [lia|].
  eexists. split; [reflexivity|].
  destruct ((k mod 2 ^ s <? 2 ^ (s - 1)) || ((k mod 2 ^ s =? 2 ^ (s - 1)) && Z.even (k / 2 ^ s)));
    repeat split; lia.
Qed.

Lemma roundN_nonneg k : 0 <= k -> 0 <= roundN k.
Proof.
  intros Hk. destruct (Z_lt_le_dec k (2 ^ 53)) as [H|H].
  - now rewrite roundN_small.
  - destruct (roundN_shape k H) as (Hs & m & -> & Hm & _).
    assert (0 < 2 ^ (Z.log2 k - 52)) by (apply Z.pow_pos_nonneg; lia).
    assert (0 < 2 ^ 52) by (apply Z.pow_pos_nonneg; lia). nia.
Qed.

(** A mantissa of at most 53 bits at any exponent is representable. *)
Lemma roundN_exact m t : 0 <= m <= 2 ^ 53 -> 0 <= t -> roundN (m * 2 ^ t) = m * 2 ^ t.
Proof.
  intros Hm Ht.
  assert (H2t : 0 < 2 ^ t) by (apply Z.pow_pos_nonneg; lia).
  destruct (Z.eq_dec m 0) as [->|Hm0]; [reflexivity|].
  assert (Hmpos : 0 < m) by lia.
  assert (Hlog : Z.log2 (m * 2 ^ t) = Z.log2 m + t).
  { rewrite Z.log2_mul_pow2 by lia. lia. }
  unfold roundN. rewrite Hlog.
  destruct (Z.leb_spec (Z.log2 m + t - 52) 0) as [|Hs]; [reflexivity|].
  set (s := Z.log2 m + t - 52) in *.
  assert (H2s : 0 < 2 ^ s) by (apply Z.pow_pos_nonneg; lia).
  assert (Hl53 : Z.log2 m <= 53).
  { rewrite <- (Z.log2_pow2 53) by lia. apply Z.log2_le_mono. lia. }
  assert (Hdiv : exists q, m * 2 ^ t = q * 2 ^ s).
  { destruct (Z_le_gt_dec (Z.log2 m) 52) as [Hle|Hgt].
    - exists (m * 2 ^ (t - s)). rewrite <- Z.mul_assoc, <- Z.pow_add_r by (unfold s; lia).
      f_equal. f_equal. lia.
    - assert (Hl : Z.log2 m = 53) by lia.
      assert (Hm53 : m = 2 ^ 53).
      { pose proof (Z.log2_spec m Hmpos) as [Hlo _]. rewrite Hl in Hlo. lia. }
      exists (2 ^ 52). subst m. rewrite <- !Z.pow_add_r by (unfold s; lia).
      f_equal. unfold s. rewrite Hl. lia. }
  destruct Hdiv as [q Hq]. rewrite Hq.
  rewrite Z.div_mul by lia. rewrite Z.mod_mul by lia.
  assert (0 < 2 ^ (s - 1)) by (apply Z.pow_pos_nonneg; lia).
  destruct (Z.ltb_spec 0 (2 ^ (s - 1))); [reflexivity | lia].
Qed.

Lemma roundN_idem k : 0 <= k -> roundN (roundN k) = roundN k.
Proof.
  intros Hk. destruct (Z_lt_le_dec k (2 ^ 53)) as [H|H].
  - rewrite (roundN_small k H). exact (roundN_small k H).
  - destruct (roundN_shape k H) as (Hs & m & -> & Hm & _).
    apply roundN_exact; [|lia].
    assert (0 < 2 ^ 52) by (apply Z.pow_pos_nonneg; lia). lia.
Qed.

Lemma roundN_lower k : 2 ^ 53 <= k -> 2 ^ Z.log2 k <= roundN k.
Proof.
  intros H. destruct (roundN_shape k H) as (Hs & m & -> & Hm & _).
  assert (Hpos : 0 < k) by (pose proof (Z.pow_pos_nonneg 2 53); lia).
  assert (Hl : 53 <= Z.log2 k) by (apply Z.log2_le_pow2; lia).
  replace (2 ^ Z.log2 k) with (2 ^ 52 * 2 ^ (Z.log2 k - 52))
    by (rewrite <- Z.pow_add_r by lia; f_equal; lia).
  apply Z.mul_le_mono_nonneg_r; [apply Z.pow_nonneg; lia | lia].
Qed.

Lemma roundN_upper k : 2 ^ 53 <= k -> roundN k <= 2 ^ Z.succ (Z.log2 k).
Proof.
  intros H. destruct (roundN_shape k H) as (Hs & m & -> & Hm & _).
  assert (Hpos : 0 < k) by (pose proof (Z.pow_pos_nonneg 2 53); lia).
  assert (Hl : 53 <= Z.log2 k) by (apply Z.log2_le_pow2; lia).
  replace (2 ^ Z.succ (Z.log2 k)) with (2 ^ 53 * 2 ^ (Z.log2 k - 52))
    by (rewrite <- Z.pow_add_r by lia; f_equal; lia).
  apply Z.mul_le_mono_nonneg_r; [apply Z.pow_nonneg; lia | lia].
Qed.

(** Rounding is monotone. *)
Lemma roundN_mono a b : 0 <= a <= b -> roundN a <= roundN b.
Proof.
  intros [Ha Hab].
  destruct (Z_lt_le_dec b (2 ^ 53)) as [Hb|Hb].
  { rewrite !roundN_small by lia. exact Hab. }
  destruct (Z_lt_le_dec a (2 ^ 53)) as [Ha53|Ha53].
  { rewrite (roundN_small a Ha53).
    pose proof (roundN_lower b Hb).
    assert (2 ^ 53 <= 2 ^ Z.log2 b).
    { apply Z.pow_le_mono_r; [lia|]. apply Z.log2_le_pow2; lia. }
    lia. }
  assert (Hapos : 0 < a) by lia. assert (Hbpos : 0 < b) by lia.
  pose proof (Z.log2_le_mono a b Hab) as Hlog.
  destruct (Z.eq_dec (Z.log2 a) (Z.log2 b)) as [Heq|Hne].
  - (* same exponent *)
    assert (Hl : 53 <= Z.log2 a) by (apply Z.log2_le_pow2; lia).
    unfold roundN. rewrite <- Heq.
    set (s := Z.log2 a - 52).
    assert (Hs : 0 < s) by (unfold s; lia).
    destruct (Z.leb_spec s 0); [lia|].
    assert (H2s : 0 < 2 ^ s) by (apply Z.pow_pos_nonneg; lia).
    assert (Hh : 2 * 2 ^ (s - 1) = 2 ^ s).
    { rewrite <- Z.pow_succ_r by lia. f_equal. lia. }
    pose proof (Z.div_mod a (2 ^ s) ltac:(lia)) as Ea.
    pose proof (Z.div_mod b (2 ^ s) ltac:(lia)) as Eb.
    pose proof (Z.mod_pos_bound a (2 ^ s) H2s) as Ra.
    pose proof (Z.mod_pos_bound b (2 ^ s) H2s) as Rb.
    pose proof (Z.div_le_mono a b (2 ^ s) H2s Hab) as Hq.
    set (qa := a / 2 ^ s) in *. set (qb := b / 2 ^ s) in *.
    set (ra := a mod 2 ^ s) in *. set (rb := b mod 2 ^ s) in *.
    set (h := 2 ^ (s - 1)) in *.
    apply Z.mul_le_mono_nonneg_r; [lia|].
    destruct (Z.eq_dec qa qb) as [Hqq|Hqq].
    + rewrite <- Hqq in *.
      assert (Hr : ra <= rb) by nia.
      destruct (Z.ltb_spec ra h), (Z.ltb_spec rb h), (Z.eqb_spec ra h), (Z.eqb_spec rb h),
        (Z.even qa); cbn; lia.
    + assert (qa + 1 <= qb) by lia.
      destruct ((ra <? h) || ((ra =? h) && Z.even qa)),
               ((rb <? h) || ((rb =? h) && Z.even qb)); lia.
  - (* a in a lower binade *)
    pose proof (roundN_upper a Ha53). pose proof (roundN_lower b Hb).
    assert (2 ^ Z.succ (Z.log2 a) <= 2 ^ Z.log2 b) by (apply Z.pow_le_mono_r; lia).
    lia.
Qed.

Lemma dle_refl a : nonneg a -> dle a a = true.
Proof. destruct a; cbn; try easy. intros _. apply Z.leb_refl. Qed.

Lemma dle_trans a b c : dle a b = true -> dle b c = true -> dle a c = true.
Proof.
  destruct a, b, c; cbn; try easy.
  intros H1 H2. apply Z.leb_le in H1, H2. apply Z.leb_le. lia.
Qed.

Lemma rounded_nonneg k :
  0 <= k -> nonneg (rounded k) /\ (forall a, 0 <= a <= k -> roundN a = a -> dle (Finite a) (rounded k) = true).
Proof.
  intros Hk. unfold rounded, round53.
  destruct (Z.ltb_spec k 0); [lia|].
  pose proof (roundN_nonneg k Hk) as Hr.
  destruct (Z.leb_spec overflow (roundN k)) as [Ho|Ho].
  - split; [exact I | reflexivity].
  - assert (Hov : 0 < overflow) by (apply Z.pow_pos_nonneg; lia).
    destruct (Z.leb_spec (roundN k) (- overflow)); [lia|].
    split.
    + cbn. split; [exact Hr|]. split; [now apply roundN_idem | exact Ho].
    + intros a Ha Hrep. cbn. apply Z.leb_le. rewrite <- Hrep.
      apply roundN_mono. lia.
Qed.

(** Adding a non-negative number never gives less. *)
Lemma dadd_nonneg a b :
  nonneg a -> nonneg b -> nonneg (dadd a b) /\ dle a (dadd a b) = true.
Proof.
  destruct a as [x| | |], b as [y| | |]; cbn [nonneg dadd]; try easy.
  intros (Hx & Hrx & _) (Hy & _ & _).
  destruct (rounded_nonneg (x + y) ltac:(lia)) as [Hn Hle].
  split; [exact Hn|]. apply Hle; [lia | exact Hrx].
Qed.

Lemma dmax_nonneg a b :
  nonneg a -> nonneg b ->
  nonneg (dmax a b) /\ dle a (dmax a b) = true /\ dle b (dmax a b) = true.
Proof.
  destruct a as [x| | |], b as [y| | |]; cbn [nonneg dmax dle]; try easy.
  intros Hx Hy. destruct (Z.leb_spec x y) as [H|H].
  - repeat split; try apply Hy; cbn; apply Z.leb_le; lia.
  - repeat split; try apply Hx; cbn; apply Z.leb_le; lia.
Qed.

End NumberFacts.


(** On the samples the arithmetic of the embedding is the arithmetic of the
    machine. *)
Example binary64_agrees_with_the_machine :
  agree PrimFloat.add dadd = true /\
  agree PrimFloat.sub dsub = true /\
  agree mathMax dmax = true /\
  agreeTest PrimFloat.leb dle = true /\
  agreeTest (fun a b => PrimFloat.leb b a) dge = true.
Proof. vm_compute. repeat split. Qed.

Example literals_agree_with_the_machine :
  ofFloat 0x1.999999999999ap-4 = oneTenth /\
  ofFloat 0x1.999999999999ap-5 = oneTwentieth /\
  ofFloat 0x1p-1 = oneHalf /\
  ofFloat 0x0p+0 = dzero.
Proof. vm_compute. repeat split. Qed.

#[global] Instance cursorGrows_preorder : PreOrder cursorGrows.
Proof.
  split; unfold cursorGrows.
  - intros w H. split; [exact H | now apply dle_refl].
  - intros a b c Hab Hbc H.
    destruct (Hab H) as [Hb Hle]. destruct (Hbc Hb) as [Hc Hle'].
    split; [exact Hc | eapply dle_trans; eassumption].
Qed.

(** The start time and the cursor of one chunk, from non-negative numbers. *)
Lemma chunk_times nx t d :
  nonneg nx -> nonneg t -> nonneg d ->
  nonneg (dmax nx t) /\ dle nx (dmax nx t) = true /\ dle t (dmax nx t) = true /\
  nonneg (dadd (dmax nx t) d) /\ dle nx (dadd (dmax nx t) d) = true.
Proof.
  intros Hn Ht Hd.
  destruct (dmax_nonneg nx t Hn Ht) as (Hm & Hl & Hr).
  destruct (dadd_nonneg (dmax nx t) d Hm Hd) as (Hs & Hls).
  repeat split; try assumption.
  eapply dle_trans; eassumption.
Qed.

(** The effect of scheduling one chunk while the output is held. *)
Lemma scheduleChunk_effect b t w :
  outputReady w ->
  exists w',
    scheduleChunk b t w = (Ok tt, w') /\
    playback (dom w') =
      (playback (dom w) ++
        [{| st_source := nextHandle (dom w); st_when := dmax (cursor w) t;
            st_buffer := Some b |}])%list /\
    cursor w' = dadd (dmax (cursor w) t) (duration b) /\
    outputAudioContextRef (refs w') = outputAudioContextRef (refs w) /\
    outputGainNodeRef (refs w') = outputGainNodeRef (refs w).
Proof.
  intros (ctx & gain & Hc & Hg).
  destruct w as [u r d].
  destruct r as [sp st ic oc og spr nx srcs ai tm cl ssr].
  destruct d as [cs ss ns so ts ps ob pb tc nh].
  cbn in Hc, Hg. subst oc og. unfold cursor.
  destruct tm as [h|].
  all: eexists; split;
    [ js_cbv; rewrite ?lookup_insert_eq; js_cbv; rewrite ?lookup_insert_eq; js_cbv;
      rewrite ?lookup_insert_eq; js_cbv; reflexivity
    | repeat split ].
Qed.

Lemma scheduleChunk_cursorGrows b t :
  nonneg t -> nonneg (duration b) -> respects cursorGrows (scheduleChunk b t).
Proof.
  intros Ht Hb w. unfold cursorGrows, cursor.
  destruct w as [u r d].
  destruct r as [sp st ic oc og spr nx srcs ai tm cl ssr].
  destruct d as [cs ss ns so ts ps ob pb tc nh].
  destruct oc as [h1|], og as [h2|], tm as [h3|].
  all: js_cbv; rewrite ?lookup_insert_eq; js_cbv; rewrite ?lookup_insert_eq; js_cbv;
       rewrite ?lookup_insert_eq; js_cbv.
  all: intros Hn.
  all: try (split; [exact Hn | now apply dle_refl]).
  all: destruct (chunk_times nx t (duration b) Hn Ht Hb) as (_ & _ & _ & Hs & Hl);
       split; assumption.
Qed.

Ltac cursor_leaf :=
  unfold cursorGrows, cursor; cbn;
  let H := fresh in intros H; split; [exact H | now apply dle_refl].

Lemma playAudio_cursorGrows m : wellTimed m -> respects cursorGrows (playAudio m).
Proof.
  intros [Ht Hd]. unfold playAudio.
  apply respects_bind; [typeclasses eauto | apply respects_read; typeclasses eauto | intros oc].
  apply respects_bind; [typeclasses eauto | apply respects_read; typeclasses eauto | intros og].
  destruct (base64Audio m) as [a|]; [|apply respects_ret; typeclasses eauto].
  apply respects_when; [typeclasses eauto|].
  apply respects_bind; [typeclasses eauto | respects_with cursor_leaf | intros _].
  destruct (decoded m) as [b|e] eqn:E; cbn [await].
  - intros w. change (cursorGrows w (exec (scheduleChunk b (currentTime m)) w)).
    exact (scheduleChunk_cursorGrows b (currentTime m) Ht (Hd b eq_refl) w).
  - intros w. change (cursorGrows w w). reflexivity.
Qed.

(** C2, second half.  No event other than a start or a close (the two that
    may run [cleanup]) ever moves the playback cursor backwards. *)
Lemma handler_cursorGrows ev :
  mayCleanup ev = false -> timed ev -> respects cursorGrows (handler ev).
Proof.
  destruct ev; try discriminate; intros _ Ht; try solve [respects_using cursor_leaf].
  cbn [handler]. unfold handleMessage.
  apply respects_bind; [typeclasses eauto | respects_using cursor_leaf | intros _].
  now apply playAudio_cursorGrows.
Qed.

#[global] Instance sameAudio_preorder : PreOrder sameAudio.
Proof.
  split; unfold sameAudio; [intros w; split; reflexivity|].
  intros a b c [] []; split; congruence.
Qed.

Lemma toolCalls_sameAudio o : respects sameAudio (whenSome o handleToolCall).
Proof. respects_with frame_leaf. Qed.

Lemma playAudio_chunk m b w :
  outputReady w -> isChunk m b ->
  playAudio m w = scheduleChunk b (currentTime m) (onUi (with_isSpeaking true) w).
Proof.
  intros (ctx & gain & Hc & Hg) [(a & Ha & Ht) Hd].
  unfold playAudio, bind, read. rewrite Hc, Hg, Ha, Ht, Hd. reflexivity.
Qed.

Lemma neverThrows_tryCatch {A} (m : Js A) (h : Thrown -> Js A) :
  (forall e, neverThrows (h e)) -> neverThrows (tryCatch m h).
Proof.
  intros Hh w. unfold completion, tryCatch.
  destruct (m w) as [[a|e] w']; [now exists a | apply Hh].
Qed.

Lemma neverThrows_tryFinally {A} (m : Js A) (f : Js unit) :
  neverThrows m -> neverThrows f -> neverThrows (tryFinally m f).
Proof.
  intros Hm Hf w. destruct (Hm w) as [a Ha]. unfold completion, tryFinally in *.
  destruct (m w) as [r w']; cbn in Ha; subst r.
  destruct (Hf w') as [[] Hu]. unfold completion in Hu.
  destruct (f w') as [[[]|e] w'']; cbn in Hu; [now exists a | discriminate].
Qed.

Lemma neverThrows_forEach {A} (l : list A) (f : A -> Js unit) :
  (forall a, neverThrows (f a)) -> neverThrows (forEach l f).
Proof.
  intros H. induction l as [|x l IH]; cbn [forEach].
  - apply neverThrows_ret.
  - apply neverThrows_bind; [apply H | intros _; exact IH].
Qed.

(** A failing invocation never escapes the loop: the [catch] clause absorbs
    it. *)
Lemma invoke_neverThrows fc env : neverThrows (invoke fc env).
Proof.
  unfold invoke. apply neverThrows_tryFinally.
  - apply neverThrows_tryCatch. intros e. neverThrows_go.
  - neverThrows_go.
Qed.

Lemma toolCalls_neverThrow o : neverThrows (whenSome o handleToolCall).
Proof.
  apply neverThrows_whenSome. intros calls. unfold handleToolCall.
  apply neverThrows_bind; [neverThrows_go | intros _].
  apply neverThrows_bind; [neverThrows_go | intros _].
  apply neverThrows_forEach. intros c. apply invoke_neverThrows.
Qed.

(** Handling one chunk appends exactly one call of [start], at
    [max(cursor, clock)], and moves the cursor to the end of the chunk. *)
Lemma handleMessage_chunk m b w :
  outputReady w -> isChunk m b ->
  exists e,
    playback (dom (exec (handleMessage m) w)) = (playback (dom w) ++ [e])%list /\
    st_buffer e = Some b /\
    st_when e = dmax (cursor w) (currentTime m) /\
    cursor (exec (handleMessage m) w) = dadd (st_when e) (st_duration e) /\
    outputReady (exec (handleMessage m) w).
Proof.
  intros Hready Hchunk.
  pose proof (toolCalls_sameAudio (toolCall m) w) as [Hrefs Hplay].
  destruct (toolCalls_neverThrow (toolCall m) w) as [[] Hok].
  set (w1 := exec (whenSome (toolCall m) handleToolCall) w) in *.
  assert (Hready1 : outputReady (onUi (with_isSpeaking true) w1)).
  { destruct Hready as (ctx & gain & Hc & Hg). exists ctx, gain.
    cbn. rewrite Hrefs. now split. }
  destruct (scheduleChunk_effect b (currentTime m) _ Hready1)
    as (w' & Hrun & Hpb & Hcur & Hoc & Hog).
  assert (Hexec : exec (handleMessage m) w = w').
  { unfold handleMessage. rewrite (exec_bind_Ok _ _ _ _ Hok). fold w1.
    unfold exec at 1. erewrite playAudio_chunk by eassumption.
    now rewrite Hrun. }
  rewrite Hexec.
  eexists. split; [|split; [|split; [|split]]].
  - rewrite Hpb. cbn. rewrite Hplay. reflexivity.
  - reflexivity.
  - cbn. unfold cursor. cbn. now rewrite Hrefs.
  - rewrite Hcur. unfold cursor. cbn. now rewrite Hrefs.
  - destruct Hready1 as (ctx & gain & Hc & Hg). exists ctx, gain.
    rewrite Hoc, Hog. now split.
Qed.

Lemma run_app evs1 evs2 w : run (evs1 ++ evs2) w = run evs2 (run evs1 w).
Proof. unfold run. apply foldl_app. Qed.

(** Between two cleanups the cursor, a non-negative number to begin with,
    stays one and never decreases, whatever happens: messages, capture
    frames, settlements of the promise, speaking checks, renders. *)
Lemma run_cursorGrows evs : forall w,
  forallb (fun ev => negb (mayCleanup ev)) evs = true ->
  Forall timed evs ->
  cursorGrows w (run evs w).
Proof.
  induction evs as [|ev evs IH]; intros w Hevs Ht; [reflexivity|].
  cbn in Hevs. apply andb_true_iff in Hevs as [Hev Hevs].
  apply negb_true_iff in Hev.
  apply Forall_cons in Ht as [Ht1 Ht].
  etransitivity; [apply (handler_cursorGrows ev Hev Ht1 w)|].
  apply IH; assumption.
Qed.

Lemma gapless_cons e new :
  (forall e', head new = Some e' ->
     dle (dadd (st_when e) (st_duration e)) (st_when e') = true) ->
  gapless new -> gapless (e :: new).
Proof.
  intros Hhead Hnew [|i] a b Ha Hb; cbn in *.
  - injection Ha as <-. apply Hhead. now destruct new.
  - eapply Hnew; eassumption.
Qed.

Lemma Forall_timed_messages msgs : Forall wellTimed msgs -> Forall timed (map MessageIn msgs).
Proof. intros H. apply Forall_map. exact H. Qed.

Lemma forallb_messages msgs :
  forallb (fun ev => negb (mayCleanup ev)) (map MessageIn msgs) = true.
Proof. induction msgs as [|m msgs IH]; [reflexivity | exact IH]. Qed.

(** C2.  Chunks handled in order while the output is held, their clock
    readings and durations being non-negative numbers: each chunk makes one
    call of [start]; the call for a chunk begins no earlier than the clock
    read for that chunk; each call begins no earlier than the binary64 sum
    of the previous start time and duration, which is the value kept as the
    cursor; the first begins no earlier than the cursor stood; and the
    cursor never moves backwards from one chunk to the next. *)
Theorem gapless_playback : forall msgs bufs w,
  outputReady w -> nonneg (cursor w) ->
  Forall2 isChunk msgs bufs -> Forall wellTimed msgs ->
  exists new,
    playback (dom (run (map MessageIn msgs) w)) = (playback (dom w) ++ new)%list /\
    Forall2 scheduledFor (zip msgs bufs) new /\
    gapless new /\
    (forall e, head new = Some e -> dle (cursor w) (st_when e) = true) /\
    (forall k, dle (cursor (run (map MessageIn (take k msgs)) w))
                   (cursor (run (map MessageIn (take (S k) msgs)) w)) = true).
Proof.
  intros msgs bufs w Hready Hcur Hchunks Htimed.
  assert (Hnn : forall k, nonneg (cursor (run (map MessageIn (take k msgs)) w))).
  { intros k.
    apply (run_cursorGrows (map MessageIn (take k msgs)) w); [apply forallb_messages| |exact Hcur].
    apply Forall_timed_messages, Forall_take, Htimed. }
  assert (Hmono : forall k, dle (cursor (run (map MessageIn (take k msgs)) w))
                                (cursor (run (map MessageIn (take (S k) msgs)) w)) = true).
  { intros k. destruct (msgs !! k) as [m|] eqn:Hk.
    - rewrite (take_S_r _ _ _ Hk), map_app, run_app.
      apply (run_cursorGrows (map MessageIn [m])); [reflexivity| |apply Hnn].
      apply Forall_timed_messages. constructor; [|constructor].
      exact (proj1 (Forall_lookup _ _) Htimed k m Hk).
    - apply lookup_ge_None in Hk.
      rewrite !take_ge by lia. apply dle_refl.
      specialize (Hnn (length msgs)). now rewrite take_ge in Hnn by lia. }
  enough (Hmain : exists new,
    playback (dom (run (map MessageIn msgs) w)) = (playback (dom w) ++ new)%list /\
    Forall2 scheduledFor (zip msgs bufs) new /\
    gapless new /\
    (forall e, head new = Some e -> dle (cursor w) (st_when e) = true)).
  { destruct Hmain as (new & H1 & H2 & H3 & H4). exists new. auto. }
  clear Hmono Hnn. revert w Hready Hcur.
  induction Hchunks as [|m b msgs bufs Hmb Hrest IH]; intros w Hready Hcur.
  - exists []. cbn. rewrite app_nil_r. repeat split; try constructor.
    + intros i a b Ha. discriminate.
    + intros e He. discriminate.
  - apply Forall_cons in Htimed as [[Hclock Hdur] Htimed].
    assert (Hb : nonneg (duration b)) by (apply Hdur; apply Hmb).
    destruct (chunk_times (cursor w) (currentTime m) (duration b) Hcur Hclock Hb)
      as (Hmax & Hle_cur & Hle_clock & Hsum & _).
    destruct (handleMessage_chunk m b w Hready Hmb)
      as (e & Hpb & Hbuf & Hwhen & Hcur' & Hready').
    assert (Hdur_e : st_duration e = duration b).
    { unfold st_duration. now rewrite Hbuf. }
    assert (Hcur'' : nonneg (cursor (exec (handleMessage m) w))).
    { rewrite Hcur', Hwhen, Hdur_e. exact Hsum. }
    destruct (IH Htimed _ Hready' Hcur'') as (new & H1 & H2 & H3 & H4).
    exists (e :: new).
    change (run (map MessageIn (m :: msgs)) w)
      with (run (map MessageIn msgs) (exec (handleMessage m) w)).
    split; [|split; [|split]].
    + rewrite H1, Hpb. now rewrite <- app_assoc.
    + constructor; [|exact H2]. split; [exact Hbuf|].
      cbn. rewrite Hwhen. exact Hle_clock.
    + apply gapless_cons; [|exact H3].
      intros e' He'. rewrite <- Hcur'. now apply H4.
    + intros e0 He0. injection He0 as <-. rewrite Hwhen. exact Hle_cur.
Qed.

(** Closes [nonneg a] for a literal [a]. *)
Ltac nonneg_go := vm_compute; repeat split; discriminate.

(** Three chunks arrive while the clock reads 0, 0.05 and 0.5: they start at
    0, 0.1 and 0.5. *)
Lemma gapless_playback_witness :
  exists new,
    playback (dom (run (map MessageIn [chunkAt dzero; chunkAt oneTwentieth; chunkAt oneHalf])
                       connected)) = (playback (dom connected) ++ new)%list /\
    Forall2 scheduledFor
      (zip [chunkAt dzero; chunkAt oneTwentieth; chunkAt oneHalf] [tenth; tenth; tenth]) new /\
    gapless new /\
    (forall e, head new = Some e -> dle (cursor connected) (st_when e) = true) /\
    (forall k, dle (cursor (run (map MessageIn (take k [chunkAt dzero; chunkAt oneTwentieth; chunkAt oneHalf]))
                            connected))
                   (cursor (run (map MessageIn (take (S k) [chunkAt dzero; chunkAt oneTwentieth; chunkAt oneHalf]))
                            connected)) = true).
Proof.
  apply gapless_playback.
  - exists 2%positive, 3%positive. split; vm_compute; reflexivity.
  - nonneg_go.
  - repeat constructor; eexists; split; reflexivity.
  - repeat (constructor; [split; [|intros b [= <-]]; nonneg_go|]). constructor.
Defined.

(** The three chunks start at 0, 0.1 and 0.5 and the cursor ends at 0.6
    (0x1.3333333333333p-1). *)
Example playback_schedule :
  map st_when (playback (dom playing)) = [dzero; oneTenth; oneHalf] /\
  cursor playing = dyadic 5404319552844595 (-53).
Proof. vm_compute. repeat split. Qed.

(** In the claim's own reading, with the sums of the real numbers, the
    fourth and fifth calls of the burst overlap.  The calls begin at 0, 0.1,
    0.2, 0.30000000000000004 (0x1.3333333333334p-2) and 0.4: the fourth
    start time plus the duration 0.1 (0x1.999999999999ap-4) is more than the
    double 0.4 (0x1.999999999999ap-2), to which the sum is rounded and at
    which the fifth call begins. *)
Lemma burst_overlaps_in_exact_arithmetic :
  outputReady connected /\ nonneg (cursor connected) /\
  Forall2 isChunk burst (repeat tenth 5) /\ Forall wellTimed burst /\
  playback (dom connected) = [] /\
  map st_when (playback (dom (run (map MessageIn burst) connected))) =
    [dzero; oneTenth; dyadic 7205759403792794 (-55);
     dyadic 5404319552844596 (-54); dyadic 7205759403792794 (-54)] /\
  map st_duration (playback (dom (run (map MessageIn burst) connected))) =
    repeat oneTenth 5 /\
  gapless (playback (dom (run (map MessageIn burst) connected))) /\
  ~ gaplessExact (playback (dom (run (map MessageIn burst) connected))).
Proof.
  split; [exists 2%positive, 3%positive; split; vm_compute; reflexivity|].
  split; [nonneg_go|].
  split; [repeat constructor; eexists; split; reflexivity|].
  split; [repeat (constructor; [split; [|intros b [= <-]]; nonneg_go|]); constructor|].
  split; [vm_compute; reflexivity|].
  remember (playback (dom (run (map MessageIn burst) connected))) as l eqn:El.
  vm_compute in El. subst l.
  split; [vm_compute; reflexivity|].
  split; [vm_compute; reflexivity|].
  split.
  - intros i a b Ha Hb.
    do 5 (destruct i as [|i];
          [cbn in Ha, Hb;
           first [discriminate
                 | injection Ha as <-; injection Hb as <-; vm_compute; reflexivity]|]).
    discriminate.
  - intros H.
    refine (_ (H 3%nat _ _ eq_refl eq_refl _ _ _ eq_refl eq_refl eq_refl)).
    vm_compute. intros Hle. apply Hle. reflexivity.
Qed.

(** ** Capture frames and the session promise *)

Lemma forEach_send q : forall w,
  forEach q send w = (Ok tt, onDom (fun b => with_outbox (outbox b ++ q) b) w).
Proof.
  induction q as [|m q IH]; intros w.
  - destruct w as [? ? []]. unfold onDom, with_outbox. cbn.
    now rewrite app_nil_r.
  - cbn [forEach]. unfold bind at 1. unfold send at 1, update at 1.
    rewrite IH. unfold onDom, with_outbox. cbn. now rewrite <- app_assoc.
Qed.

Lemma sessionResolved_pending p q w :
  promises (dom w) !! p = Some (Pending q) ->
  sessionResolved p w =
  (Ok tt, onDom (fun b => with_outbox (outbox b ++ q)
                            (with_promises (<[p := Fulfilled]> (promises b)) b)) w).
Proof.
  intros Hp. unfold sessionResolved, bind, read. rewrite Hp.
  unfold setPromise, update. rewrite forEach_send. reflexivity.
Qed.

Lemma sessionResolved_settled p w :
  promises (dom w) !! p = Some Fulfilled -> sessionResolved p w = (Ok tt, w).
Proof. intros Hp. unfold sessionResolved, bind, read. now rewrite Hp. Qed.

(** C8, as the code has it.  A capture frame hands its chunk to
    [sessionPromiseRef.current?.then(...)].  With no promise held the chunk
    is dropped.  With a fulfilled promise it is sent, once.  With a pending
    promise nothing is sent now: the send is kept on the promise and, when
    the promise resolves, goes out once, after the sends kept before it; a
    second settlement sends nothing more.  With a rejected promise the
    chunk is dropped. *)
Theorem onaudioprocess_sends_at_most_once : forall blob w,
  (sessionPromiseRef (refs w) = None -> onaudioprocess blob w = (Ok tt, w)) /\
  (forall p, sessionPromiseRef (refs w) = Some p ->
     (promises (dom w) !! p = Some Fulfilled ->
      onaudioprocess blob w =
        (Ok tt, onDom (fun b => with_outbox (outbox b ++ [RealtimeInput blob]) b) w)) /\
     (forall q, promises (dom w) !! p = Some (Pending q) ->
      onaudioprocess blob w =
        (Ok tt, onDom (fun b =>
                  with_promises (<[p := Pending (q ++ [RealtimeInput blob])]> (promises b)) b) w) /\
      outbox (dom (exec (onaudioprocess blob) w)) = outbox (dom w) /\
      outbox (dom (exec (sessionResolved p) (exec (onaudioprocess blob) w))) =
        (outbox (dom w) ++ q ++ [RealtimeInput blob])%list /\
      exec (sessionResolved p) (exec (sessionResolved p) (exec (onaudioprocess blob) w)) =
        exec (sessionResolved p) (exec (onaudioprocess blob) w)) /\
     (promises (dom w) !! p = Some Rejected \/ promises (dom w) !! p = None ->
      onaudioprocess blob w = (Ok tt, w))).
Proof.
  intros blob w. split.
  - intros H. unfold onaudioprocess, sendViaSession, bind, read. now rewrite H.
  - intros p Hp.
    assert (Hstep : onaudioprocess blob w = promiseThen p (RealtimeInput blob) w).
    { unfold onaudioprocess, sendViaSession, bind, read. now rewrite Hp. }
    rewrite Hstep. unfold promiseThen, bind, read.
    split; [|split].
    + intros ->. reflexivity.
    + intros q Hq. rewrite Hq.
      set (w1 := onDom (fun b =>
        with_promises (<[p := Pending (q ++ [RealtimeInput blob])]> (promises b)) b) w).
      assert (Hex : exec (onaudioprocess blob) w = w1).
      { unfold exec. rewrite Hstep. unfold promiseThen, bind, read.
        now rewrite Hq. }
      assert (H1 : promises (dom w1) !! p = Some (Pending (q ++ [RealtimeInput blob])))
        by apply lookup_insert_eq.
      assert (Hres : exec (sessionResolved p) w1 =
        onDom (fun b => with_outbox (outbox b ++ (q ++ [RealtimeInput blob]))
                          (with_promises (<[p := Fulfilled]> (promises b)) b)) w1).
      { unfold exec. now rewrite (sessionResolved_pending _ _ _ H1). }
      rewrite Hex, Hres.
      split; [reflexivity|]. split; [reflexivity|]. split; [reflexivity|].
      unfold exec. rewrite sessionResolved_settled; [reflexivity|].
      apply lookup_insert_eq.
    + intros [-> | ->]; reflexivity.
Qed.

(** With the session established a frame is sent at once. *)
Lemma onaudioprocess_sends_at_most_once_witness :
  onaudioprocess "AAAA" connected =
  (Ok tt, onDom (fun b => with_outbox (outbox b ++ [RealtimeInput "AAAA"]) b) connected).
Proof.
  refine (proj1 (proj2 (onaudioprocess_sends_at_most_once "AAAA" connected)
                       firstPromise _) _);
    vm_compute; reflexivity.
Defined.

(** C8 as stated fails.  In [opened] the channel has opened and capture is
    wired, but the promise of [live.connect] is still pending: the channel is
    not ready.  The chunk of a frame produced now is not dropped: it waits on
    the promise and is delivered when the promise resolves. *)
Lemma chunk_before_ready_is_delivered_later :
  sessionPromiseRef (refs opened) = Some firstPromise /\
  promises (dom opened) !! firstPromise = Some (Pending []) /\
  outbox (dom (run [AudioProcess "AAAA"] opened)) = [] /\
  promises (dom (run [AudioProcess "AAAA"] opened)) !! firstPromise =
    Some (Pending [RealtimeInput "AAAA"]) /\
  outbox (dom (run [AudioProcess "AAAA"; SessionResolved firstPromise] opened)) =
    [RealtimeInput "AAAA"].
Proof. vm_compute. repeat split. Qed.

(** ** Tool calls *)

Lemma exec_tryFinally {A} (m : Js A) (f : Js unit) w :
  exec (tryFinally m f) w = exec f (exec m w).
Proof.
  unfold exec, tryFinally. destruct (m w) as [r w']. cbn.
  now destruct (f w') as [[[]|e] w''].
Qed.

(** Every pass through the loop body ends with [setIsThinking(false)]. *)
Lemma invoke_notThinking fc env w : notThinking (exec (invoke fc env) w).
Proof. unfold invoke. rewrite exec_tryFinally. reflexivity. Qed.

Lemma thinkingAtEntry_notThinking calls : forall w,
  notThinking w -> thinkingAtEntry calls w = map (fun _ => false) calls.
Proof.
  induction calls as [|c calls IH]; intros w Hw; [reflexivity|].
  cbn. rewrite Hw. f_equal. apply IH, invoke_notThinking.
Qed.

(** The flag is raised once, before the loop, and lowered at the end of
    every pass: it is up when the first invocation starts and down when any
    later one starts. *)
Lemma thinking_raised_for_first_only c calls w :
  thinkingAtEntry (c :: calls) (exec (onToolCall ;; setIsThinking true) w) =
  true :: map (fun _ => false) calls.
Proof.
  cbn [thinkingAtEntry]. f_equal.
  apply thinkingAtEntry_notThinking, invoke_notThinking.
Qed.

Lemma handleToolCall_unfold calls w :
  exec (handleToolCall calls) w =
  exec (forEach calls (fun c => invoke (fst c) (snd c)))
       (exec (onToolCall ;; setIsThinking true) w).
Proof. reflexivity. Qed.

(** C3, on the code.  A batch of two invocations whose remote operations
    both answer: [isThinking] is [true] when the first invocation starts and
    already [false] when the second starts (and while it runs), although the
    batch is not finished; it is [false] after the batch. *)
Theorem thinking_flag_drops_after_first_invocation :
  isThinking (ui connected) = false /\
  thinkingAtEntry [(contentCall "1", answeringEnv); (imageCall "2", answeringEnv)]
    (exec (onToolCall ;; setIsThinking true) connected) = [true; false] /\
  isThinking (ui (exec (handleToolCall
    [(contentCall "1", answeringEnv); (imageCall "2", answeringEnv)]) connected)) = false.
Proof. vm_compute. repeat split. Qed.

(** An invocation whose remote operation fails: the [catch] clause writes
    the apology and nothing is sent, whatever the state of the channel. *)
Lemma invoke_content_failed fc env e w :
  fc_name fc = "generateContent" ->
  content_reply env = Rejected_with e ->
  dom (exec (invoke fc env) w) = dom w /\
  history (ui (exec (invoke fc env) w)) =
    {| msg_id := messageId MODEL (now_settled env); msg_role := MODEL;
       msg_text := apology; msg_type := TEXT |} ::
    {| msg_id := messageId USER (now_request env); msg_role := USER;
       msg_text := contentRequestPrefix ++ fc_prompt fc; msg_type := TEXT |} ::
    history (ui w).
Proof.
  intros Hname Hreply. unfold invoke. rewrite Hname, Hreply.
  destruct w as [u r d].
  destruct r as [sp st ic oc og spr nx srcs ai tm cl ssr].
  destruct ai; split; reflexivity.
Qed.

(** An invocation whose remote operation answers, on an established
    channel: exactly one response goes out, with the invocation's id and
    name. *)
Lemma invoke_content_answered fc env text p w :
  fc_name fc = "generateContent" ->
  content_reply env = Resolved text ->
  aiRef (refs w) = true ->
  sessionPromiseRef (refs w) = Some p ->
  promises (dom w) !! p = Some Fulfilled ->
  outbox (dom (exec (invoke fc env) w)) =
  (outbox (dom w) ++
     [ToolResponse (fc_id fc) (fc_name fc) "Content generated successfully."])%list.
Proof.
  intros Hname Hreply Hai Hp Hq. unfold invoke. rewrite Hname, Hreply.
  unfold str_eqb. rewrite bool_decide_eq_true_2 by reflexivity.
  destruct w as [u r d]. destruct r. destruct d. cbn in Hai, Hp, Hq. subst.
  destruct text as [t|]; [destruct (truthy t) eqn:Ht|].
  all: js_cbv; rewrite ?Ht; js_cbv; rewrite Hq; js_cbv; reflexivity.
Qed.

(** An invocation with a name that is not declared, on an established
    channel: one response goes out, carrying the failure text. *)
Lemma invoke_unknown_responds fc env p w :
  fc_name fc <> "generateContent" ->
  fc_name fc <> "generateImage" ->
  sessionPromiseRef (refs w) = Some p ->
  promises (dom w) !! p = Some Fulfilled ->
  outbox (dom (exec (invoke fc env) w)) =
  (outbox (dom w) ++ [ToolResponse (fc_id fc) (fc_name fc) failureResult])%list.
Proof.
  intros Hc Hi Hp Hq. unfold invoke, str_eqb.
  rewrite !bool_decide_eq_false_2 by assumption.
  destruct w as [u r d]. destruct r. destruct d. cbn in Hp, Hq. subst.
  js_cbv. rewrite Hq. js_cbv. reflexivity.
Qed.

(** C1, on the code.  On an established channel, an event with one
    invocation whose remote operation fails produces no tool response at
    all: the send sits inside the [try] block after the awaited call, so the
    [catch] clause runs instead of it.  In a batch of three (one failing, one
    answered, one with an undeclared name) only the last two are answered. *)
Theorem failed_invocation_gets_no_response :
  sessionPromiseRef (refs connected) = Some firstPromise /\
  promises (dom connected) !! firstPromise = Some Fulfilled /\
  toolResponses (exec (handleMessage (toolCallEvent [(contentCall "1", failingEnv)]))
                      connected) = [] /\
  map msg_text (history (ui (exec (handleMessage
        (toolCallEvent [(contentCall "1", failingEnv)])) connected))) =
    [apology; contentRequestPrefix ++ "why is the sky blue"] /\
  toolResponses (exec (handleMessage (toolCallEvent
      [(contentCall "1", failingEnv); (imageCall "2", answeringEnv);
       (unknownCall "3", answeringEnv)])) connected) =
    [ToolResponse "2" "generateImage" "Image generated successfully.";
     ToolResponse "3" "openPodBayDoors" failureResult].
Proof. vm_compute. repeat split. Qed.

(** * Further properties of the hook *)

(** ** Tool calls: containment, responses, history *)

(** Runs one invocation symbolically, through every shape of the replies,
    of the client reference and of the channel promise. *)
Ltac rewrite_known :=
  repeat match goal with
         | H : truthy _ = _ |- _ => rewrite H
         | H : _ !! _ = _ |- _ => rewrite H
         end.

Ltac invoke_cases w env :=
  destruct w as [[s0 h0 e0 th0 sp0]
                 [sp st ic oc og spr nx srcs ai tm cl ssr]
                 [cs ss ns so ts ps ob pb tc nh]];
  destruct env as [t1 cr ir t2];
  destruct ai; destruct cr as [[txt|]|e1]; destruct ir as [[|[b|] rest]|e2];
  try destruct (truthy txt) eqn:?; try destruct (truthy b) eqn:?;
  (destruct sp as [p|]; [destruct (ps !! p) as [[q| |]|] eqn:?|]);
  cbn [now_request content_reply images_reply now_settled
       refs dom ui aiRef sessionPromiseRef promises] in *;
  js_cbv; rewrite_known; js_cbv; rewrite_known; js_cbv.

Lemma str_eqb_refl s : str_eqb s s = true.
Proof. unfold str_eqb. now apply bool_decide_eq_true_2. Qed.

Lemma str_eqb_true a b : str_eqb a b = true -> a = b.
Proof. unfold str_eqb. apply bool_decide_eq_true_1. Qed.

Lemma invoke_requests fc env w :
  requests (exec (invoke fc env) w) =
  ((if knownTool fc then [requestEntry fc env] else []) ++ requests w)%list.
Proof.
  unfold invoke, knownTool, requestEntry, requests.
  destruct (str_eqb (fc_name fc) "generateContent") eqn:Hc;
    [|destruct (str_eqb (fc_name fc) "generateImage") eqn:Hi].
  all: invoke_cases w env; reflexivity.
Qed.

Lemma exec_invoke_then {B} fc env (k : unit -> Js B) w :
  exec (bind (invoke fc env) k) w = exec (k tt) (exec (invoke fc env) w).
Proof.
  destruct (invoke_neverThrows fc env w) as [[] H]. now apply exec_bind_Ok.
Qed.

Lemma forEach_invoke_requests calls : forall w,
  length (requests (exec (forEach calls (fun c => invoke (fst c) (snd c))) w)) =
  length (requests w) + length (filter (fun c => knownTool (fst c) = true) calls).
Proof.
  induction calls as [|c calls IH]; intros w.
  - cbn. lia.
  - cbn [forEach]. rewrite exec_invoke_then, IH, invoke_requests.
    destruct (knownTool (fst c)) eqn:Hk.
    + rewrite filter_cons_True by exact Hk. cbn. lia.
    + rewrite filter_cons_False by congruence. cbn. lia.
Qed.

(** X1.  For a tool call that carries its list of function calls, each with
    its arguments: no failure of a remote operation escapes the loop over
    the function calls, [handleToolCall] completes normally whatever the
    remote operations answer, whether or not a client or a channel is held.
    And no invocation is skipped because an earlier one failed: every
    invocation with a declared name leaves its request entry in the
    history. *)
Theorem tool_failures_are_contained : forall calls w,
  completion (handleToolCall calls) w = Ok tt /\
  length (requests (exec (handleToolCall calls) w)) =
    length (requests w) + length (filter (fun c => knownTool (fst c) = true) calls).
Proof.
  intros calls w. split.
  - destruct (toolCalls_neverThrow (Some calls) w) as [[] H]. exact H.
  - rewrite handleToolCall_unfold, forEach_invoke_requests. reflexivity.
Qed.

Lemma forEach_invoke_notThinking calls : forall w,
  calls <> [] ->
  notThinking (exec (forEach calls (fun c => invoke (fst c) (snd c))) w).
Proof.
  induction calls as [|c calls IH]; intros w Hne; [congruence|].
  cbn [forEach]. rewrite exec_invoke_then.
  destruct calls as [|c' calls'].
  - apply invoke_notThinking.
  - apply IH. discriminate.
Qed.

(** X2.  The thinking flag over a whole batch, in any world: it is up when
    the first invocation starts and down when each later one starts; after a
    batch with at least one invocation it is down; after a batch with no
    invocation at all it stays up, since only the loop body lowers it. *)
Theorem thinking_flag_profile : forall calls w,
  thinkingAtEntry calls (exec (onToolCall ;; setIsThinking true) w) =
    match calls with
    | [] => []
    | _ :: later => true :: map (fun _ => false) later
    end /\
  isThinking (ui (exec (handleToolCall calls) w)) =
    match calls with [] => true | _ :: _ => false end.
Proof.
  intros calls w. split.
  - destruct calls as [|c later]; [reflexivity|].
    cbn [thinkingAtEntry]. f_equal.
    apply thinkingAtEntry_notThinking, invoke_notThinking.
  - destruct calls as [|c later]; [reflexivity|].
    rewrite handleToolCall_unfold. now apply forEach_invoke_notThinking.
Qed.

(** X3.  On an established channel with the client in place, an invocation
    whose [try] block runs to its end sends exactly one response, carrying
    the invocation's id and name: the success text of its tool when the
    remote operation answers, the failure text when the name is not
    declared. *)
Theorem answered_invocation_gets_one_response : forall fc env p w,
  sessionPromiseRef (refs w) = Some p ->
  promises (dom w) !! p = Some Fulfilled ->
  aiRef (refs w) = true ->
  (fc_name fc = "generateContent" /\ (exists text, content_reply env = Resolved text)) \/
  (fc_name fc = "generateImage" /\
   (exists img rest, images_reply env = Resolved (img :: rest))) \/
  knownTool fc = false ->
  outbox (dom (exec (invoke fc env) w)) =
  (outbox (dom w) ++ [ToolResponse (fc_id fc) (fc_name fc) (resultText fc)])%list.
Proof.
  intros fc env p0 w Hp0 Hq0 Hai Hcase.
  assert (Hnames :
    (str_eqb (fc_name fc) "generateContent" = true /\
     exists text, content_reply env = Resolved text) \/
    (str_eqb (fc_name fc) "generateContent" = false /\
     str_eqb (fc_name fc) "generateImage" = true /\
     exists img rest, images_reply env = Resolved (img :: rest)) \/
    (str_eqb (fc_name fc) "generateContent" = false /\
     str_eqb (fc_name fc) "generateImage" = false)).
  { destruct Hcase as [[Hn Hr] | [[Hn Hr] | Hk]].
    - left. rewrite Hn. split; [reflexivity | exact Hr].
    - right. left. rewrite Hn. repeat split; [exact Hr].
    - right. right. unfold knownTool in Hk. now apply orb_false_iff in Hk. }
  clear Hcase. unfold invoke, resultText.
  destruct Hnames as [[Hc (text & Hr)] | [(Hc & Hi & img & rest0 & Hr) | [Hc Hi]]];
    rewrite Hc, ?Hi.
  all: invoke_cases w env; try discriminate.
  all: try (injection Hp0 as <-); try congruence.
  all: reflexivity.
Qed.

Lemma answered_invocation_gets_one_response_witness :
  outbox (dom (exec (invoke (contentCall "1") answeringEnv) connected)) =
  (outbox (dom connected) ++
     [ToolResponse (fc_id (contentCall "1")) (fc_name (contentCall "1"))
        (resultText (contentCall "1"))])%list.
Proof.
  refine (answered_invocation_gets_one_response
            (contentCall "1") answeringEnv firstPromise connected _ _ _ _).
  - vm_compute. reflexivity.
  - vm_compute. reflexivity.
  - vm_compute. reflexivity.
  - left. split; [reflexivity | eexists; reflexivity].
Defined.

(** X4.  Whatever makes an invocation with a declared name fail (no client
    object, a rejected remote call, or an image reply with no image in it),
    the effect is the same: the request entry and then the apology entry are
    written, the thinking flag is lowered, and nothing else changes; in
    particular nothing is sent and nothing is kept for sending. *)
Theorem failed_invocation_effect : forall fc env w,
  invocationFails fc env w ->
  completion (invoke fc env) w = Ok tt /\
  dom (exec (invoke fc env) w) = dom w /\
  refs (exec (invoke fc env) w) = refs w /\
  history (ui (exec (invoke fc env) w)) =
    apologyEntry env :: requestEntry fc env :: history (ui w) /\
  isThinking (ui (exec (invoke fc env) w)) = false.
Proof.
  intros fc env w Hfail.
  assert (Hnames :
    (str_eqb (fc_name fc) "generateContent" = true /\
     (aiRef (refs w) = false \/ exists e, content_reply env = Rejected_with e)) \/
    (str_eqb (fc_name fc) "generateContent" = false /\
     str_eqb (fc_name fc) "generateImage" = true /\
     (aiRef (refs w) = false \/ (exists e, images_reply env = Rejected_with e) \/
      images_reply env = Resolved []))).
  { destruct Hfail as [[Hk Hai] | [[Hn Hr] | [Hn Hr]]].
    - unfold knownTool in Hk.
      destruct (str_eqb (fc_name fc) "generateContent"); [left | right]; auto.
    - left. rewrite Hn. split; [reflexivity | now right].
    - right. rewrite Hn. repeat split; now right. }
  clear Hfail. unfold invoke, apologyEntry, requestEntry, completion.
  destruct Hnames as [[Hc Hr] | (Hc & Hi & Hr)]; rewrite Hc, ?Hi.
  all: invoke_cases w env.
  all: try (destruct Hr as [Hr | [e' Hr]]; discriminate).
  all: try (destruct Hr as [Hr | [[e' Hr] | Hr]]; discriminate).
  all: repeat split.
Qed.

(** The image service answers with an empty list of images. *)
Lemma failed_invocation_effect_witness :
  history (ui (exec (invoke (imageCall "7") noImageEnv) connected)) =
  apologyEntry noImageEnv :: requestEntry (imageCall "7") noImageEnv ::
  history (ui connected).
Proof.
  refine (proj1 (proj2 (proj2 (proj2
            (failed_invocation_effect (imageCall "7") noImageEnv connected _))))).
  right. right. split; [reflexivity | right; reflexivity].
Defined.

(** X5.  A reply that carries nothing to show is not a failure: when
    [response.text] is [undefined] or empty, or the first image has no
    bytes, no model entry is written (the history gains the request entry
    only), and on an established channel the success text of the tool is
    still sent. *)
Theorem empty_reply_still_reports_success : forall fc env p w,
  sessionPromiseRef (refs w) = Some p ->
  promises (dom w) !! p = Some Fulfilled ->
  aiRef (refs w) = true ->
  emptyReply fc env ->
  history (ui (exec (invoke fc env) w)) = requestEntry fc env :: history (ui w) /\
  outbox (dom (exec (invoke fc env) w)) =
    (outbox (dom w) ++ [ToolResponse (fc_id fc) (fc_name fc) (resultText fc)])%list.
Proof.
  intros fc env p0 w Hp0 Hq0 Hai Hempty.
  assert (Hnames :
    (str_eqb (fc_name fc) "generateContent" = true /\
     (content_reply env = Resolved None \/ content_reply env = Resolved (Some ""))) \/
    (str_eqb (fc_name fc) "generateContent" = false /\
     str_eqb (fc_name fc) "generateImage" = true /\
     exists rest, images_reply env = Resolved (None :: rest) \/
                  images_reply env = Resolved (Some "" :: rest))).
  { destruct Hempty as [[Hn Hr] | [Hn Hr]].
    - left. rewrite Hn. now split.
    - right. rewrite Hn. now repeat split. }
  clear Hempty. unfold invoke, requestEntry, resultText.
  destruct Hnames as [[Hc Hr] | (Hc & Hi & rest0 & Hr)]; rewrite Hc, ?Hi.
  all: invoke_cases w env; try discriminate.
  all: try (injection Hp0 as <-); try congruence.
  all: try (destruct Hr as [Hr | Hr]; try discriminate;
            injection Hr as ? ?; subst; discriminate).
  all: try (destruct Hr as [Hr | Hr]; try discriminate;
            injection Hr as ?; subst; discriminate).
  all: split; reflexivity.
Qed.

Lemma empty_reply_still_reports_success_witness :
  history (ui (exec (invoke (contentCall "3") silentEnv) connected)) =
    requestEntry (contentCall "3") silentEnv :: history (ui connected) /\
  outbox (dom (exec (invoke (contentCall "3") silentEnv) connected)) =
    (outbox (dom connected) ++
       [ToolResponse (fc_id (contentCall "3")) (fc_name (contentCall "3"))
          (resultText (contentCall "3"))])%list.
Proof.
  refine (empty_reply_still_reports_success
            (contentCall "3") silentEnv firstPromise connected _ _ _ _).
  - vm_compute. reflexivity.
  - vm_compute. reflexivity.
  - vm_compute. reflexivity.
  - left. split; [reflexivity | left; reflexivity].
Defined.

(** ** Capture frames: order of delivery *)

Lemma onaudioprocess_pending blob p q w :
  sessionPromiseRef (refs w) = Some p ->
  promises (dom w) !! p = Some (Pending q) ->
  exec (onaudioprocess blob) w =
  onDom (fun b => with_promises
                    (<[p := Pending (q ++ [RealtimeInput blob])]> (promises b)) b) w.
Proof.
  intros Hp Hq. unfold exec, onaudioprocess, sendViaSession, bind, read.
  rewrite Hp. cbn [whenSome]. unfold promiseThen, bind, read. now rewrite Hq.
Qed.

Lemma onaudioprocess_fulfilled blob p w :
  sessionPromiseRef (refs w) = Some p ->
  promises (dom w) !! p = Some Fulfilled ->
  exec (onaudioprocess blob) w =
  onDom (fun b => with_outbox (outbox b ++ [RealtimeInput blob]) b) w.
Proof.
  intros Hp Hq. unfold exec, onaudioprocess, sendViaSession, bind, read.
  rewrite Hp. cbn [whenSome]. unfold promiseThen, bind, read. now rewrite Hq.
Qed.

Lemma frames_pending blobs : forall p q w,
  sessionPromiseRef (refs w) = Some p ->
  promises (dom w) !! p = Some (Pending q) ->
  sessionPromiseRef (refs (run (map AudioProcess blobs) w)) = Some p /\
  promises (dom (run (map AudioProcess blobs) w)) !! p =
    Some (Pending (q ++ map RealtimeInput blobs)) /\
  outbox (dom (run (map AudioProcess blobs) w)) = outbox (dom w).
Proof.
  induction blobs as [|b blobs IH]; intros p q w Hp Hq.
  - cbn. now rewrite app_nil_r.
  - change (run (map AudioProcess (b :: blobs)) w)
      with (run (map AudioProcess blobs) (exec (onaudioprocess b) w)).
    rewrite (onaudioprocess_pending b p q w Hp Hq).
    set (w1 := onDom _ w).
    assert (Hq1 : promises (dom w1) !! p = Some (Pending (q ++ [RealtimeInput b])))
      by apply lookup_insert_eq.
    destruct (IH p _ w1 Hp Hq1) as (H1 & H2 & H3).
    split; [exact H1|]. split; [|exact H3].
    rewrite H2. cbn. now rewrite <- app_assoc.
Qed.

Lemma frames_fulfilled blobs : forall p w,
  sessionPromiseRef (refs w) = Some p ->
  promises (dom w) !! p = Some Fulfilled ->
  outbox (dom (run (map AudioProcess blobs) w)) =
  (outbox (dom w) ++ map RealtimeInput blobs)%list.
Proof.
  induction blobs as [|b blobs IH]; intros p w Hp Hq.
  - cbn. now rewrite app_nil_r.
  - change (run (map AudioProcess (b :: blobs)) w)
      with (run (map AudioProcess blobs) (exec (onaudioprocess b) w)).
    rewrite (onaudioprocess_fulfilled b p w Hp Hq).
    rewrite (IH p); [|exact Hp|exact Hq]. cbn. now rewrite <- app_assoc.
Qed.

(** X6.  Capture frames reach the session in capture order, each once.
    While the promise of the channel is pending nothing is sent and the
    chunks wait on the promise; when it resolves they go out in the order in
    which they were captured, after whatever was waiting before them.  Once
    the promise is fulfilled every frame is sent as it comes.  If the
    promise rejects, the waiting chunks are never sent. *)
Theorem frames_are_delivered_in_capture_order : forall blobs p w,
  sessionPromiseRef (refs w) = Some p ->
  (forall q, promises (dom w) !! p = Some (Pending q) ->
     outbox (dom (run (map AudioProcess blobs) w)) = outbox (dom w) /\
     outbox (dom (run (map AudioProcess blobs ++ [SessionResolved p]) w)) =
       (outbox (dom w) ++ q ++ map RealtimeInput blobs)%list /\
     outbox (dom (run (map AudioProcess blobs ++ [SessionRejected p; SessionResolved p]) w)) =
       outbox (dom w)) /\
  (promises (dom w) !! p = Some Fulfilled ->
     outbox (dom (run (map AudioProcess blobs) w)) =
       (outbox (dom w) ++ map RealtimeInput blobs)%list).
Proof.
  intros blobs p w Hp. split.
  - intros q Hq. destruct (frames_pending blobs p q w Hp Hq) as (H1 & H2 & H3).
    split; [exact H3|]. rewrite !run_app.
    set (w1 := run (map AudioProcess blobs) w) in *.
    split.
    + change (run [SessionResolved p] w1) with (exec (sessionResolved p) w1).
      unfold exec. rewrite (sessionResolved_pending _ _ _ H2). cbn. now rewrite H3.
    + change (run [SessionRejected p; SessionResolved p] w1)
        with (exec (sessionResolved p) (exec (sessionRejected p) w1)).
      assert (Hrej : exec (sessionRejected p) w1 =
                     onDom (fun b => with_promises (<[p := Rejected]> (promises b)) b) w1).
      { unfold exec, sessionRejected, bind, read. now rewrite H2. }
      rewrite Hrej. unfold exec, sessionResolved, bind, read.
      cbn [dom onDom promises with_promises]. rewrite lookup_insert_eq.
      cbn. exact H3.
  - intros Hq. exact (frames_fulfilled blobs p w Hp Hq).
Qed.

(** Three frames captured between the opening of the channel and the
    resolution of its promise. *)
Lemma frames_are_delivered_in_capture_order_witness :
  outbox (dom (run (map AudioProcess ["a"; "b"; "c"] ++ [SessionResolved firstPromise])
                   opened)) =
  (outbox (dom opened) ++ [] ++ map RealtimeInput ["a"; "b"; "c"])%list.
Proof.
  refine (proj1 (proj2 (proj1 (frames_are_delivered_in_capture_order
            ["a"; "b"; "c"] firstPromise opened _) [] _))).
  - vm_compute. reflexivity.
  - vm_compute. reflexivity.
Defined.

(** ** Interval timers *)

Ltac timers_go :=
  unfold timersHeld in *; cbn [refs dom timers speakingCheckIntervalRef] in *;
  let x := fresh "x" in let Hx := fresh "Hx" in
  intros x Hx;
  repeat match goal with
         | H : _ ∈ _ ∪ _ |- _ => apply elem_of_union in H as [H|H]
         | H : _ ∈ _ ∖ _ |- _ => apply elem_of_difference in H as [H ?]
         | H : _ ∈ {[ _ ]} |- _ => apply elem_of_singleton in H; subst
         end;
  match goal with
  | Ht : forall t, t ∈ ?ts -> _ = Some t, H : ?y ∈ ?ts |- _ =>
      let E := fresh "E" in
      pose proof (Ht y H) as E;
      first
        [ exact E
        | discriminate E
        | injection E as E; subst; exfalso;
          match goal with
          | Hn : _ ∉ _ |- _ => apply Hn; apply elem_of_singleton; reflexivity
          end ]
  | _ => reflexivity
  end.

Ltac orderly_leaf :=
  unfold inv, orderly;
  let Hw := fresh "Hw" in let Ht := fresh "Ht" in
  intros [Hw Ht]; split;
  [ first
      [ exact Hw
      | apply wellFormed_alloc; exact Hw
      | apply wellFormed_delete; exact Hw
      | apply wellFormed_clear; exact Hw
      | apply wellFormed_insert; [cbn; eauto | exact Hw] ]
  | exact Ht ].

Lemma scheduleChunk_orderly audioBuffer t :
  respects (inv orderly) (scheduleChunk audioBuffer t).
Proof.
  intros w [Hw Ht]. split; [exact (scheduleChunk_wellFormed audioBuffer t w Hw)|].
  clear Hw.
  destruct w as [u r d].
  destruct r as [sp st ic oc og spr nx srcs ai tm cl ssr].
  destruct d as [cs ss ns so ts ps ob pb tc nh].
  destruct oc as [h1|], og as [h2|], tm as [h3|].
  all: js_cbv; rewrite ?lookup_insert_eq; js_cbv; rewrite ?lookup_insert_eq; js_cbv;
       rewrite ?lookup_insert_eq; js_cbv.
  all: timers_go.
Qed.

Lemma onended_orderly h : respects (inv orderly) (onended h).
Proof. intros w [Hw Ht]. split; [exact (wellFormed_delete w h Hw) | exact Ht]. Qed.

Lemma cleanup_orderly : respects (inv orderly) cleanup.
Proof.
  intros w [Hw Ht]. split; [exact (cleanup_wellFormed w Hw)|].
  unfold exec. rewrite (cleanup_closed_form w (proj1 Hw)). cbn [snd].
  unfold cleaned, cancelHeld.
  destruct (speakingCheckIntervalRef (refs w)) eqn:E; unfold timersHeld in Ht;
    rewrite E in Ht; timers_go.
Qed.

Lemma speakingCheck_orderly t : respects (inv orderly) (speakingCheck t).
Proof.
  intros w [Hw Ht]. split; [exact (handler_wellFormed (SpeakingCheck t) w Hw)|].
  clear Hw.
  destruct w as [u r d].
  destruct r as [sp st ic oc og spr nx srcs ai tm cl ssr].
  destruct d as [cs ss ns so ts ps ob pb tc nh].
  unfold exec, speakingCheck, bind, read, when.
  cbn [refs outputAudioContextRef nextStartTimeRef].
  destruct (bool_decide (is_Some oc) && dge t (dsub nx oneTenth));
    [|exact Ht].
  destruct tm as [h3|]; js_cbv; timers_go.
Qed.

#[global] Hint Resolve scheduleChunk_orderly onended_orderly cleanup_orderly
  speakingCheck_orderly : js_frames.

Lemma handler_orderly ev : respects (inv orderly) (handler ev).
Proof. destruct ev; unfold handler; respects_using orderly_leaf. Qed.

Lemma initial_orderly : orderly initial.
Proof. split; [exact initial_wellFormed|]. intros t Ht. now apply not_elem_of_empty in Ht. Qed.

Lemma run_orderly evs : forall w, orderly w -> orderly (run evs w).
Proof.
  induction evs as [|ev evs IH]; intros w Hw; [exact Hw|].
  cbn. apply IH. now apply handler_orderly.
Qed.

(** X7.  The hook never leaks an interval timer.  In every world it can
    reach, every running timer is the one held in
    [speakingCheckIntervalRef], so at most one speaking check is running;
    and after [cleanup] no timer is running at all. *)
Theorem timers_never_leak : forall evs,
  (forall t, t ∈ timers (dom (run evs initial)) ->
     speakingCheckIntervalRef (refs (run evs initial)) = Some t) /\
  (forall t t', t ∈ timers (dom (run evs initial)) ->
     t' ∈ timers (dom (run evs initial)) -> t = t') /\
  timers (dom (exec cleanup (run evs initial))) = ∅.
Proof.
  intros evs.
  destruct (run_orderly evs initial initial_orderly) as [Hw Ht].
  split; [exact Ht|]. split.
  - intros t t' H1 H2. apply Ht in H1, H2. congruence.
  - destruct (cleanup_orderly _ (conj Hw Ht)) as [_ Hc].
    unfold exec in *. rewrite (cleanup_closed_form _ (proj1 Hw)) in *.
    cbn [snd] in *. apply set_eq. intros x. split.
    + intros Hx. apply Hc in Hx. discriminate Hx.
    + intros Hx. now apply not_elem_of_empty in Hx.
Qed.

(** ** Completions *)

Lemma acquire_wellFormed env : respects (inv wellFormed) (acquire env).
Proof. respects_using wf_leaf. Qed.

Lemma startSession_unguarded seen env w :
  seen = IDLE \/ seen = ERROR ->
  startSession seen env w =
  tryCatch (acquire env)
    (fun e => setError (Some (ErrorClassifier.mapErrorToAppError e)) ;;
              setSessionState ERROR ;; cleanup)
    (exec beginAttempt w).
Proof.
  intros Hs. unfold startSession.
  destruct Hs as [-> | ->]; reflexivity.
Qed.

(** A start that fails: the fault is classified, the state becomes [ERROR]
    and [cleanup] runs on the world the acquisition left. *)
Lemma startSession_failed_form seen env w e w2 :
  wellFormed w ->
  seen = IDLE \/ seen = ERROR ->
  acquire env (exec beginAttempt w) = (Throw e, w2) ->
  startSession seen env w =
  (Ok tt, cleaned (onUi (with_sessionState ERROR)
                     (onUi (with_error (Some (ErrorClassifier.mapErrorToAppError e))) w2))).
Proof.
  intros Hw Hs Ha. rewrite (startSession_unguarded seen env w Hs).
  unfold tryCatch. rewrite Ha.
  assert (Hw2 : wellFormed w2).
  { replace w2 with (exec (acquire env) (exec beginAttempt w))
      by (unfold exec at 1; now rewrite Ha).
    apply acquire_wellFormed. exact Hw. }
  change ((setError (Some (ErrorClassifier.mapErrorToAppError e)) ;;
           setSessionState ERROR ;; cleanup) w2)
    with (cleanup (onUi (with_sessionState ERROR)
                     (onUi (with_error (Some (ErrorClassifier.mapErrorToAppError e))) w2))).
  apply cleanup_closed_form. exact (proj1 Hw2).
Qed.

Lemma startSession_completes seen env w :
  wellFormed w -> completion (startSession seen env) w = Ok tt.
Proof.
  intros Hw. unfold completion.
  destruct seen eqn:Hs.
  - destruct (acquire env (exec beginAttempt w)) as [[[]|e] w2] eqn:Ha.
    + rewrite (startSession_unguarded IDLE env w) by (left; reflexivity).
      unfold tryCatch. now rewrite Ha.
    + now rewrite (startSession_failed_form IDLE env w e w2 Hw (or_introl eq_refl) Ha).
  - reflexivity.
  - reflexivity.
  - destruct (acquire env (exec beginAttempt w)) as [[[]|e] w2] eqn:Ha.
    + rewrite (startSession_unguarded ERROR env w) by (right; reflexivity).
      unfold tryCatch. now rewrite Ha.
    + now rewrite (startSession_failed_form ERROR env w e w2 Hw (or_intror eq_refl) Ha).
Qed.

Lemma onclose_completes w : wellFormed w -> completion onclose w = Ok tt.
Proof.
  intros Hw. unfold completion. rewrite onclose_unfold.
  now rewrite cleanup_closed_form by exact (proj1 Hw).
Qed.

Ltac neverThrows_cases :=
  repeat (neverThrows_go;
          try match goal with
              | |- neverThrows (match ?x with _ => _ end) => destruct x
              | |- neverThrows (forEach _ _) => apply neverThrows_forEach; intros ?
              end).

Lemma total_unit (m : Js unit) w : neverThrows m -> completion m w = Ok tt.
Proof. intros H. destruct (H w) as [[] Ha]. exact Ha. Qed.

(** X8.  What is raised inside the callbacks that hand nothing to a promise
    stays inside them.  In every world the hook can reach, a call of
    [startSession], through the callback of whichever render, completes
    normally whatever fails while it acquires its resources: the [catch]
    clause takes the fault and [cleanup] completes.  The error and close
    callbacks of the channel, the speaking check, [onended], the render
    effect and [clearError] complete normally too.  Nothing is said of
    [handleMessage], of the open and capture callbacks, or of what is
    chained on the promise of [live.connect], whose rejection nobody
    handles. *)
Theorem self_contained_callbacks_complete : forall evs ev,
  selfContained ev = true ->
  completion (handler ev) (run evs initial) = Ok tt.
Proof.
  intros evs ev Hev.
  assert (Hw : wellFormed (run evs initial)) by apply run_wellFormed, initial_wellFormed.
  destruct ev; cbn [handler]; try discriminate Hev.
  - now apply startSession_completes.
  - reflexivity.
  - reflexivity.
  - reflexivity.
  - now apply onclose_completes.
  - apply total_unit. unfold speakingCheck. neverThrows_cases.
  - reflexivity.
Qed.

(** A start from the initial world that finds no microphone. *)
Lemma self_contained_callbacks_complete_witness :
  completion (handler (StartSession IDLE noMicrophone)) (run [] initial) = Ok tt.
Proof.
  refine (self_contained_callbacks_complete [] (StartSession IDLE noMicrophone) _).
  reflexivity.
Defined.

(** ** Callbacks that arrive late *)

(** Whatever happens later in [cleanup], the reference to the output context
    has been dropped by then. *)
Lemma cleanup_settles_outputGone : settles outputGone cleanup.
Proof.
  unfold cleanup.
  do 9 (apply settles_later; [solve [neverThrows_go] | intros ?]).
  apply settles_here.
  - apply settles_update. reflexivity.
  - intros _. respects_with frame_leaf.
Qed.

Lemma playAudio_outputGone m w : outputGone w -> playAudio m w = (Ok tt, w).
Proof.
  intros Hg. unfold playAudio, bind, read. rewrite Hg.
  destruct (base64Audio m) as [a|]; [|reflexivity].
  now destruct (truthy a), (outputGainNodeRef (refs w)).
Qed.

Lemma speakingCheck_outputGone t w : outputGone w -> speakingCheck t w = (Ok tt, w).
Proof. intros Hg. unfold speakingCheck, bind, read. now rewrite Hg. Qed.

(** X10.  Callbacks that arrive after a teardown find nothing to do.  After
    [cleanup] (run on its own or by the close callback), whether it
    completed or not, a message that carries audio but no tool call is
    dropped: nothing is decoded, scheduled or flagged, and the world stays
    as it is; a speaking check that still fires changes nothing either. *)
Theorem late_audio_is_dropped : forall m t w,
  toolCall m = None ->
  handleMessage m (exec cleanup w) = (Ok tt, exec cleanup w) /\
  handleMessage m (dispatch w CloseIn) = (Ok tt, dispatch w CloseIn) /\
  speakingCheck t (exec cleanup w) = (Ok tt, exec cleanup w) /\
  speakingCheck t (dispatch w CloseIn) = (Ok tt, dispatch w CloseIn).
Proof.
  intros m t w Hm.
  assert (Hc : forall w0, outputGone (exec cleanup w0)) by exact cleanup_settles_outputGone.
  assert (Hd : outputGone (dispatch w CloseIn)).
  { unfold dispatch, exec. cbn [handler]. rewrite onclose_unfold. apply Hc. }
  assert (Hh : forall w0, outputGone w0 -> handleMessage m w0 = (Ok tt, w0)).
  { intros w0 H0. unfold handleMessage, bind. rewrite Hm. cbn [whenSome ret].
    now apply playAudio_outputGone. }
  split; [apply Hh, Hc|]. split; [apply Hh, Hd|].
  split; [apply speakingCheck_outputGone, Hc | apply speakingCheck_outputGone, Hd].
Qed.

(** A chunk that arrives after the session that was playing has been torn
    down. *)
Lemma late_audio_is_dropped_witness :
  handleMessage (chunkAt oneHalf) (exec cleanup playing) = (Ok tt, exec cleanup playing).
Proof.
  refine (proj1 (late_audio_is_dropped (chunkAt oneHalf) oneHalf playing _)).
  reflexivity.
Defined.

(** X9.  A chunk that fails to decode leaves the speaking flag raised.  In a
    world the hook can reach, with the output side ready and no speaking
    check running, a message whose audio payload is rejected by
    [decodeAudioData] makes [handleMessage] reject with that fault after
    [isSpeaking] has been set to [true]; nothing else changes, and no timer
    is running that would lower the flag again. *)
Theorem failed_decode_leaves_speaking_raised : forall evs m a e,
  toolCall m = None ->
  base64Audio m = Some a -> truthy a = true ->
  decoded m = Rejected_with e ->
  outputReady (run evs initial) ->
  speakingCheckIntervalRef (refs (run evs initial)) = None ->
  handleMessage m (run evs initial) =
    (Throw e, onUi (with_isSpeaking true) (run evs initial)) /\
  timers (dom (run evs initial)) = ∅.
Proof.
  intros evs m a e Hm Ha Ht Hd (ctx & gain & Hc & Hg) Hn.
  split.
  - unfold handleMessage, bind. rewrite Hm. cbn [whenSome ret].
    unfold playAudio, bind, read. now rewrite Hc, Hg, Ha, Ht, Hd.
  - destruct (run_orderly evs initial initial_orderly) as [_ Hheld].
    apply set_eq. intros x. split.
    + intros Hx. apply Hheld in Hx. congruence.
    + intros Hx. now apply not_elem_of_empty in Hx.
Qed.

(** The first chunk of an established session cannot be decoded. *)
Lemma failed_decode_leaves_speaking_raised_witness :
  handleMessage badChunk (run connectedRun initial) =
    (Throw (ErrorObj "EncodingError" "Unable to decode audio data"),
     onUi (with_isSpeaking true) (run connectedRun initial)) /\
  timers (dom (run connectedRun initial)) = ∅.
Proof.
  refine (failed_decode_leaves_speaking_raised connectedRun badChunk "UklGRg=="
            (ErrorObj "EncodingError" "Unable to decode audio data") _ _ _ _ _ _).
  - reflexivity.
  - reflexivity.
  - reflexivity.
  - reflexivity.
  - unfold outputReady. vm_compute. do 2 eexists. split; reflexivity.
  - vm_compute. reflexivity.
Defined.

(** ** Starting a session *)

(** X11.  A start that fails gives back everything it had acquired.  In a
    world the hook can reach, when the acquisition inside [startSession]
    throws [e], [startSession] itself completes normally; whatever was held
    at the moment of the throw is released (contexts closed, tracks ended,
    nodes disconnected, live sources stopped, timer cancelled, every
    reference dropped); the state is [ERROR] and the error shown is the
    classification of [e]. *)
Theorem failed_start_releases_everything : forall evs seen env e w2,
  seen = IDLE \/ seen = ERROR ->
  acquire env (exec beginAttempt (run evs initial)) = (Throw e, w2) ->
  completion (startSession seen env) (run evs initial) = Ok tt /\
  tornDown w2 (exec (startSession seen env) (run evs initial)) /\
  sessionState (ui (exec (startSession seen env) (run evs initial))) = ERROR /\
  error (ui (exec (startSession seen env) (run evs initial))) =
    Some (ErrorClassifier.mapErrorToAppError e).
Proof.
  intros evs seen env e w2 Hs Ha.
  assert (Hw : wellFormed (run evs initial)) by apply run_wellFormed, initial_wellFormed.
  assert (Hw2 : wellFormed w2).
  { replace w2 with (exec (acquire env) (exec beginAttempt (run evs initial)))
      by (unfold exec at 1; now rewrite Ha).
    apply acquire_wellFormed. exact Hw. }
  unfold completion, exec.
  rewrite (startSession_failed_form seen env _ e w2 Hw Hs Ha). cbn [fst snd].
  split; [reflexivity|]. split; [|split; reflexivity].
  exact (cleaned_tornDown
           (onUi (with_sessionState ERROR)
              (onUi (with_error (Some (ErrorClassifier.mapErrorToAppError e))) w2))
           (proj1 Hw2)).
Qed.

(** The first start finds no microphone: both contexts and the gain node
    were created before [getUserMedia] rejected. *)
Lemma failed_start_releases_everything_witness :
  completion (startSession IDLE noMicrophone) (run [] initial) = Ok tt /\
  tornDown (exec (acquire noMicrophone) (exec beginAttempt (run [] initial)))
           (exec (startSession IDLE noMicrophone) (run [] initial)) /\
  sessionState (ui (exec (startSession IDLE noMicrophone) (run [] initial))) = ERROR /\
  error (ui (exec (startSession IDLE noMicrophone) (run [] initial))) =
    Some (ErrorClassifier.mapErrorToAppError deviceFault).
Proof.
  refine (failed_start_releases_everything [] IDLE noMicrophone deviceFault
            (exec (acquire noMicrophone) (exec beginAttempt (run [] initial))) _ _).
  - left. reflexivity.
  - vm_compute. reflexivity.
Defined.

Ltac decide_tests :=
  repeat match goal with
         | |- context [bool_decide (?a = ?b)] =>
             first [ rewrite (bool_decide_eq_true_2 (a = b)) by reflexivity
                   | rewrite (bool_decide_eq_false_2 (a = b)) by discriminate ]
         end.

Ltac lookups :=
  repeat first
    [ rewrite lookup_insert_eq
    | rewrite lookup_insert_ne by lia ];
  cbn [from_option id].

Ltac env_fields :=
  cbn [genai_ctor input_ctor output_ctor input_resume output_resume user_media].

(** What a completed acquisition leaves: the interface is untouched, and
    every resource of the session is held. *)
Lemma acquire_holds env w w2 :
  acquire env w = (Ok tt, w2) ->
  ui w2 = ui w /\ isClosedRef (refs w2) = isClosedRef (refs w) /\
  outbox (dom w2) = outbox (dom w) /\
  exists tracks, user_media env = Resolved tracks /\ sessionHeld tracks w2.
Proof.
  revert w2.
  destruct w as [u r d].
  destruct r as [sp st ic oc og spr nx srcs ai tm cl ssr].
  destruct d as [cs ss ns so ts ps ob pb tc nh].
  destruct env as [g ci co ri ro um]. env_fields.
  destruct g as [[]|?]; js_cbv; [|intros ? ?; discriminate]. env_fields.
  destruct ci as [si|?]; js_cbv; [|intros ? ?; discriminate]. env_fields.
  destruct co as [so'|?]; js_cbv; [|intros ? ?; discriminate]. env_fields.
  lookups.
  destruct si; decide_tests; js_cbv; env_fields.
  all: try match goal with
           | |- context [match ?x with Resolved _ => _ | Rejected_with _ => _ end] =>
               lazymatch type of x with Awaited unit => idtac end;
               destruct x as [[]|?]; js_cbv; [|intros ? ?; discriminate]
           end.
  all: lookups.
  all: destruct so'; decide_tests; js_cbv; env_fields.
  all: try match goal with
           | |- context [match ?x with Resolved _ => _ | Rejected_with _ => _ end] =>
               lazymatch type of x with Awaited unit => idtac end;
               destruct x as [[]|?]; js_cbv; [|intros ? ?; discriminate]
           end.
  all: destruct um as [tracks|?]; js_cbv; [|intros ? ?; discriminate].
  all: intros w2 [= <-].
  all: do 3 (split; [reflexivity|]).
  all: exists tracks; split; [reflexivity|].
  all: exists nh, (Pos.succ nh), (Pos.succ (Pos.succ nh)),
         (Pos.succ (Pos.succ (Pos.succ nh))),
         (Pos.succ (Pos.succ (Pos.succ (Pos.succ nh)))).
  all: unfold contextState, outputsOf, tracksOf.
  all: cbn [refs dom aiRef inputAudioContextRef outputAudioContextRef outputGainNodeRef
            streamRef sessionPromiseRef contexts nodes streams promises].
  all: lookups.
  all: repeat split; first [reflexivity | discriminate | lia].
Qed.

(** X12.  A start that succeeds holds everything the session needs.  When
    the acquisition inside [startSession] completes, [startSession]
    completes with the state [CONNECTING], no error and the channel not
    marked closed; the client, two distinct audio contexts (neither left
    suspended), the gain node connected to the output context, the
    microphone stream with the tracks the browser gave, and the still
    pending promise of the channel are all held.  The history is untouched
    and nothing has been sent. *)
Theorem successful_start_holds_everything : forall seen env w,
  seen = IDLE \/ seen = ERROR ->
  completion (acquire env) (exec beginAttempt w) = Ok tt ->
  completion (startSession seen env) w = Ok tt /\
  sessionState (ui (exec (startSession seen env) w)) = CONNECTING /\
  error (ui (exec (startSession seen env) w)) = None /\
  isClosedRef (refs (exec (startSession seen env) w)) = false /\
  history (ui (exec (startSession seen env) w)) = history (ui w) /\
  outbox (dom (exec (startSession seen env) w)) = outbox (dom w) /\
  exists tracks,
    user_media env = Resolved tracks /\
    sessionHeld tracks (exec (startSession seen env) w).
Proof.
  intros seen env w Hs Ha. unfold completion in Ha.
  destruct (acquire env (exec beginAttempt w)) as [[[]|e] w2] eqn:Hacq;
    [clear Ha | cbn in Ha; discriminate Ha].
  assert (Hst : startSession seen env w = (Ok tt, w2)).
  { rewrite (startSession_unguarded seen env w Hs). unfold tryCatch. now rewrite Hacq. }
  unfold completion, exec. rewrite Hst. cbn [fst snd].
  destruct (acquire_holds env _ w2 Hacq) as (Hui & Hcl & Hout & Hheld).
  split; [reflexivity|]. rewrite Hui, Hcl, Hout.
  do 5 (split; [reflexivity|]). exact Hheld.
Qed.

(** The first start, with both contexts created suspended. *)
Lemma successful_start_holds_everything_witness :
  sessionState (ui (exec (startSession IDLE okEnv) initial)) = CONNECTING /\
  sessionHeld [live] (exec (startSession IDLE okEnv) initial).
Proof.
  destruct (successful_start_holds_everything IDLE okEnv initial) as (_ & Hs & _ & _ & _ & _ & Hh).
  - left. reflexivity.
  - vm_compute. reflexivity.
  - split; [exact Hs|].
    destruct Hh as (tracks & Ht & Hh). injection Ht as <-. exact Hh.
Defined.

(** X13.  The open callback of a live attempt wires the microphone.  With
    the channel not marked closed, the input context held and not closed and
    the stream held, the callback sets the state to [CONNECTED] first.  If
    the stream carries a track, a source node and a processor node are
    created, the processor is held in [scriptProcessorRef], the source feeds
    the processor and the processor the destination of the input context,
    and nothing is sent.  If the stream carries no track, the callback
    throws with the state already [CONNECTED] and nothing wired. *)
Theorem onopen_wires_the_microphone : forall w ctx stream,
  isClosedRef (refs w) = false ->
  inputAudioContextRef (refs w) = Some ctx ->
  streamRef (refs w) = Some stream ->
  contextState ctx w <> closed ->
  sessionState (ui (exec onopen w)) = CONNECTED /\
  outbox (dom (exec onopen w)) = outbox (dom w) /\
  match tracksOf stream w with
  | [] =>
      completion onopen w = Throw (invalidStateError "MediaStream has no audio track") /\
      exec onopen w = onUi (with_sessionState CONNECTED) w
  | _ :: _ =>
      completion onopen w = Ok tt /\
      exists source processor,
        source <> processor /\
        scriptProcessorRef (refs (exec onopen w)) = Some processor /\
        outputsOf source (exec onopen w) = [processor] /\
        outputsOf processor (exec onopen w) = [ctx]
  end.
Proof.
  intros w ctx stream Hc Hi Hs Hn.
  destruct w as [u r d].
  destruct r as [sp st ic oc og spr nx srcs ai tm cl ssr].
  destruct d as [cs ss ns so ts ps ob pb tc nh].
  unfold contextState, tracksOf in *. cbn in Hc, Hi, Hs, Hn. subst cl ic st.
  js_cbv. rewrite (bool_decide_eq_false_2 _ Hn).
  cbn [refs dom streams].
  destruct (default [] (ss !! stream)) as [|t tracks] eqn:Ht; js_cbv.
  - repeat split; reflexivity.
  - do 3 (split; [reflexivity|]).
    exists nh, (Pos.succ nh). lookups.
    repeat split; first [reflexivity | lia].
Qed.

(** The attempt under way in [connecting]: input context 1, stream 4, one
    live track. *)
Lemma onopen_wires_the_microphone_witness :
  sessionState (ui (exec onopen connecting)) = CONNECTED /\
  completion onopen connecting = Ok tt.
Proof.
  destruct (onopen_wires_the_microphone connecting 1%positive 4%positive)
    as (Hs & _ & Hm).
  - vm_compute. reflexivity.
  - vm_compute. reflexivity.
  - vm_compute. reflexivity.
  - vm_compute. discriminate.
  - split; [exact Hs|]. exact (proj1 Hm).
Defined.

(** ** Error classification: what the tests look at *)

Lemma append_cons c a b : String c a ++ b = String c (a ++ b).
Proof. reflexivity. Qed.

Lemma append_nil b : "" ++ b = b.
Proof. reflexivity. Qed.

Lemma toLowerCase_app a b : toLowerCase (a ++ b) = toLowerCase a ++ toLowerCase b.
Proof.
  induction a as [|c a IH]; [reflexivity|].
  rewrite append_cons. cbn [toLowerCase]. rewrite append_cons. now rewrite IH.
Qed.

Lemma prefix_spec sub : forall s,
  String.prefix sub s = true <-> exists post, s = sub ++ post.
Proof.
  induction sub as [|a sub IH]; intros s.
  - split; [intros _; now exists s | intros _; now destruct s].
  - destruct s as [|b s]; cbn [String.prefix].
    + split; [discriminate | intros (post & H)].
      rewrite append_cons in H. discriminate H.
    + destruct (Ascii.ascii_dec a b) as [->|Hne].
      * rewrite IH. split; intros (post & H); exists post.
        -- rewrite append_cons. now rewrite H.
        -- rewrite append_cons in H. now injection H.
      * split; [discriminate | intros (post & H)].
        rewrite append_cons in H. injection H as H1 H2. congruence.
Qed.

Lemma includes_spec sub : forall s,
  includes sub s = true <-> exists pre post, s = pre ++ sub ++ post.
Proof.
  induction s as [|c s IH].
  - cbn [includes]. rewrite orb_false_r, prefix_spec. split.
    + intros (post & H). now exists "", post.
    + intros (pre & post & H). destruct pre as [|c' pre].
      * now exists post.
      * rewrite append_cons in H. discriminate H.
  - cbn [includes]. rewrite orb_true_iff, prefix_spec, IH. split.
    + intros [(post & H) | (pre & post & H)].
      * now exists "", post.
      * exists (String c pre), post. rewrite append_cons. now rewrite H.
    + intros (pre & post & H). destruct pre as [|c' pre].
      * left. now exists post.
      * right. rewrite append_cons in H. injection H as _ H. now exists pre, post.
Qed.

(** X14.  What makes a fault a permission fault.  An [Error] object is
    classified as the permission error exactly when its message, lower-cased,
    contains [permission] somewhere, or its name is exactly
    [NotAllowedError]; in particular the keyword is found in any mix of
    upper and lower case and wherever it stands in the message, whatever the
    name and the rest of the message are. *)
Theorem permission_fault_characterised :
  (forall name msg,
     ErrorClassifier.mapErrorToAppError (ErrorObj name msg) = ErrorClassifier.permissionError <->
     (exists pre post, toLowerCase msg = pre ++ "permission" ++ post) \/
     name = "NotAllowedError") /\
  (forall name pre kw post,
     toLowerCase kw = "permission" ->
     ErrorClassifier.mapErrorToAppError (ErrorObj name (pre ++ kw ++ post)) =
     ErrorClassifier.permissionError).
Proof.
  assert (Hsig : forall name msg,
    ErrorClassifier.permissionSignature name msg = true <->
    (exists pre post, toLowerCase msg = pre ++ "permission" ++ post) \/
    name = "NotAllowedError").
  { intros name msg. unfold ErrorClassifier.permissionSignature, str_eqb.
    now rewrite orb_true_iff, includes_spec, bool_decide_eq_true. }
  assert (Hmain : forall name msg,
    ErrorClassifier.mapErrorToAppError (ErrorObj name msg) = ErrorClassifier.permissionError <->
    ErrorClassifier.permissionSignature name msg = true).
  { intros name msg. unfold ErrorClassifier.mapErrorToAppError.
    destruct (ErrorClassifier.permissionSignature name msg); [easy|].
    split; [|discriminate]. intros H. apply (f_equal title) in H. revert H.
    destruct (ErrorClassifier.connectionSignature msg);
      [|destruct (ErrorClassifier.deviceSignature name msg)];
      vm_compute; discriminate. }
  split.
  - intros name msg. now rewrite Hmain, Hsig.
  - intros name pre kw post Hkw. apply Hmain, Hsig. left.
    exists (toLowerCase pre), (toLowerCase post).
    now rewrite !toLowerCase_app, Hkw.
Qed.

(** ** The history and the mirror of the state *)

#[global] Instance historyGrows_preorder : PreOrder historyGrows.
Proof.
  split.
  - intros w. now exists [].
  - intros a b c [n1 H1] [n2 H2]. exists (n2 ++ n1)%list.
    rewrite H2, H1. apply app_assoc.
Qed.

#[global] Instance sameHistory_preorder : PreOrder sameHistory.
Proof.
  split; [intros w; red; reflexivity|].
  intros a b c H1 H2. red in H1, H2 |- *. congruence.
Qed.

#[global] Instance sameMirror_preorder : PreOrder sameMirror.
Proof.
  split; [intros w; red; reflexivity|].
  intros a b c H1 H2. red in H1, H2 |- *. congruence.
Qed.


Ltac history_leaf :=
  unfold historyGrows; cbn;
  first [ now exists [] | eexists [_]; reflexivity ].

Lemma handler_historyGrows ev : respects historyGrows (handler ev).
Proof. destruct ev; respects_with history_leaf. Qed.

Lemma handler_sameHistory ev :
  carriesToolCall ev = false -> respects sameHistory (handler ev).
Proof.
  destruct ev; cbn [carriesToolCall handler]; intros Hev.
  all: try solve [respects_with frame_leaf].
  unfold handleMessage. destruct (toolCall m); [discriminate Hev|].
  respects_with frame_leaf.
Qed.

(** X15.  The history only grows, and only tool calls add to it.  Whatever
    events run, the history afterwards is the history before with new
    entries put in front: no entry is ever removed, changed or reordered,
    not even by [cleanup] or by a new start.  An event other than a message
    that carries a tool call leaves the history exactly as it is. *)
Theorem history_is_append_only :
  (forall evs w, exists new,
     history (ui (run evs w)) = (new ++ history (ui w))%list) /\
  (forall ev w, carriesToolCall ev = false ->
     history (ui (dispatch w ev)) = history (ui w)).
Proof.
  split.
  - induction evs as [|ev evs IH]; intros w.
    + now exists [].
    + destruct (IH (dispatch w ev)) as [n2 H2].
      destruct (handler_historyGrows ev w) as [n1 H1].
      exists (n2 ++ n1)%list.
      change (run (ev :: evs) w) with (run evs (dispatch w ev)).
      rewrite H2. unfold dispatch. rewrite H1. apply app_assoc.
  - intros ev w Hev. exact (handler_sameHistory ev Hev w).
Qed.

Lemma handler_sameMirror ev :
  match ev with Render => True | _ => respects sameMirror (handler ev) end.
Proof. destruct ev; try exact I; respects_with frame_leaf. Qed.

(** X16.  The mirror [sessionStateRef] follows the state only at a render.
    The render effect copies the state into the mirror; no other event
    writes the mirror, although [startSession], the open, error and close
    callbacks all change the state.  Between two renders the mirror
    therefore keeps the state of the last render. *)
Theorem mirror_follows_render_only : forall ev w,
  sessionStateRef (refs (dispatch w ev)) =
  match ev with
  | Render => sessionState (ui w)
  | _ => sessionStateRef (refs w)
  end.
Proof.
  intros ev w. pose proof (handler_sameMirror ev) as H.
  destruct ev; try exact (H w). reflexivity.
Qed.

(** ** Closing *)

(** X17.  What the close callback leaves, in every world the hook can
    reach.  It completes normally; everything that was held is released and
    every reference dropped; the channel is marked closed; the state
    becomes [IDLE] unless the mirror holds [ERROR], in which case the state
    stays as it was; the error shown and the history are kept. *)
Theorem close_releases_everything : forall evs,
  completion onclose (run evs initial) = Ok tt /\
  tornDown (run evs initial) (exec onclose (run evs initial)) /\
  isClosedRef (refs (exec onclose (run evs initial))) = true /\
  sessionState (ui (exec onclose (run evs initial))) =
    (if bool_decide (sessionStateRef (refs (run evs initial)) = ERROR)
     then sessionState (ui (run evs initial)) else IDLE) /\
  error (ui (exec onclose (run evs initial))) = error (ui (run evs initial)) /\
  history (ui (exec onclose (run evs initial))) = history (ui (run evs initial)).
Proof.
  intros evs.
  assert (Hw : wellFormed (run evs initial)) by apply run_wellFormed, initial_wellFormed.
  set (w := run evs initial) in *.
  unfold completion, exec. rewrite onclose_unfold.
  set (w' := onUi _ (onRefs _ w)).
  rewrite (cleanup_closed_form w' (proj1 Hw)). cbn [fst snd].
  split; [reflexivity|].
  split; [exact (cleaned_tornDown w' (proj1 Hw))|].
  split; [reflexivity|].
  subst w'. cbn.
  destruct (bool_decide (sessionStateRef (refs w) = ERROR)); repeat split.
Qed.

#[global] Instance samePlayback_preorder : PreOrder samePlayback.
Proof.
  split; unfold samePlayback; [intros w; split; reflexivity|].
  intros a b c [] []; split; congruence.
Qed.

(** ** Playback under interleaving *)

Lemma handler_samePlayback ev :
  mayCleanup ev = false ->
  match ev with
  | MessageIn _ => True
  | _ => respects samePlayback (handler ev)
  end.
Proof.
  destruct ev; try discriminate; intros _; try exact I; respects_with frame_leaf.
Qed.

(** A message either leaves the playback log and the cursor alone, or makes
    one call of [start], no earlier than the cursor stood, and moves the
    cursor to the end of that chunk. *)
Lemma handleMessage_step m w :
  nonneg (cursor w) -> wellTimed m ->
  samePlayback w (exec (handleMessage m) w) \/
  exists e,
    playback (dom (exec (handleMessage m) w)) = (playback (dom w) ++ [e])%list /\
    dle (cursor w) (st_when e) = true /\
    cursor (exec (handleMessage m) w) = dadd (st_when e) (st_duration e).
Proof.
  intros Hcursor [Hclock Hdur].
  assert (Hquiet : forall w1, playAudio m w1 = (Ok tt, w1) \/
                     (exists e, playAudio m w1 = (Throw e, onUi (with_isSpeaking true) w1)) ->
                     refs w1 = refs w -> playback (dom w1) = playback (dom w) ->
                     samePlayback w (exec (playAudio m) w1)).
  { intros w1 [H | [e H]] Hr Hp; unfold exec; rewrite H; cbn [snd]; split; try exact Hp;
      unfold cursor; cbn; now rewrite Hr. }
  pose proof (toolCalls_sameAudio (toolCall m) w) as [Hrefs Hplay].
  destruct (toolCalls_neverThrow (toolCall m) w) as [[] Hok].
  assert (Hexec : exec (handleMessage m) w =
                  exec (playAudio m) (exec (whenSome (toolCall m) handleToolCall) w)).
  { unfold handleMessage. now rewrite (exec_bind_Ok _ _ _ _ Hok). }
  set (w1 := exec (whenSome (toolCall m) handleToolCall) w) in *.
  destruct (base64Audio m) as [a|] eqn:Ha.
  2:{ left. rewrite Hexec. apply Hquiet; [left | exact Hrefs | exact Hplay].
      unfold playAudio, bind, read. now rewrite Ha. }
  destruct (truthy a) eqn:Ht.
  2:{ left. rewrite Hexec. apply Hquiet; [left | exact Hrefs | exact Hplay].
      unfold playAudio, bind, read. now rewrite Ha, Ht. }
  destruct (outputAudioContextRef (refs w)) as [ctx|] eqn:Hc.
  2:{ left. rewrite Hexec. apply Hquiet; [left | exact Hrefs | exact Hplay].
      unfold playAudio, bind, read. now rewrite Hrefs, Hc, Ha, Ht. }
  destruct (outputGainNodeRef (refs w)) as [gain|] eqn:Hg.
  2:{ left. rewrite Hexec. apply Hquiet; [left | exact Hrefs | exact Hplay].
      unfold playAudio, bind, read. now rewrite Hrefs, Hc, Hg, Ha, Ht. }
  destruct (decoded m) as [b|e0] eqn:Hd.
  2:{ left. rewrite Hexec. apply Hquiet; [right; exists e0 | exact Hrefs | exact Hplay].
      unfold playAudio, bind, read. now rewrite Hrefs, Hc, Hg, Ha, Ht, Hd. }
  right.
  destruct (handleMessage_chunk m b w) as (e & Hpb & _ & Hwhen & Hcur & _).
  { exists ctx, gain. now split. }
  { split; [exists a; now split | exact Hd]. }
  exists e. split; [exact Hpb|]. split; [|exact Hcur].
  rewrite Hwhen.
  exact (proj1 (proj2 (dmax_nonneg (cursor w) (currentTime m) Hcursor Hclock))).
Qed.

Lemma dispatch_step ev w :
  mayCleanup ev = false -> nonneg (cursor w) -> timed ev ->
  samePlayback w (dispatch w ev) \/
  exists e,
    playback (dom (dispatch w ev)) = (playback (dom w) ++ [e])%list /\
    dle (cursor w) (st_when e) = true /\
    cursor (dispatch w ev) = dadd (st_when e) (st_duration e).
Proof.
  intros Hev Hcursor Ht. pose proof (handler_samePlayback ev Hev) as H.
  destruct ev; try (left; exact (H w)).
  now apply handleMessage_step.
Qed.

(** X18.  Playback is scheduled in order, whatever happens between the
    chunks.  Over any run of events in which no session is started and no
    channel closes (messages with or without tool calls or audio, speaking
    checks, capture frames, errors, sources ending, renders), clock readings
    and durations being non-negative numbers, the calls of [start] made
    during the run form a gapless sequence in the arithmetic of the code:
    each begins no earlier than the binary64 sum of the previous start time
    and duration; every one of them begins no earlier than the cursor stood
    before the run, and that sum for it is no later than the cursor stands
    after the run. *)
Theorem playback_never_overlaps : forall evs w,
  forallb (fun ev => negb (mayCleanup ev)) evs = true ->
  Forall timed evs -> nonneg (cursor w) ->
  exists new,
    playback (dom (run evs w)) = (playback (dom w) ++ new)%list /\
    gapless new /\
    (forall e, e ∈ new ->
       dle (cursor w) (st_when e) = true /\
       dle (dadd (st_when e) (st_duration e)) (cursor (run evs w)) = true).
Proof.
  induction evs as [|ev evs IH]; intros w Hevs Htimed Hcursor.
  - exists []. cbn. rewrite app_nil_r. split; [reflexivity|]. split.
    + intros i a b Ha. discriminate Ha.
    + intros e He. now apply elem_of_nil in He.
  - cbn [forallb] in Hevs. apply andb_true_iff in Hevs as [Hev Hevs].
    apply negb_true_iff in Hev.
    apply Forall_cons in Htimed as [Ht Htimed].
    change (run (ev :: evs) w) with (run evs (dispatch w ev)).
    destruct (handler_cursorGrows ev Hev Ht w Hcursor) as [Hcursor' Hfirst].
    change (exec (handler ev) w) with (dispatch w ev) in Hcursor', Hfirst.
    destruct (IH (dispatch w ev) Hevs Htimed Hcursor') as (new & Hpb & Hgap & Hin).
    destruct (run_cursorGrows evs (dispatch w ev) Hevs Htimed Hcursor') as [_ Hlater].
    destruct (dispatch_step ev w Hev Hcursor Ht) as [[Hp Hc] | (e & Hp & Hle & Hc)].
    + exists new. rewrite Hpb, Hp. split; [reflexivity|]. split; [exact Hgap|].
      intros e He. destruct (Hin e He) as [H1 H2]. rewrite Hc in H1. now split.
    + exists (e :: new). rewrite Hpb, Hp, <- app_assoc.
      split; [reflexivity|]. split.
      * apply gapless_cons; [|exact Hgap].
        intros e' He'. rewrite <- Hc. apply Hin.
        destruct new as [|e0 new']; [discriminate He'|].
        injection He' as ->. apply elem_of_cons. now left.
      * intros e1 He1. apply elem_of_cons in He1 as [-> | He1].
        -- split; [exact Hle|]. now rewrite <- Hc.
        -- destruct (Hin e1 He1) as [H1 H2]. split; [|exact H2].
           eapply dle_trans; [exact Hfirst | exact H1].
Qed.

(** Three chunks of an established session, with a speaking check, a
    capture frame and a channel error between them. *)
Lemma playback_never_overlaps_witness :
  exists new,
    playback (dom (run interleaved connected)) = (playback (dom connected) ++ new)%list /\
    gapless new /\
    (forall e, e ∈ new ->
       dle (cursor connected) (st_when e) = true /\
       dle (dadd (st_when e) (st_duration e)) (cursor (run interleaved connected)) = true).
Proof.
  refine (playback_never_overlaps interleaved connected _ _ _).
  - reflexivity.
  - unfold interleaved.
    repeat (constructor; [first [exact I | split; [|intros b [= <-]]; nonneg_go]|]).
    constructor.
  - nonneg_go.
Defined.

(** ** Answers of the two remote operations *)

(** X19.  How an answer is filed in the history.  A text answer that is not
    empty becomes one [MODEL] entry with that text, of type [CODE] exactly
    when the text contains three backticks in a row and of type [TEXT]
    otherwise; a missing or empty text adds nothing.  Of the images returned
    only the first is looked at: if it has bytes, one [MODEL] entry of type
    [IMAGE] is added whose text is the data URL of those bytes; an empty
    list of images makes the handler throw. *)
Theorem answers_are_filed_by_kind :
  (forall t now w, truthy t = true ->
     exists ty,
       handleProModelResponse (Some t) now w =
         (Ok tt, onUi (fun u => with_history
                    ({| msg_id := messageId MODEL now; msg_role := MODEL;
                        msg_text := t; msg_type := ty |} :: history u) u) w) /\
       (ty = CODE <-> exists pre post, t = pre ++ backticks3 ++ post) /\
       (ty = TEXT <-> ~ exists pre post, t = pre ++ backticks3 ++ post)) /\
  (forall now w, handleProModelResponse None now w = (Ok tt, w) /\
                 handleProModelResponse (Some "") now w = (Ok tt, w)) /\
  (forall b rest now w, truthy b = true ->
     handleImageModelResponse (Some b :: rest) now w =
       (Ok tt, onUi (fun u => with_history
                  ({| msg_id := messageId MODEL now; msg_role := MODEL;
                      msg_text := "data:image/jpeg;base64," ++ b;
                      msg_type := IMAGE |} :: history u) u) w)) /\
  (forall rest now w,
     handleImageModelResponse (None :: rest) now w = (Ok tt, w) /\
     handleImageModelResponse (Some "" :: rest) now w = (Ok tt, w) /\
     completion (handleImageModelResponse [] now) w =
       Throw (typeError "generatedImages[0] is undefined")).
Proof.
  split; [|split; [|split]].
  - intros t now w Ht. unfold handleProModelResponse. rewrite Ht.
    exists (if includes backticks3 t then CODE else TEXT).
    split; [reflexivity|].
    pose proof (includes_spec backticks3 t) as Hspec.
    destruct (includes backticks3 t).
    + split; [split; [intros _; now apply Hspec | reflexivity]|].
      split; [discriminate|]. intros Hn. exfalso. apply Hn. now apply Hspec.
    + assert (Hn : ~ exists pre post, t = pre ++ backticks3 ++ post).
      { intros H. apply Hspec in H. discriminate H. }
      split; [split; [discriminate | intros H; now destruct Hn]|].
      split; [intros _; exact Hn | reflexivity].
  - intros now w. split; reflexivity.
  - intros b rest now w Hb. unfold handleImageModelResponse. now rewrite Hb.
  - intros rest now w. repeat split.
Qed.

(** ** The speaking flag *)




(** Rounding shows in the check.  Three chunks of a tenth of a second
    handled at clock 0 put the cursor at 0.30000000000000004
    (0x1.3333333333334p-2); the cursor less 0.1 is 0.20000000000000004
    (0x1.999999999999bp-3), so a check that reads the clock at 0.2
    (0x1.999999999999ap-3), a tenth of a second before the third chunk
    ends, leaves the flag up. *)
Example check_at_two_tenths_keeps_the_flag :
  let w := run (map MessageIn (repeat (chunkAt dzero) 3)) connected in
  cursor w = dyadic 5404319552844596 (-54) /\
  dsub (cursor w) oneTenth = dyadic 7205759403792795 (-55) /\
  isSpeaking (ui w) = true /\
  isSpeaking (ui (dispatch w (SpeakingCheck (dyadic 7205759403792794 (-55))))) = true /\
  isSpeaking (ui (dispatch w (SpeakingCheck (dyadic 7205759403792795 (-55))))) = false.
Proof. vm_compute. repeat split. Qed.

(** ** The first version of the hook *)



Lemma legacy_startSession_refused seen env lw :
  seen <> IDLE ->
  Legacy.startSession seen env lw = (Ok tt, lw).
Proof.
  intros Hs. unfold Legacy.startSession, Legacy.lift.
  rewrite (bool_decide_eq_true_2 _ Hs). now destruct lw.
Qed.

Lemma legacy_startSession_unguarded env lw :
  Legacy.startSession IDLE env lw =
  match Legacy.acquire env (onUi (with_sessionState CONNECTING) (Legacy.hook lw)) with
  | (Ok a, w2) => (Ok a, {| Legacy.hook := w2; Legacy.errorText := Legacy.errorText lw |})
  | (Throw _, w2) =>
      (Ok tt, {| Legacy.hook := onUi (with_sessionState ERROR) w2;
                 Legacy.errorText := Some Legacy.microphoneText |})
  end.
Proof.
  unfold Legacy.startSession, Legacy.andThen, Legacy.catching, Legacy.lift.
  rewrite (bool_decide_eq_false_2 (IDLE <> IDLE)) by (intros H; now apply H).
  destruct lw as [w et]. cbn [Legacy.hook Legacy.errorText].
  unfold setSessionState, update, Legacy.setError. cbn [Legacy.hook Legacy.errorText].
  destruct (Legacy.acquire env _) as [[[]|e] w2]; reflexivity.
Qed.

(** X21.  In the first version a failed start cannot be retried.
    [startSession] does something only when the state it captured is [IDLE].
    When the acquisition of such a start throws, whatever the fault, the
    state becomes [ERROR] and the error text is the one about the
    microphone; nothing that was acquired before the throw is released; and
    a later [startSession], made by a render that shows this state (or any
    state but [IDLE]), returns at once and changes nothing. *)
Theorem legacy_failed_start_cannot_be_retried : forall env env' e lw w2,
  Legacy.acquire env (onUi (with_sessionState CONNECTING) (Legacy.hook lw)) = (Throw e, w2) ->
  Legacy.startSession IDLE env lw =
    (Ok tt, {| Legacy.hook := onUi (with_sessionState ERROR) w2;
               Legacy.errorText := Some Legacy.microphoneText |}) /\
  sessionState (ui (Legacy.hook (Legacy.after (Legacy.startSession IDLE env) lw))) = ERROR /\
  forall seen,
    seen = sessionState (ui (Legacy.hook (Legacy.after (Legacy.startSession IDLE env) lw))) \/
    seen <> IDLE ->
    Legacy.startSession seen env' (Legacy.after (Legacy.startSession IDLE env) lw) =
      (Ok tt, Legacy.after (Legacy.startSession IDLE env) lw).
Proof.
  intros env env' e lw w2 Ha.
  assert (H1 : Legacy.startSession IDLE env lw =
    (Ok tt, {| Legacy.hook := onUi (with_sessionState ERROR) w2;
               Legacy.errorText := Some Legacy.microphoneText |})).
  { rewrite (legacy_startSession_unguarded env lw). now rewrite Ha. }
  assert (H2 : sessionState (ui (Legacy.hook
                 (Legacy.after (Legacy.startSession IDLE env) lw))) = ERROR).
  { unfold Legacy.after. rewrite H1. reflexivity. }
  split; [exact H1|]. split; [exact H2|].
  intros seen Hseen. apply legacy_startSession_refused.
  destruct Hseen as [-> | Hne]; [rewrite H2; discriminate | exact Hne].
Qed.

(** The first start finds no microphone; the retry does nothing. *)
Lemma legacy_failed_start_cannot_be_retried_witness :
  Legacy.startSession ERROR okEnv
    (Legacy.after (Legacy.startSession IDLE noMicrophone) Legacy.initialLegacy) =
  (Ok tt, Legacy.after (Legacy.startSession IDLE noMicrophone) Legacy.initialLegacy).
Proof.
  refine (proj2 (proj2 (legacy_failed_start_cannot_be_retried noMicrophone okEnv deviceFault
            Legacy.initialLegacy
            (exec (Legacy.acquire noMicrophone)
               (onUi (with_sessionState CONNECTING) (Legacy.hook Legacy.initialLegacy)))
            _)) ERROR _).
  - vm_compute. reflexivity.
  - right. discriminate.
Defined.

(** Whether or not the acquisition completes, once [getUserMedia] has
    resolved the stream is held with its tracks as the browser gave them. *)
Lemma legacy_acquire_stream env w tracks :
  genai_ctor env = Resolved tt ->
  user_media env = Resolved tracks ->
  streamRef (refs (exec (Legacy.acquire env) w)) = Some (nextHandle (dom w)) /\
  tracksOf (nextHandle (dom w)) (exec (Legacy.acquire env) w) = tracks.
Proof.
  destruct w as [u r d].
  destruct r as [sp st ic oc og spr nx srcs ai tm cl ssr].
  destruct d as [cs ss ns so ts ps ob pb tc nh].
  destruct env as [g ci co ri ro um]. env_fields.
  intros -> ->. unfold Legacy.acquire. js_cbv. env_fields.
  destruct ci as [si|?]; js_cbv; env_fields;
    [|js_cbv; rewrite ?lookup_insert_eq; split; reflexivity].
  destruct co as [so'|?]; js_cbv; env_fields;
    [|js_cbv; rewrite ?lookup_insert_eq; split; reflexivity].
  lookups.
  destruct si; decide_tests; js_cbv; env_fields.
  all: try match goal with
           | |- context [match ?x with Resolved _ => _ | Rejected_with _ => _ end] =>
               lazymatch type of x with Awaited unit => idtac end;
               destruct x as [[]|?]; js_cbv
           end.
  all: lookups.
  all: try (destruct so'; decide_tests; js_cbv; env_fields).
  all: try match goal with
           | |- context [match ?x with Resolved _ => _ | Rejected_with _ => _ end] =>
               lazymatch type of x with Awaited unit => idtac end;
               destruct x as [[]|?]; js_cbv
           end.
  all: js_cbv; rewrite ?lookup_insert_eq; split; reflexivity.
Qed.

(** X22.  In the first version a failed start leaves the microphone on.
    When [getUserMedia] has resolved and a later step of the acquisition
    throws, [startSession] ends in the state [ERROR] with the error text
    about the microphone, and the stream is still held with every track as
    the browser gave it: no track is stopped. *)
Theorem legacy_failed_start_keeps_the_microphone : forall env lw tracks e,
  genai_ctor env = Resolved tt ->
  user_media env = Resolved tracks ->
  completion (Legacy.acquire env)
    (onUi (with_sessionState CONNECTING) (Legacy.hook lw)) = Throw e ->
  sessionState (ui (Legacy.hook (Legacy.after (Legacy.startSession IDLE env) lw))) = ERROR /\
  Legacy.errorText (Legacy.after (Legacy.startSession IDLE env) lw) = Some Legacy.microphoneText /\
  exists stream,
    streamRef (refs (Legacy.hook (Legacy.after (Legacy.startSession IDLE env) lw))) = Some stream /\
    tracksOf stream (Legacy.hook (Legacy.after (Legacy.startSession IDLE env) lw)) = tracks.
Proof.
  intros env lw tracks e Hg Hu Ha.
  pose proof (legacy_acquire_stream env
                (onUi (with_sessionState CONNECTING) (Legacy.hook lw)) tracks Hg Hu)
    as [Hst Htr].
  unfold Legacy.after. rewrite (legacy_startSession_unguarded env lw).
  unfold completion, exec in *.
  destruct (Legacy.acquire env _) as [[[]|e'] w2]; [discriminate Ha|].
  cbn in *. split; [reflexivity|]. split; [reflexivity|].
  eexists. split; [exact Hst | exact Htr].
Qed.

(** The microphone is granted, then the input context cannot be created. *)
Lemma legacy_failed_start_keeps_the_microphone_witness :
  sessionState (ui (Legacy.hook
     (Legacy.after (Legacy.startSession IDLE noContext) Legacy.initialLegacy))) = ERROR /\
  exists stream,
    streamRef (refs (Legacy.hook
      (Legacy.after (Legacy.startSession IDLE noContext) Legacy.initialLegacy))) = Some stream /\
    tracksOf stream (Legacy.hook
      (Legacy.after (Legacy.startSession IDLE noContext) Legacy.initialLegacy)) = [live].
Proof.
  destruct (legacy_failed_start_keeps_the_microphone noContext Legacy.initialLegacy [live]
              (ErrorObj "NotSupportedError" "sample rate not supported"))
    as (H1 & _ & H2).
  - reflexivity.
  - reflexivity.
  - vm_compute. reflexivity.
  - split; [exact H1 | exact H2].
Defined.

Lemma legacy_cleanup_closed_form w :
  liveStarted w -> Legacy.cleanup w = (Ok tt, Legacy.cleaned w).
Proof.
  intros Hlive. unfold liveStarted in Hlive.
  destruct w as [u r d].
  destruct r as [sp st ic oc og spr nx srcs ai tm cl ssr].
  destruct d as [cs ss ns so ts ps ob pb tc nh].
  cbn in Hlive. unfold Legacy.cleanup, Legacy.cleaned, Legacy.closeNow.
  destruct spr as [h1|], ic as [h3|], oc as [h4|], st as [h5|].
  all: js_cbv.
  all: rewrite forEach_sourceStop by exact Hlive.
  all: js_cbv.
  all: reflexivity.
Qed.

Lemma closeNow_closes h cs : default closed (Legacy.closeNow (Some h) cs !! h) = closed.
Proof. unfold Legacy.closeNow. now rewrite lookup_insert_eq. Qed.

Lemma closeNow_keeps_closed o h cs :
  default closed (cs !! h) = closed ->
  default closed (Legacy.closeNow o cs !! h) = closed.
Proof.
  intros Hc. destruct o as [h'|]; [|exact Hc]. unfold Legacy.closeNow.
  destruct (decide (h' = h)) as [->|Hne].
  - now rewrite lookup_insert_eq.
  - now rewrite lookup_insert_ne.
Qed.

(** X23.  In the first version [cleanup] releases what is held but keeps
    every reference to it.  In a world whose live sources have been started
    it completes normally; the held contexts are closed, every track of the
    held stream is ended, the processor is disconnected and the live sources
    are stopped; the live set is emptied and the cursor is 0; but the
    references to the contexts, the stream, the processor and the session
    promise still point to the released objects, and the session state and
    the history are as before. *)
Theorem legacy_cleanup_keeps_references : forall w,
  liveStarted w ->
  completion Legacy.cleanup w = Ok tt /\
  ui (exec Legacy.cleanup w) = ui w /\
  refs (exec Legacy.cleanup w) =
    with_nextStartTimeRef dzero (with_audioSourcesRef [] (refs w)) /\
  (forall h, inputAudioContextRef (refs w) = Some h ->
     contextState h (exec Legacy.cleanup w) = closed) /\
  (forall h, outputAudioContextRef (refs w) = Some h ->
     contextState h (exec Legacy.cleanup w) = closed) /\
  (forall h, streamRef (refs w) = Some h ->
     Forall (eq ended) (tracksOf h (exec Legacy.cleanup w)) /\
     length (tracksOf h (exec Legacy.cleanup w)) = length (tracksOf h w)) /\
  (forall h, scriptProcessorRef (refs w) = Some h ->
     outputsOf h (exec Legacy.cleanup w) = []) /\
  (forall h, h ∈ audioSourcesRef (refs w) ->
     exists s, sources (dom (exec Legacy.cleanup w)) !! h = Some s /\
               src_stopped s = true).
Proof.
  intros w Hlive. unfold completion, exec.
  rewrite (legacy_cleanup_closed_form w Hlive). cbn [fst snd].
  unfold Legacy.cleaned, contextState, tracksOf, outputsOf.
  cbn [ui refs dom contexts streams nodes sources].
  repeat apply conj; try reflexivity.
  - intros h ->. apply closeNow_keeps_closed, closeNow_closes.
  - intros h ->. apply closeNow_closes.
  - intros h ->. unfold stopHeld. rewrite lookup_alter_eq.
    destruct (streams (dom w) !! h) as [tracks|]; cbn; [|split; [constructor|reflexivity]].
    split; [|apply length_fmap].
    apply Forall_fmap, Forall_true. reflexivity.
  - intros h ->. unfold releaseHeld. now rewrite lookup_insert_eq.
  - intros h Hh. now apply stopAll_stops.
Qed.

(** The session the first version holds after a successful start. *)
Lemma legacy_cleanup_keeps_references_witness :
  completion Legacy.cleanup (Legacy.hook legacyLive) = Ok tt /\
  refs (exec Legacy.cleanup (Legacy.hook legacyLive)) =
    with_nextStartTimeRef dzero (with_audioSourcesRef [] (refs (Legacy.hook legacyLive))).
Proof.
  destruct (legacy_cleanup_keeps_references (Legacy.hook legacyLive))
    as (H1 & _ & H2 & _).
  - unfold liveStarted. vm_compute. constructor.
  - split; [exact H1 | exact H2].
Defined.

(** X24.  In the first version a close that follows an error hides the
    error state.  The error callback sets the connection text and the state
    [ERROR] and runs [cleanup]; the close callback then sets the state to
    [IDLE] unconditionally and runs [cleanup] again.  Both complete
    normally, and the hook ends in [IDLE] with the error text still set. *)
Theorem legacy_close_after_error_goes_idle : forall lw,
  liveStarted (Legacy.hook lw) ->
  Legacy.outcome Legacy.errorThenClose lw = Ok tt /\
  sessionState (ui (Legacy.hook (Legacy.after Legacy.errorThenClose lw))) = IDLE /\
  Legacy.errorText (Legacy.after Legacy.errorThenClose lw) = Some Legacy.connectionText /\
  history (ui (Legacy.hook (Legacy.after Legacy.errorThenClose lw))) =
    history (ui (Legacy.hook lw)).
Proof.
  intros [w et] Hlive. cbn [Legacy.hook] in Hlive.
  unfold Legacy.outcome, Legacy.after, Legacy.errorThenClose, Legacy.onerror,
    Legacy.onclose, Legacy.andThen, Legacy.lift, Legacy.setError,
    setSessionState, update.
  cbn [Legacy.hook Legacy.errorText].
  rewrite (legacy_cleanup_closed_form (onUi (with_sessionState ERROR) w)) by exact Hlive.
  cbn [Legacy.hook Legacy.errorText].
  rewrite legacy_cleanup_closed_form by constructor.
  cbn. repeat split.
Qed.

Lemma legacy_close_after_error_goes_idle_witness :
  sessionState (ui (Legacy.hook (Legacy.after Legacy.errorThenClose legacyLive))) = IDLE /\
  Legacy.errorText (Legacy.after Legacy.errorThenClose legacyLive) =
    Some Legacy.connectionText.
Proof.
  destruct (legacy_close_after_error_goes_idle legacyLive) as (_ & H1 & H2 & _).
  - unfold liveStarted. vm_compute. constructor.
  - split; [exact H1 | exact H2].
Defined.

(** ** The application around the hook *)

Lemma appCommit_failing env e w :
  (forall w0, completion (acquire env) w0 = Throw e) ->
  wellFormed w ->
  sessionState (ui w) = IDLE \/ sessionState (ui w) = ERROR ->
  wellFormed (run (appCommit env w) w) /\
  sessionState (ui (run (appCommit env w) w)) = ERROR /\
  error (ui (run (appCommit env w) w)) = Some (ErrorClassifier.mapErrorToAppError e).
Proof.
  intros Hfail Hw Hs.
  change (run (appCommit env w) w)
    with (exec (startSession (sessionState (ui w)) env) (dispatch w Render)).
  set (w1 := dispatch w Render).
  assert (Hw1 : wellFormed w1) by exact (handler_wellFormed Render w Hw).
  split; [exact (handler_wellFormed (StartSession (sessionState (ui w)) env) w1 Hw1)|].
  pose proof (Hfail (exec beginAttempt w1)) as Ha. unfold completion in Ha.
  destruct (acquire env (exec beginAttempt w1)) as [[[]|e'] w2] eqn:Hacq;
    [discriminate Ha|].
  cbn in Ha. injection Ha as ->.
  unfold exec. rewrite (startSession_failed_form _ env w1 e w2 Hw1 Hs Hacq).
  split; reflexivity.
Qed.

Lemma afterCommits_failing env e :
  (forall w0, completion (acquire env) w0 = Throw e) ->
  forall n w,
    wellFormed w ->
    sessionState (ui w) = IDLE \/ sessionState (ui w) = ERROR ->
    wellFormed (afterCommits (S n) env w) /\
    sessionState (ui (afterCommits (S n) env w)) = ERROR /\
    error (ui (afterCommits (S n) env w)) = Some (ErrorClassifier.mapErrorToAppError e).
Proof.
  intros Hfail. induction n as [|n IH]; intros w Hw Hs.
  - exact (appCommit_failing env e w Hfail Hw Hs).
  - destruct (appCommit_failing env e w Hfail Hw Hs) as (Hw' & Hs' & _).
    change (afterCommits (S (S n)) env w)
      with (afterCommits (S n) env (run (appCommit env w) w)).
    apply IH; [exact Hw' | right; exact Hs'].
Qed.

(** X25.  While a fault persists the application never stops retrying.
    The effect of [App] calls the [startSession] of every render, which
    captured the state that render shows.  During a session the guard turns
    the call away and the render changes nothing but the mirror.  But in a
    world the hook can reach with the state [IDLE] or [ERROR], when the
    acquisition fails with [e] whatever the world, then after any number of
    renders the state is [ERROR] again with the classification of [e]
    shown; and an error that the user dismisses is back after the next
    render. *)
Theorem app_retries_while_the_fault_persists : forall env e evs n,
  (forall w0, completion (acquire env) w0 = Throw e) ->
  sessionState (ui (run evs initial)) = IDLE \/
  sessionState (ui (run evs initial)) = ERROR ->
  sessionState (ui (afterCommits (S n) env (run evs initial))) = ERROR /\
  error (ui (afterCommits (S n) env (run evs initial))) =
    Some (ErrorClassifier.mapErrorToAppError e) /\
  error (ui (dispatch (afterCommits (S n) env (run evs initial)) ClearError)) = None /\
  error (ui (afterCommits 1 env
               (dispatch (afterCommits (S n) env (run evs initial)) ClearError))) =
    Some (ErrorClassifier.mapErrorToAppError e) /\
  (forall w, sessionState (ui w) = CONNECTING \/ sessionState (ui w) = CONNECTED ->
     afterCommits 1 env w = dispatch w Render).
Proof.
  intros env e evs n Hfail Hs.
  assert (Hw : wellFormed (run evs initial)) by apply run_wellFormed, initial_wellFormed.
  destruct (afterCommits_failing env e Hfail n _ Hw Hs) as (Hwn & Hsn & Hen).
  split; [exact Hsn|]. split; [exact Hen|]. split; [reflexivity|]. split.
  - set (wn := afterCommits (S n) env (run evs initial)) in *.
    assert (Hwc : wellFormed (dispatch wn ClearError))
      by exact (handler_wellFormed ClearError wn Hwn).
    assert (Hsc : sessionState (ui (dispatch wn ClearError)) = IDLE \/
                  sessionState (ui (dispatch wn ClearError)) = ERROR)
      by (right; exact Hsn).
    exact (proj2 (proj2 (afterCommits_failing env e Hfail 0 _ Hwc Hsc))).
  - intros w Hg.
    change (afterCommits 1 env w)
      with (exec (startSession (sessionState (ui w)) env) (dispatch w Render)).
    unfold exec, startSession.
    destruct Hg as [-> | ->]; reflexivity.
Qed.

(** The client cannot be constructed; three renders later the error is
    shown again. *)
Lemma app_retries_while_the_fault_persists_witness :
  sessionState (ui (afterCommits 3 noApiKey (run [] initial))) = ERROR /\
  error (ui (afterCommits 3 noApiKey (run [] initial))) =
    Some (ErrorClassifier.mapErrorToAppError
            (ErrorObj "Error" "An API Key must be set when running in a browser")).
Proof.
  destruct (app_retries_while_the_fault_persists noApiKey
              (ErrorObj "Error" "An API Key must be set when running in a browser")
              [] 2%nat)
    as (H1 & H2 & _).
  - intros w0. reflexivity.
  - left. reflexivity.
  - split; [exact H1 | exact H2].
Defined.

(** X26.  After the channel closes the application reconnects by itself.
    In a world the hook can reach, when the channel closes while the mirror
    does not hold [ERROR], the state becomes [IDLE]; the render that follows
    shows [IDLE] and calls its [startSession], which is not turned away, and
    when its acquisition completes a new session is being connected with
    everything it needs held. *)
Theorem app_reconnects_after_close : forall env evs,
  sessionStateRef (refs (run evs initial)) <> ERROR ->
  completion (acquire env)
    (exec beginAttempt (run [CloseIn; Render] (run evs initial))) = Ok tt ->
  sessionState (ui (dispatch (run evs initial) CloseIn)) = IDLE /\
  sessionState (ui (afterCommits 1 env (dispatch (run evs initial) CloseIn))) = CONNECTING /\
  isClosedRef (refs (afterCommits 1 env (dispatch (run evs initial) CloseIn))) = false /\
  exists tracks,
    user_media env = Resolved tracks /\
    sessionHeld tracks (afterCommits 1 env (dispatch (run evs initial) CloseIn)).
Proof.
  intros env evs Hm Ha.
  assert (Hw : wellFormed (run evs initial)) by apply run_wellFormed, initial_wellFormed.
  set (w := run evs initial) in *.
  assert (Hidle : sessionState (ui (dispatch w CloseIn)) = IDLE).
  { unfold dispatch, exec. cbn [handler]. rewrite onclose_unfold.
    rewrite cleanup_closed_form by exact (proj1 Hw).
    cbn. now rewrite (bool_decide_eq_false_2 _ Hm). }
  split; [exact Hidle|].
  change (afterCommits 1 env (dispatch w CloseIn))
    with (exec (startSession (sessionState (ui (dispatch w CloseIn))) env)
            (run [CloseIn; Render] w)).
  set (w1 := run [CloseIn; Render] w) in *.
  unfold completion in Ha.
  destruct (acquire env (exec beginAttempt w1)) as [[[]|e] w2] eqn:Hacq;
    [clear Ha | cbn in Ha; discriminate Ha].
  assert (Hst : startSession (sessionState (ui (dispatch w CloseIn))) env w1 = (Ok tt, w2)).
  { rewrite (startSession_unguarded _ env w1 (or_introl Hidle)).
    unfold tryCatch. now rewrite Hacq. }
  unfold exec. rewrite Hst. cbn [snd].
  destruct (acquire_holds env _ w2 Hacq) as (Hui & Hcl & _ & Hheld).
  rewrite Hui, Hcl. do 2 (split; [reflexivity|]). exact Hheld.
Qed.

(** An established session with three chunks playing is closed by the
    server. *)
Lemma app_reconnects_after_close_witness :
  sessionState (ui (afterCommits 1 okEnv (dispatch (run playingRun initial) CloseIn))) =
    CONNECTING.
Proof.
  destruct (app_reconnects_after_close okEnv playingRun) as (_ & H & _).
  - vm_compute. discriminate.
  - vm_compute. reflexivity.
  - exact H.
Defined.
